(** * strictjson: case-exact JSON decoding, verified against its Go source

    A shallow embedding of [unmarshal.go], [errors.go] and the decoder
    options of the [strictjson] package, with the properties of its three
    components: the field map builder ([buildStructFields]), the strict
    walker ([unmarshalValue] and friends) and the diagnostics
    ([findSuggestion], [levenshteinDistance]). *)

From Stdlib Require Import ZArith Ascii String List Lia Permutation.
From stdpp Require Import base decidable option list gmap strings fin_maps fin_sets.

Set Warnings "-register-all,-clear-no-such-hyp".

Local Open Scope Z_scope.

(** ** Go strings

    A Go [string] is a sequence of bytes; [len(s)] counts bytes and [s[i]]
    reads one byte.  Rocq's [string] is a list of 8-bit [ascii] values, so
    it is used as is. *)

Definition bytes (s : string) : list ascii := list_ascii_of_string s.

Definition len (s : string) : Z := Z.of_nat (length (bytes s)).

(** [s[i]]; the source only reads inside the string, the default is never
    returned there. *)
Definition byte_at (b : list ascii) (i : nat) : ascii :=
  default Ascii.zero (b !! i).

(** Reading a slot of an [[]int].  Go's [int] is modelled by [Z]: the values
    stored are edit distances, bounded by the lengths of the two strings. *)
Definition int_at (l : list Z) (j : nat) : Z := default 0 (l !! j).

(** ** Diagnostics: edit distance *)

Module Diagnostics.

(** [minOfThree] of the source, branch by branch. *)
Definition minOfThree (a b c : Z) : Z :=
  if a <? b then
    (if a <? c then a else c)
  else
    (if b <? c then b else c).

(** Body of the inner [for j := 1; j <= len(s2); j++] loop. *)
Definition levenshtein_cell (b1 b2 : list ascii) (i : nat) (prev : list Z)
    (curr : list Z) (j : nat) : list Z :=
  let cost := if decide (byte_at b1 (i - 1) ≠ byte_at b2 (j - 1)) then 1 else 0 in
  <[ j := minOfThree (int_at prev j + 1)
                     (int_at curr (j - 1) + 1)
                     (int_at prev (j - 1) + cost) ]> curr.

(** Body of the outer [for i := 1; i <= len(s1); i++] loop, with the swap
    [prev, curr = curr, prev] at its end. *)
Definition levenshtein_row (b1 b2 : list ascii) (rows : list Z * list Z)
    (i : nat) : list Z * list Z :=
  let '(prev, curr) := rows in
  let curr := <[ 0%nat := Z.of_nat i ]> curr in
  let curr := foldl (levenshtein_cell b1 b2 i prev) curr (seq 1 (length b2)) in
  (curr, prev).

Definition levenshteinDistance (s1 s2 : string) : Z :=
  let b1 := bytes s1 in
  let b2 := bytes s2 in
  if decide (len s1 = 0) then len s2
  else if decide (len s2 = 0) then len s1
  else
    let prev := replicate (length b2 + 1) 0 in
    let curr := replicate (length b2 + 1) 0 in
    let prev := foldl (fun p j => <[ j := Z.of_nat j ]> p) prev
                      (seq 0 (length b2 + 1)) in
    let '(prev, _) := foldl (levenshtein_row b1 b2) (prev, curr)
                            (seq 1 (length b1)) in
    int_at prev (length b2).

(** [findSuggestion]; [strings.ToLower] belongs to the Go library and is
    taken as a parameter.  The empty string is the source's "no suggestion". *)
Section Suggest.
Variable ToLower : string -> string.

Definition findSuggestion (unknown : string) (knownNames : list string) : string :=
  let unknownLower := ToLower unknown in
  match find (fun name => bool_decide (ToLower name = unknownLower)) knownNames with
  | Some name => name
  | None =>
    match find (fun name => levenshteinDistance unknown name <=? 2) knownNames with
    | Some name => name
    | None => EmptyString
    end
  end.
End Suggest.

End Diagnostics.

(** ** The classic edit distance, as a specification *)

Module EditDistance.

Definition subst_cost (x y : ascii) : nat := if decide (x = y) then 0%nat else 1%nat.

(** An edit script turning [a] into [b], with its number of unit-cost
    insertions, deletions and substitutions. *)
Inductive edit : list ascii -> list ascii -> nat -> Prop :=
| edit_nil : edit [] [] 0
| edit_delete x a b n : edit a b n -> edit (x :: a) b (S n)
| edit_insert y a b n : edit a b n -> edit a (y :: b) (S n)
| edit_subst x y a b n : edit a b n -> edit (x :: a) (y :: b) (subst_cost x y + n).

(** The textbook recurrence. *)
Fixpoint lev (a b : list ascii) {struct a} : nat :=
  match a with
  | [] => length b
  | x :: a' =>
    (fix lev_row (b : list ascii) : nat :=
       match b with
       | [] => S (length a')
       | y :: b' =>
         Nat.min (S (lev a' b)) (Nat.min (S (lev_row b')) (subst_cost x y + lev a' b'))
       end) b
  end.

End EditDistance.

(** ** Types, as [reflect] shows them

    A struct type is identified by its name; its fields are looked up in an
    environment of declarations, so a type may mention itself through a
    pointer, a slice or a map.  Maps are keyed by strings. *)

Inductive type :=
| TBool
| TInt
| TFloat
| TString
| TInterface
| TPtr (elem : type)
| TSlice (elem : type)
| TArray (n : nat) (elem : type)
| TMap (elem : type)
| TStruct (name : string).

Inductive Kind := Bool | Int | Float64 | String_ | Interface | Ptr | Slice | Array | Map | Struct.

Definition kind (t : type) : Kind :=
  match t with
  | TBool => Bool
  | TInt => Int
  | TFloat => Float64
  | TString => String_
  | TInterface => Interface
  | TPtr _ => Ptr
  | TSlice _ => Slice
  | TArray _ _ => Array
  | TMap _ => Map
  | TStruct _ => Struct
  end.

Global Instance type_eq_dec : EqDecision type.
Proof. solve_decision. Defined.

Global Instance Kind_eq_dec : EqDecision Kind.
Proof. solve_decision. Defined.

(** [reflect.StructField], with the [json] key of its tag already looked
    up ([f.Tag.Get("json")], empty when the tag has no such key). *)
Record StructField := {
  Name : string;
  Typ : type;
  Tag : string;
  Anonymous : bool;
  IsExported : bool
}.

(** The declared struct types.  A name without a declaration has no field. *)
Abbreviation Decls := (gmap string (list StructField)).

Definition structDecl (env : Decls) (name : string) : list StructField :=
  default [] (env !! name).

(** [for t.Kind() == reflect.Ptr { t = t.Elem() }] *)
Fixpoint derefType (t : type) : type :=
  match t with
  | TPtr e => derefType e
  | _ => t
  end.

(** The order in which [range] visits the keys of a Go map is chosen by the
    runtime: any arrangement of the keys. *)
Record RangeOrder := {
  order :> list string -> list string;
  order_perm : forall l, order l ≡ₚ l
}.

(** ** Field map builder *)

Module FieldMap.

Record fieldInfo := {
  jsonName : string;
  fieldIndex : list nat
}.

Record structFields := {
  fields : gmap string fieldInfo;
  allNames : list string;
  conflict : string
}.

Record fieldScan := {
  typ : type;
  index : list nat
}.

(** [parseTag]: the tag up to its first comma, and what follows it. *)
Fixpoint parseTag (tag : string) : string * string :=
  match tag with
  | EmptyString => (EmptyString, EmptyString)
  | String c rest =>
    if Ascii.eqb c "," then (EmptyString, rest)
    else let '(name, opts) := parseTag rest in (String c name, opts)
  end.

(** The variables of [buildStructFields] that its loops update. *)
Record builder := {
  sf : structFields;
  nextLevel : list fieldScan;
  visitedTypes : gset string;
  fieldsFoundThisLevel : gset string
}.

Definition set_fields (g : gmap string fieldInfo -> gmap string fieldInfo)
    (s : structFields) : structFields :=
  {| fields := g (fields s); allNames := allNames s; conflict := conflict s |}.

(** Body of [for i := 0; i < typ.NumField(); i++]. *)
Definition scanField (scan : fieldScan) (b : builder) (i : nat) (f : StructField)
    : builder :=
  if Anonymous f then
    let nextIndex := index scan ++ [i] in
    {| sf := sf b;
       nextLevel := nextLevel b ++ [{| typ := Typ f; index := nextIndex |}];
       visitedTypes := visitedTypes b;
       fieldsFoundThisLevel := fieldsFoundThisLevel b |}
  else if negb (IsExported f) then b
  else
    let tag := Tag f in
    if decide (tag = "-"%string) then b
    else
      let name := (parseTag tag).1 in
      let name := if decide (name = ""%string) then Name f else name in
      if decide (name ∈ fieldsFoundThisLevel b) then
        {| sf := {| fields := delete name (fields (sf b));
                    allNames := allNames (sf b);
                    conflict := name |};
           nextLevel := nextLevel b;
           visitedTypes := visitedTypes b;
           fieldsFoundThisLevel := fieldsFoundThisLevel b |}
      else if decide (is_Some (fields (sf b) !! name)) then b
      else
        let indexPath := index scan ++ [i] in
        {| sf := set_fields
                   (insert name {| jsonName := name; fieldIndex := indexPath |})
                   (sf b);
           nextLevel := nextLevel b;
           visitedTypes := visitedTypes b;
           fieldsFoundThisLevel := {[ name ]} ∪ fieldsFoundThisLevel b |}.

(** Body of [for _, scan := range currentLevel]. *)
Definition scanType (env : Decls) (b : builder) (scan : fieldScan) : builder :=
  match derefType (typ scan) with
  | TStruct n =>
    if decide (n ∈ visitedTypes b) then b
    else
      let b := {| sf := sf b;
                  nextLevel := nextLevel b;
                  visitedTypes := {[ n ]} ∪ visitedTypes b;
                  fieldsFoundThisLevel := fieldsFoundThisLevel b |} in
      foldl (fun b '(i, f) => scanField scan b i f) b (imap pair (structDecl env n))
  | _ => b
  end.

(** [for name := range fieldsFoundThisLevel], in the order the runtime picks. *)
Definition recordNames (ro : RangeOrder) (found : gset string) (s : structFields)
    : structFields :=
  foldl (fun s name =>
           if decide (is_Some (fields s !! name)) then
             {| fields := fields s; allNames := allNames s ++ [name];
                conflict := conflict s |}
           else s)
        s (ro (elements found)).

(** One turn of [for len(currentLevel) > 0]: the structure built so far, the
    types seen, and the next level to scan. *)
Definition scanLevel (ro : RangeOrder) (env : Decls)
    (s : structFields) (visited : gset string) (currentLevel : list fieldScan)
    : structFields * gset string * list fieldScan :=
  let b := foldl (scanType env)
                 {| sf := s; nextLevel := []; visitedTypes := visited;
                    fieldsFoundThisLevel := ∅ |}
                 currentLevel in
  (recordNames ro (fieldsFoundThisLevel b) (sf b), visitedTypes b, nextLevel b).

(** The outer loop.  Every turn that leaves a next level has scanned a
    declared struct type for the first time, so the number of declarations
    bounds the number of turns; [fuel] counts them. *)
Fixpoint scanLevels (fuel : nat) (ro : RangeOrder) (env : Decls)
    (s : structFields) (visited : gset string) (currentLevel : list fieldScan)
    : option structFields :=
  match currentLevel with
  | [] => Some s
  | _ =>
    match fuel with
    | O => None
    | S fuel =>
      let '(s, visited, next) := scanLevel ro env s visited currentLevel in
      scanLevels fuel ro env s visited next
    end
  end.

Definition emptyStructFields : structFields :=
  {| fields := ∅; allNames := []; conflict := "" |}.

Definition buildFuel (env : Decls) : nat := S (S (size env)).

Definition buildStructFields_opt (ro : RangeOrder) (env : Decls) (t : type)
    : option structFields :=
  scanLevels (buildFuel env) ro env emptyStructFields ∅ [{| typ := t; index := [] |}].

(** [buildStructFields]; the default is never used
    (see [buildStructFields_total]). *)
Definition buildStructFields (ro : RangeOrder) (env : Decls) (t : type)
    : structFields :=
  default emptyStructFields (buildStructFields_opt ro env t).

End FieldMap.

(** ** Raw JSON and decoded values *)

(** A parsed document.  The walker never looks inside raw bytes itself: it
    hands them to [encoding/json], which yields the members of an object or
    the elements of an array as [json.RawMessage] again.  A [json.RawMessage]
    is identified with the tree it spells. *)
Inductive json :=
| JNull
| JBool (b : bool)
| JNumber (lit : string)
| JString (s : string)
| JArray (elems : list json)
| JObject (members : list (string * json)).

Fixpoint json_depth (j : json) : nat :=
  match j with
  | JArray elems => S (foldr (fun e d => Nat.max (json_depth e) d) 0%nat elems)
  | JObject members =>
    S (foldr (fun m d => Nat.max (json_depth m.2) d) 0%nat members)
  | _ => 0%nat
  end.

(** [json.Unmarshal(data, &raw)] for [raw map[string]json.RawMessage]: an
    object gives its members, a later duplicate key replacing an earlier
    one; [null] leaves the map nil; anything else is an error. *)
Definition rawObject (data : json) : option (gmap string json) :=
  match data with
  | JObject members => Some (foldl (fun m kv => <[ kv.1 := kv.2 ]> m) ∅ members)
  | JNull => Some ∅
  | _ => None
  end.

(** [json.Unmarshal(data, &rawSlice)] for [rawSlice []json.RawMessage]. *)
Definition rawArray (data : json) : option (list json) :=
  match data with
  | JArray elems => Some elems
  | JNull => Some []
  | _ => None
  end.

(** A Go value held in a slot of known static type.  [VZero] is the zero
    value of that type: the nil pointer, slice or map, the zero scalar, the
    struct whose fields are all zero. *)
Inductive value :=
| VZero
| VBool (b : bool)
| VInt (n : Z)
| VFloat (lit : string)
| VString (s : string)
| VInterface (j : json)
| VPtr (pointee : value)
| VSlice (elems : list value)
| VMap (entries : list (string * value))
| VStruct (fieldValues : list value).

(** ** Errors ([errors.go]) *)

Inductive error :=
| UnmarshalError (message : string)
| unknownFieldError (fieldName suggestion : string)
| fieldConflictError (fieldName : string)
| jsonError (message : string).

Definition errPrefixNonPointer : string := "strictjson: Unmarshal(non-pointer)".

Definition newNonPointerError : error := UnmarshalError errPrefixNonPointer.

Definition newUnknownFieldError (fieldName suggestion : string) : error :=
  unknownFieldError fieldName suggestion.

Definition newFieldConflictError (fieldName : string) : error :=
  fieldConflictError fieldName.

Definition quote : string := String (ascii_of_nat 34) EmptyString.

(** The [Error()] methods. *)
Definition Error (e : error) : string :=
  match e with
  | UnmarshalError message => message
  | unknownFieldError fieldName suggestion =>
    if decide (suggestion ≠ ""%string) then
      ("strictjson: unknown field " ++ quote ++ fieldName ++ quote
         ++ " (did you mean " ++ quote ++ suggestion ++ quote ++ "?)")%string
    else
      ("strictjson: unknown or mis-cased field " ++ quote ++ fieldName ++ quote)%string
  | fieldConflictError fieldName =>
    ("strictjson: field conflict: " ++ quote ++ fieldName ++ quote
       ++ " defined in multiple embedded structs")%string
  | jsonError message => message
  end.

(** ** Decoder options *)

Record Decoder := {
  DisallowUnknownFields : bool;
  SuggestClosest : bool
}.

Definition DecoderOption := Decoder -> Decoder.

Definition NewDecoder (opts : list DecoderOption) : Decoder :=
  foldl (fun d opt => opt d)
        {| DisallowUnknownFields := true; SuggestClosest := false |} opts.

Definition WithDisallowUnknownFields (disallow : bool) : DecoderOption :=
  fun d => {| DisallowUnknownFields := disallow; SuggestClosest := SuggestClosest d |}.

Definition WithSuggestClosest (suggest : bool) : DecoderOption :=
  fun d => {| DisallowUnknownFields := DisallowUnknownFields d; SuggestClosest := suggest |}.

(** ** Strict walker *)

Module Walker.
Import FieldMap.

(** [fieldCache]: the process-wide [sync.Map] from struct type to its
    field description. *)
Definition Cache := type -> option structFields.

Definition emptyCache : Cache := fun _ => None.

Definition Store (t : type) (s : structFields) (c : Cache) : Cache :=
  fun t' => if decide (t' = t) then Some s else c t'.

(** What a call leaves behind: the error it returns ([None] is Go's [nil]
    error), the target slot as the call left it, and the cache. *)
Record outcome := {
  err : option error;
  target : value;
  cache : Cache
}.

(** The read-only flags of a [reflect.Value]; every value the walker holds
    is addressable, so [CanSet] is the absence of both. *)
Record flagRO := {
  flagStickyRO : bool;
  flagEmbedRO : bool
}.

Definition CanSet (fl : flagRO) : bool := negb (flagStickyRO fl || flagEmbedRO fl).

Definition settable : flagRO := {| flagStickyRO := false; flagEmbedRO := false |}.

(** [v.IsNil()] and [v.Elem()] on a pointer. *)
Definition pointee_of (v : value) : option value :=
  match v with
  | VPtr x => Some x
  | _ => None
  end.

(** The [n] fields of a struct value; those of the zero struct are zero.
    (A struct value holds one value per declared field; a list of another
    length is read as cut or filled up with zero values.) *)
Definition fieldValues_of (n : nat) (v : value) : list value :=
  match v with
  | VStruct fs => resize n VZero fs
  | _ => replicate n VZero
  end.

(** A [reflect.Value] reached inside the target: its static type, what it
    holds, its flags, and the target with this slot replaced (writing
    through the handle). *)
Record slot := {
  slotType : type;
  slotValue : value;
  slotFlags : flagRO;
  slotSet : value -> value
}.

Section Walk.
(** The order of [range] over a map, the declared struct types,
    [reflect]'s answer to "does this type implement [json.Unmarshaler]",
    [strings.ToLower], and [json.Unmarshal(data, p)] for [p] pointing to a
    slot of the given type and content: the error, and the slot as
    [encoding/json] left it. *)
Variable ro : RangeOrder.
Variable env : Decls.
Variable implementsUnmarshaler : type -> bool.
Variable ToLower : string -> string.
Variable jsonUnmarshal : json -> type -> value -> option error * value.

Definition getStructFields (c : Cache) (t : type) : (error + structFields) * Cache :=
  match c t with
  | Some s =>
    if decide (conflict s ≠ ""%string) then (inl (newFieldConflictError (conflict s)), c)
    else (inr s, c)
  | None =>
    let s := buildStructFields ro env t in
    let c := Store t s c in
    if decide (conflict s ≠ ""%string) then (inl (newFieldConflictError (conflict s)), c)
    else (inr s, c)
  end.

Fixpoint containsStruct (t : type) : bool :=
  match t with
  | TPtr e => containsStruct e
  | TStruct _ => if implementsUnmarshaler (TPtr t) then false else true
  | TSlice e | TArray _ e => containsStruct e
  | TMap e => containsStruct e
  | _ => false
  end.

(** [getFieldByIndex]: the target as the walk along [index] leaves it
    (pointers on the way have been allocated), and the slot reached, if
    the walk got there. *)
Fixpoint getFieldByIndex (t : type) (v : value) (fl : flagRO)
    (set : value -> value) (index : list nat) : value * option slot :=
  match index with
  | [] => (set v, Some {| slotType := t; slotValue := v; slotFlags := fl; slotSet := set |})
  | i :: index =>
    let step (t : type) (v : value) (fl : flagRO) (set : value -> value) :=
      match t with
      | TStruct n =>
        let decl := structDecl env n in
        let fs := fieldValues_of (length decl) v in
        match decl !! i with
        | Some f =>
          let fl' := {| flagStickyRO := flagStickyRO fl
                                        || (negb (IsExported f) && negb (Anonymous f));
                        flagEmbedRO := negb (IsExported f) && Anonymous f |} in
          getFieldByIndex (Typ f) (default VZero (fs !! i)) fl'
                          (fun x => set (VStruct (<[ i := x ]> fs))) index
        | None => (set v, None)
        end
      | _ => (set v, None)
      end in
    match t with
    | TPtr e =>
      match pointee_of v with
      | None =>
        if negb (CanSet fl) then (set v, None)
        else step e VZero fl (fun x => set (VPtr x))
      | Some x => step e x fl (fun x => set (VPtr x))
      end
    | _ => step t v fl set
    end
  end.

(** [allocatePointers]: the innermost non-pointer slot. *)
Fixpoint allocatePointers (t : type) (v : value) (set : value -> value)
    : type * value * (value -> value) :=
  match t with
  | TPtr e => allocatePointers e (default VZero (pointee_of v)) (fun x => set (VPtr x))
  | _ => (t, v, set)
  end.

Definition jsonUnmarshal_into (data : json) (t : type) (v : value)
    (set : value -> value) (c : Cache) : outcome :=
  let '(e, v) := jsonUnmarshal data t v in
  {| err := e; target := set v; cache := c |}.

(** The recursive call, [d.unmarshalValue]. *)
Variable d : Decoder.
Variable unmarshalValue_rec : json -> type -> value -> Cache -> outcome.

(** The second loop of [unmarshalStruct], over the keys in [range] order. *)
Fixpoint decodeFields (s : structFields) (raw : gmap string json) (t : type)
    (keys : list string) (v : value) (c : Cache) : outcome :=
  match keys with
  | [] => {| err := None; target := v; cache := c |}
  | jsonKey :: keys =>
    match fields s !! jsonKey, raw !! jsonKey with
    | Some fi, Some rawValue =>
      match getFieldByIndex t v settable id (fieldIndex fi) with
      | (v, None) => decodeFields s raw t keys v c
      | (v, Some fieldValue) =>
        if negb (CanSet (slotFlags fieldValue)) then decodeFields s raw t keys v c
        else
          let r := unmarshalValue_rec rawValue (slotType fieldValue)
                                      (slotValue fieldValue) c in
          let v := slotSet fieldValue (target r) in
          match err r with
          | Some e => {| err := Some e; target := v; cache := cache r |}
          | None => decodeFields s raw t keys v (cache r)
          end
      end
    | _, _ => decodeFields s raw t keys v c
    end
  end.

Definition unmarshalStruct (data : json) (t : type) (v : value) (c : Cache) : outcome :=
  match rawObject data with
  | None => {| err := Some (jsonError "json: cannot unmarshal into Go value of type map[string]json.RawMessage");
               target := v; cache := c |}
  | Some raw =>
    match getStructFields c t with
    | (inl e, c) => {| err := Some e; target := v; cache := c |}
    | (inr s, c) =>
      let keys := ro (elements (dom raw)) in
      let unknown :=
        if DisallowUnknownFields d then
          find (fun jsonKey => bool_decide (fields s !! jsonKey = None)) keys
        else None in
      match unknown with
      | Some jsonKey =>
        let suggestion :=
          if SuggestClosest d then
            Diagnostics.findSuggestion ToLower jsonKey (allNames s)
          else ""%string in
        {| err := Some (newUnknownFieldError jsonKey suggestion);
           target := v; cache := c |}
      | None => decodeFields s raw t keys v c
      end
    end
  end.

(** The loop of [unmarshalSlice] over [newSlice], element by element. *)
Fixpoint decodeElems (elemType : type) (rawSlice : list json) (i : nat)
    (newSlice : list value) (c : Cache) : option error * list value * Cache :=
  match rawSlice with
  | [] => (None, newSlice, c)
  | rawElem :: rawSlice =>
    let r := unmarshalValue_rec rawElem elemType (default VZero (newSlice !! i)) c in
    let newSlice := <[ i := target r ]> newSlice in
    match err r with
    | Some e => (Some e, newSlice, cache r)
    | None => decodeElems elemType rawSlice (S i) newSlice (cache r)
    end
  end.

Definition unmarshalSlice (data : json) (t : type) (v : value) (c : Cache) : outcome :=
  match rawArray data with
  | None => {| err := Some (jsonError "json: cannot unmarshal into Go value of type []json.RawMessage");
               target := v; cache := c |}
  | Some rawSlice =>
    let elemType := match t with TSlice e => e | _ => t end in
    let needsValidation := containsStruct elemType in
    if negb needsValidation then jsonUnmarshal_into data t v id c
    else
      let newSlice := replicate (length rawSlice) VZero in
      match decodeElems elemType rawSlice 0 newSlice c with
      | (Some e, _, c) => {| err := Some e; target := v; cache := c |}
      | (None, newSlice, c) => {| err := None; target := VSlice newSlice; cache := c |}
      end
  end.

(** [v.SetMapIndex(key, elem)] *)
Fixpoint SetMapIndex (entries : list (string * value)) (key : string) (elem : value)
    : list (string * value) :=
  match entries with
  | [] => [(key, elem)]
  | (k, x) :: entries =>
    if decide (k = key) then (key, elem) :: entries
    else (k, x) :: SetMapIndex entries key elem
  end.

(** The loop of [unmarshalMap], over the keys in [range] order. *)
Fixpoint decodeEntries (valueType : type) (rawMap : gmap string json)
    (keys : list string) (entries : list (string * value)) (c : Cache)
    : option error * list (string * value) * Cache :=
  match keys with
  | [] => (None, entries, c)
  | key :: keys =>
    match rawMap !! key with
    | Some rawValue =>
      let r := unmarshalValue_rec rawValue valueType VZero c in
      match err r with
      | Some e => (Some e, entries, cache r)
      | None =>
        decodeEntries valueType rawMap keys (SetMapIndex entries key (target r)) (cache r)
      end
    | None => decodeEntries valueType rawMap keys entries c
    end
  end.

Definition unmarshalMap (data : json) (t : type) (v : value) (c : Cache) : outcome :=
  match rawObject data with
  | None => {| err := Some (jsonError "json: cannot unmarshal into Go value of type map[string]json.RawMessage");
               target := v; cache := c |}
  | Some rawMap =>
    let valueType := match t with TMap e => e | _ => t end in
    let needsValidation := containsStruct valueType in
    if negb needsValidation then jsonUnmarshal_into data t v id c
    else
      let entries := match v with VMap entries => entries | _ => [] end in
      let '(e, entries, c) :=
        decodeEntries valueType rawMap (ro (elements (dom rawMap))) entries c in
      {| err := e; target := VMap entries; cache := c |}
  end.

(** [unmarshalValue], given the recursive call.  The slot is always
    addressable here (it is reached from the pointer given to [Unmarshal],
    from a fresh slice or from [reflect.New]), so [v.CanAddr()] holds, and
    [v.Addr().Type()] is the pointer to the static type of the slot. *)
Definition unmarshalValue_body (data : json) (t : type) (v : value) (c : Cache)
    : outcome :=
  match data with
  | JNull => {| err := None; target := v; cache := c |}
  | _ =>
    if implementsUnmarshaler (TPtr t) then jsonUnmarshal_into data t v id c
    else
      let '(t', v', set) := allocatePointers t v id in
      let r :=
        match kind t' with
        | Struct => unmarshalStruct data t' v' c
        | Slice => unmarshalSlice data t' v' c
        | Map => unmarshalMap data t' v' c
        | _ => jsonUnmarshal_into data t' v' id c
        end in
      {| err := err r; target := set (target r); cache := cache r |}
  end.
End Walk.

Section Decode.
Variable ro : RangeOrder.
Variable env : Decls.
Variable implementsUnmarshaler : type -> bool.
Variable ToLower : string -> string.
Variable jsonUnmarshal : json -> type -> value -> option error * value.
Variable d : Decoder.

(** Every recursive call of the walker is on a member or an element of
    its raw input, so the nesting depth of the input bounds the depth of
    the recursion (see [unmarshalValue_unfold]). *)
Fixpoint unmarshalValue_fuel (fuel : nat) (data : json) (t : type) (v : value)
    (c : Cache) : outcome :=
  match fuel with
  | O => {| err := None; target := v; cache := c |}
  | S fuel =>
    unmarshalValue_body ro env implementsUnmarshaler ToLower jsonUnmarshal d
      (unmarshalValue_fuel fuel) data t v c
  end.

Definition unmarshalValue (data : json) (t : type) (v : value) (c : Cache) : outcome :=
  unmarshalValue_fuel (S (json_depth data)) data t v c.

(** The argument [v any] of [Unmarshal], as [reflect.ValueOf] sees it: not
    a pointer, a nil pointer, or a pointer to a slot. *)
Inductive any :=
| NotPointer
| NilPointer (t : type)
| Pointer (t : type) (v : value).

(** [(d *Decoder) Unmarshal] *)
Definition Unmarshal (data : json) (v : any) (c : Cache) : option error * any * Cache :=
  match v with
  | Pointer t x =>
    let r := unmarshalValue data t x c in
    (err r, Pointer t (target r), cache r)
  | _ => (Some newNonPointerError, v, c)
  end.
End Decode.

End Walker.

(** ** Sample declarations

    Concrete instances of what the walker takes from its surroundings, and
    the struct types of the package's tests.  They are used where a
    statement is evaluated on an input. *)

Module Samples.
Import FieldMap Walker.

(** Two ways the runtime may arrange the keys of a map. *)
Definition keepOrder : RangeOrder :=
  {| order := fun l => l; order_perm := fun l => reflexivity l |}.

Definition reverseOrder : RangeOrder :=
  {| order := @rev string; order_perm := fun l => symmetry (Permutation_rev l) |}.

(** [strings.ToLower] on ASCII letters. *)
Definition lowerByte (c : ascii) : ascii :=
  let n := nat_of_ascii c in
  if (65 <=? n)%nat && (n <=? 90)%nat then ascii_of_nat (n + 32) else c.

Fixpoint asciiToLower (s : string) : string :=
  match s with
  | EmptyString => EmptyString
  | String c s => String (lowerByte c) (asciiToLower s)
  end.

(** Decimal literals, for [int] targets. *)
Fixpoint digits (s : string) (acc : Z) : option Z :=
  match s with
  | EmptyString => Some acc
  | String c s =>
    let n := nat_of_ascii c in
    if (48 <=? n)%nat && (n <=? 57)%nat then digits s (10 * acc + Z.of_nat (n - 48))
    else None
  end.

Definition parseInt (lit : string) : option Z :=
  match lit with
  | EmptyString => None
  | String "-" s => Z.opp <$> digits s 0
  | s => digits s 0
  end.

(** A small stand-in for [encoding/json] on targets without struct types;
    a struct target is given to [decodeStruct]. *)
Section Std.
Variable decodeStruct : string -> json -> option value.

Fixpoint stdDecode (t : type) (j : json) {struct t} : option value :=
  match j with
  | JNull => Some VZero
  | _ =>
    match t with
    | TBool => match j with JBool b => Some (VBool b) | _ => None end
    | TInt => match j with JNumber lit => VInt <$> parseInt lit | _ => None end
    | TFloat => match j with JNumber lit => Some (VFloat lit) | _ => None end
    | TString => match j with JString s => Some (VString s) | _ => None end
    | TInterface => Some (VInterface j)
    | TPtr e => VPtr <$> stdDecode e j
    | TSlice e =>
      match j with
      | JArray elems => VSlice <$> mapM (stdDecode e) elems
      | _ => None
      end
    | TArray _ e =>
      match j with
      | JArray elems => VSlice <$> mapM (stdDecode e) elems
      | _ => None
      end
    | TMap e =>
      match j with
      | JObject members =>
        VMap <$> mapM (fun kv => pair kv.1 <$> stdDecode e kv.2) members
      | _ => None
      end
    | TStruct n => decodeStruct n j
    end
  end.

Definition stdUnmarshal (data : json) (t : type) (v : value) : option error * value :=
  match data with
  | JNull => (None, v)
  | _ =>
    match stdDecode t data with
    | Some x => (None, x)
    | None => (Some (jsonError "json: cannot unmarshal value into Go value"), v)
    end
  end.
End Std.

Definition noStructDecoder (n : string) (j : json) : option value := None.

Definition field (name : string) (t : type) (tag : string) : StructField :=
  {| Name := name; Typ := t; Tag := tag; Anonymous := false; IsExported := true |}.

Definition embedded (name : string) (t : type) : StructField :=
  {| Name := name; Typ := t; Tag := ""; Anonymous := true; IsExported := true |}.

(** [type Person struct { Name string `json:"name"`; Age int `json:"age"` }]
    and the other types of the tests. *)
Definition testDecls : Decls :=
  list_to_map
    [ ("Person"%string, [field "Name" TString "name"; field "Age" TInt "age"]);
      ("A"%string, [field "Name" TString "name"]);
      ("B"%string, [field "Name" TString "name"]);
      ("Conflict"%string, [embedded "A" (TStruct "A"); embedded "B" (TStruct "B")]);
      ("Base"%string, [field "ID" TInt "id"; field "Name" TString "name"]);
      ("Extended"%string, [embedded "Base" (TStruct "Base"); field "Extra" TString "extra"]);
      ("CustomTime"%string, [embedded "Time" (TStruct "Time")]);
      ("Event"%string, [field "Name" TString "name"; field "Date" (TStruct "CustomTime") "date"]);
      (* two embedded records collide on "name"; one of them embeds a third
         record that declares "name" again, one level down *)
      ("Deep"%string, [field "Name" TString "name"]);
      ("Left"%string, [field "Name" TString "name"; embedded "Deep" (TStruct "Deep")]);
      ("Right"%string, [field "Name" TString "name"]);
      ("Outer"%string, [embedded "Left" (TStruct "Left"); embedded "Right" (TStruct "Right")]);
      (* a custom decoder behind a value field and behind a pointer field *)
      ("ByValue"%string, [field "Date" (TStruct "CustomTime") "date"]);
      ("ByPointer"%string, [field "Date" (TPtr (TStruct "CustomTime")) "date"]);
      (* a directly declared "name" above two embedded records declaring it *)
      ("Shadowed"%string, [field "Name" TString "name"; embedded "A" (TStruct "A");
                           embedded "B" (TStruct "B")]);
      (* two keys that differ in case only *)
      ("TwoCase"%string, [field "Lower" TInt "a"; field "Upper" TInt "A"]);
      (* a record inside a record *)
      ("Wrapper"%string, [field "Person" (TStruct "Person") "person"]);
      (* a record that contains itself through a slice, a map and a pointer *)
      ("Node"%string, [field "ID" TString "id";
                       field "Children" (TSlice (TStruct "Node")) "children";
                       field "Siblings" (TMap (TStruct "Node")) "siblings";
                       field "Next" (TPtr (TStruct "Node")) "next"]);
      (* the same record embedded along two paths *)
      ("Shared"%string, [field "ID" TInt "id"]);
      ("ViaL"%string, [embedded "Shared" (TStruct "Shared")]);
      ("ViaR"%string, [embedded "Shared" (TStruct "Shared")]);
      ("Diamond"%string, [embedded "ViaL" (TStruct "ViaL"); embedded "ViaR" (TStruct "ViaR")]) ].

Definition noUnmarshaler (t : type) : bool := false.

(** [UnmarshalJSON] declared on the pointer receivers [*T], [T] among
    [names]: by Go's method sets, [*T] implements [json.Unmarshaler], and
    neither [T] nor [**T] does. *)
Definition pointerReceiver (names : list string) (t : type) : bool :=
  match t with
  | TPtr (TStruct n) => bool_decide (n ∈ names)
  | _ => false
  end.

(** [UnmarshalJSON] of [CustomTime], declared on the pointer receiver: a JSON
    string, kept as the time it spells. *)
Definition customTimeDecoder (n : string) (j : json) : option value :=
  match j with
  | JString s => if decide (n = "CustomTime"%string) then Some (VStruct [VString s]) else None
  | _ => None
  end.

(** A [Node] document that holds [inner] [depth] levels down, under "next",
    "children" and "siblings" in turn. *)
Fixpoint nested (depth : nat) (inner : json) : json :=
  match depth with
  | O => inner
  | S depth =>
    let below := nested depth inner in
    match Nat.modulo depth 3 with
    | O => JObject [("id"%string, JString "n"); ("next"%string, below)]
    | S O => JObject [("id"%string, JString "n"); ("children"%string, JArray [below])]
    | _ => JObject [("id"%string, JString "n");
                    ("siblings"%string, JObject [("x"%string, below)])]
    end
  end.

End Samples.

(** ** Invariants and auxiliary notions used in the proofs *)

Module TableSpec.
Import EditDistance.

(** Entry [(i, j)] of the full edit-distance table of [b1] and [b2]: the
    distance between the first [i] bytes of [b1] and the first [j] bytes of
    [b2]. *)
Definition entry (b1 b2 : list ascii) (i j : nat) : Z :=
  Z.of_nat (lev (take i b1) (take j b2)).

Definition is_row (b1 b2 : list ascii) (i : nat) (l : list Z) : Prop :=
  length l = S (length b2) /\
  forall j, (j <= length b2)%nat -> l !! j = Some (entry b1 b2 i j).

End TableSpec.

(** Characters.  A Go string holds UTF-8 text: a character (a code point)
    is a leading byte followed by its continuation bytes, the bytes
    [10xxxxxx]. *)
Module RuneSpec.

Definition continuation (c : ascii) : bool :=
  let n := nat_of_ascii c in (128 <=? n)%nat && (n <? 192)%nat.

Fixpoint runes (b : list ascii) : list (list ascii) :=
  match b with
  | [] => []
  | c :: rest =>
    match rest with
    | c2 :: _ =>
      if continuation c2 then
        match runes rest with
        | r :: rs => (c :: r) :: rs
        | [] => [[c]]
        end
      else [c] :: runes rest
    | [] => [[c]]
    end
  end.

(** The classic edit distance between two sequences of symbols of any
    kind: insertion, deletion and substitution of one symbol cost 1. *)
Fixpoint distance {A : Type} `{EqDecision A} (a b : list A) {struct a} : nat :=
  match a with
  | [] => length b
  | x :: a' =>
    (fix distance_row (b : list A) : nat :=
       match b with
       | [] => S (length a')
       | y :: b' =>
         Nat.min (S (distance a' b))
                 (Nat.min (S (distance_row b'))
                          ((if decide (x = y) then 0 else 1) + distance a' b'))
       end) b
  end.

(** The string with the given bytes. *)
Definition utf8 (codes : list nat) : string :=
  string_of_list_ascii (ascii_of_nat <$> codes).

End RuneSpec.

Module FieldMapSpec.
Import FieldMap.

(** The byte that separates the name of a tag from its options. *)
Definition comma : ascii := ","%char.

(** What holds of the loop variables while level [L] is scanned, [s0] being
    the structure at the start of the level. *)
Record level_inv (L : nat) (s0 : structFields) (b : builder) : Prop := {
  inv_allNames : allNames (sf b) = allNames s0;
  inv_old : forall n, n ∉ fieldsFoundThisLevel b ->
                      fields (sf b) !! n = fields s0 !! n;
  inv_fresh : forall n, n ∈ fieldsFoundThisLevel b -> fields s0 !! n = None;
  inv_depth : forall n fi, n ∈ fieldsFoundThisLevel b ->
                           fields (sf b) !! n = Some fi ->
                           length (fieldIndex fi) = S L;
  inv_next : Forall (fun sc => length (index sc) = S L) (nextLevel b)
}.

(** What holds of the structure each time the outer loop tests its
    condition, [L] levels having been scanned. *)
Record desc_inv (L : nat) (s : structFields) : Prop := {
  desc_nodup : NoDup (allNames s);
  desc_names : forall n, n ∈ allNames s <-> is_Some (fields s !! n);
  desc_depth : forall n fi, fields s !! n = Some fi ->
                            (length (fieldIndex fi) <= L)%nat;
  desc_sorted : forall i j n1 n2 fi1 fi2,
      (i < j)%nat -> allNames s !! i = Some n1 -> allNames s !! j = Some n2 ->
      fields s !! n1 = Some fi1 -> fields s !! n2 = Some fi2 ->
      (length (fieldIndex fi1) <= length (fieldIndex fi2))%nat
}.

(** The external name of a field, as [scanField] computes it. *)
Definition externalName (f : StructField) : string :=
  if decide ((parseTag (Tag f)).1 = ""%string) then Name f else (parseTag (Tag f)).1.

(** A field that takes part in the mapping: declared by name, exported, and
    not tagged ["-"]. *)
Definition declares (f : StructField) (n : string) : Prop :=
  Anonymous f = false /\ IsExported f = true /\ Tag f <> "-"%string /\ externalName f = n.

(** Go identifiers are not empty. *)
Definition named (env : Decls) : Prop :=
  forall T decl f, env !! T = Some decl -> f ∈ decl -> Name f <> ""%string.

(** What the scan of level 1 keeps when the records [A] and [B] both declare
    [n]: once [A] or [B] has been scanned [n] is among the names found, and
    once both have been, a conflict is recorded. *)
Definition both_scanned (A B n : string) (b : builder) : Prop :=
  ((A ∈ visitedTypes b \/ B ∈ visitedTypes b) -> n ∈ fieldsFoundThisLevel b)
  /\ (A ∈ visitedTypes b -> B ∈ visitedTypes b -> conflict (sf b) <> ""%string).

(** [anon_path env t0 p ty]: from the type [t0], the index path [p] goes
    through embedded fields only and ends at a field of type [ty] ([t0]
    itself for the empty path). *)
Inductive anon_path (env : Decls) (t0 : type) : list nat -> type -> Prop :=
| anon_here : anon_path env t0 [] t0
| anon_step p ty n i g :
    anon_path env t0 p ty ->
    derefType ty = TStruct n ->
    structDecl env n !! i = Some g ->
    Anonymous g = true ->
    anon_path env t0 (p ++ [i]) (Typ g).

(** [field_path env t0 name p f]: the index path [p] goes through embedded
    fields to the field [f], which declares [name]. *)
Definition field_path (env : Decls) (t0 : type) (name : string) (p : list nat)
    (f : StructField) : Prop :=
  exists q ty n i,
    p = q ++ [i] /\ anon_path env t0 q ty /\ derefType ty = TStruct n /\
    structDecl env n !! i = Some f /\ declares f name.

(** Every queued scan and every entry of the mapping is reached by its
    index path. *)
Definition paths_inv (env : Decls) (t0 : type) (fs : gmap string fieldInfo)
    (scans : list fieldScan) : Prop :=
  (forall sc, sc ∈ scans -> anon_path env t0 (index sc) (typ sc))
  /\ (forall name fi, fs !! name = Some fi ->
        jsonName fi = name /\ exists f, field_path env t0 name (fieldIndex fi) f).

(** A scan of the struct type [X] is waiting in the queue. *)
Definition queued (scans : list fieldScan) (X : string) : Prop :=
  exists sc, sc ∈ scans /\ derefType (typ sc) = TStruct X.

(** The struct types embedded in a type seen so far are seen or waiting. *)
Definition embeds_closed (env : Decls) (visited : gset string)
    (scans : list fieldScan) : Prop :=
  forall Y i g Z, Y ∈ visited -> structDecl env Y !! i = Some g ->
    Anonymous g = true -> derefType (Typ g) = TStruct Z ->
    Z ∈ visited \/ queued scans Z.

(** Breadth first: a struct type embedded at depth [L] or less has been
    seen, or waits at depth [L]. *)
Definition level_reached (env : Decls) (t0 : type) (L : nat) (visited : gset string)
    (scans : list fieldScan) : Prop :=
  forall q ty X, anon_path env t0 q ty -> derefType ty = TStruct X ->
    (length q <= L)%nat ->
    X ∈ visited \/ (length q = L /\ queued scans X).

(** Unless a conflict was recorded, a name declared by a type seen so far
    is resolved, no deeper than any place where the type is embedded. *)
Definition resolved_shallow (env : Decls) (t0 : type) (visited : gset string)
    (s : structFields) : Prop :=
  forall X f n, X ∈ visited -> f ∈ structDecl env X -> declares f n ->
    conflict s <> ""%string \/
    exists fi, fields s !! n = Some fi /\
      forall q ty, anon_path env t0 q ty -> derefType ty = TStruct X ->
                   (length (fieldIndex fi) <= S (length q))%nat.

(** While a level is scanned: the types first seen at this level have
    their embedded fields queued and their declared names resolved, unless
    a conflict was recorded. *)
Definition fresh_ok (env : Decls) (seen : gset string) (b : builder) : Prop :=
  forall Y, Y ∈ visitedTypes b -> Y ∉ seen ->
    (forall i g, structDecl env Y !! i = Some g -> Anonymous g = true ->
       exists sc, sc ∈ nextLevel b /\ typ sc = Typ g)
    /\ (forall f n, f ∈ structDecl env Y -> declares f n ->
          conflict (sf b) <> ""%string \/ is_Some (fields (sf b) !! n)).

(** A record that embeds a pointer to itself. *)
Definition loopDecls : Decls :=
  {[ "Loop"%string :=
       [ {| Name := "Loop"; Typ := TPtr (TStruct "Loop"); Tag := "";
            Anonymous := true; IsExported := true |};
         {| Name := "ID"; Typ := TInt; Tag := "id";
            Anonymous := false; IsExported := true |} ] ]}.

(** The field [f], number [i] of the record [X], declares the name [m],
    and [X] is embedded at depth [L]. *)
Definition declared_at (env : Decls) (t0 : type) (L : nat) (m : string)
    (X : string) (i : nat) (f : StructField) : Prop :=
  exists q ty, anon_path env t0 q ty /\ length q = L /\ derefType ty = TStruct X
               /\ structDecl env X !! i = Some f /\ declares f m.

(** A colliding name: two different fields, of records embedded at the same
    depth, declare it. *)
Definition collision (env : Decls) (t0 : type) (m : string) : Prop :=
  exists L X1 i1 f1 X2 i2 f2,
    (X1, i1) <> (X2, i2)
    /\ declared_at env t0 L m X1 i1 f1 /\ declared_at env t0 L m X2 i2 f2.

(** The conflict recorded in a descriptor, if any, is a colliding name. *)
Definition conflict_real (env : Decls) (t0 : type) (s : structFields) : Prop :=
  conflict s = ""%string \/ collision env t0 (conflict s).

(** While the fields [l] of the record [X] are still to be scanned at depth
    [L]: every name found at this level was declared by a field of a record
    seen before [X] (those of [V]), or by a field of [X] that is not among
    [l]. *)
Definition found_origin (env : Decls) (t0 : type) (L : nat) (V : gset string)
    (X : string) (l : list (nat * StructField)) (b : builder) : Prop :=
  forall m, m ∈ fieldsFoundThisLevel b ->
    exists X1 i1 f1, declared_at env t0 L m X1 i1 f1
                     /\ ((X1 ∈ V /\ X1 <> X) \/ (X1 = X /\ (i1, f1) ∉ l)).

(** Between two scans of a level: every name found at this level was
    declared by a field of a record seen so far. *)
Definition found_declared (env : Decls) (t0 : type) (L : nat) (b : builder) : Prop :=
  forall m, m ∈ fieldsFoundThisLevel b ->
    exists X1 i1 f1, declared_at env t0 L m X1 i1 f1 /\ X1 ∈ visitedTypes b.

(** The records seen before level [L] are embedded at a depth below [L]. *)
Definition visited_sound (env : Decls) (t0 : type) (L : nat) (visited : gset string)
    : Prop :=
  forall X, X ∈ visited ->
    exists q ty, anon_path env t0 q ty /\ derefType ty = TStruct X /\ (length q < L)%nat.

(** What holds each time the outer loop tests its condition, [L] levels
    having been scanned. *)
Definition scan_inv (env : Decls) (t0 : type) (L : nat) (s : structFields)
    (visited : gset string) (cur : list fieldScan) : Prop :=
  desc_inv L s /\ Forall (fun sc => length (index sc) = L) cur
  /\ paths_inv env t0 (fields s) cur
  /\ embeds_closed env visited cur /\ level_reached env t0 L visited cur
  /\ visited_sound env t0 L visited /\ resolved_shallow env t0 visited s.

(** Two records that both declare "name", embedded two levels down. *)
Definition deepConflictDecls : Decls :=
  list_to_map
    [ ("A"%string, [Samples.field "Name" TString "name"]);
      ("B"%string, [Samples.field "Name" TString "name"]);
      ("MidL"%string, [Samples.embedded "A" (TStruct "A")]);
      ("MidR"%string, [Samples.embedded "B" (TPtr (TStruct "B"))]);
      ("Top"%string, [Samples.embedded "MidL" (TStruct "MidL");
                      Samples.embedded "MidR" (TPtr (TStruct "MidR"));
                      Samples.field "ID" TInt "id"]) ].

End FieldMapSpec.

Module WalkerSpec.
Import FieldMap Walker.

(** Reading the slot at an index path, without allocating: [None] when the
    path crosses a nil pointer or leaves the declared fields. *)
Fixpoint fieldByIndex (env : Decls) (t : type) (v : value) (index : list nat)
    : option value :=
  match index with
  | [] => Some v
  | i :: index =>
    let step (t : type) (v : value) :=
      match t with
      | TStruct n =>
        let decl := structDecl env n in
        match decl !! i with
        | Some f =>
          fieldByIndex env (Typ f)
            (default VZero (fieldValues_of (length decl) v !! i)) index
        | None => None
        end
      | _ => None
      end in
    match t with
    | TPtr e =>
      match pointee_of v with
      | Some x => step e x
      | None => None
      end
    | _ => step t v
    end
  end.

(** One step of [getFieldByIndex]: the value after the step (a nil pointer
    has been allocated), and, when the step enters a field, the field's
    type, content and flags and the value with the field replaced. *)
Definition openField (env : Decls) (t : type) (v : value) (fl : flagRO) (i : nat)
    : value * option (type * value * flagRO * (value -> value)) :=
  let step (t : type) (v : value) (wrap : value -> value) :=
    match t with
    | TStruct n =>
      let decl := structDecl env n in
      let fs := fieldValues_of (length decl) v in
      match decl !! i with
      | Some f =>
        (wrap v,
         Some (Typ f, default VZero (fs !! i),
               {| flagStickyRO := flagStickyRO fl
                                  || (negb (IsExported f) && negb (Anonymous f));
                  flagEmbedRO := negb (IsExported f) && Anonymous f |},
               fun x => wrap (VStruct (<[ i := x ]> fs))))
      | None => (wrap v, None)
      end
    | _ => (wrap v, None)
    end in
  match t with
  | TPtr e =>
    match pointee_of v with
    | None => if negb (CanSet fl) then (v, None) else step e VZero VPtr
    | Some x => step e x VPtr
    end
  | _ => step t v id
  end.

(** One step of [fieldByIndex]. *)
Definition readField (env : Decls) (t : type) (v : value) (i : nat)
    : option (type * value) :=
  let step (t : type) (v : value) :=
    match t with
    | TStruct n =>
      let decl := structDecl env n in
      match decl !! i with
      | Some f => Some (Typ f, default VZero (fieldValues_of (length decl) v !! i))
      | None => None
      end
    | _ => None
    end in
  match t with
  | TPtr e =>
    match pointee_of v with
    | Some x => step e x
    | None => None
    end
  | _ => step t v
  end.

(** A slot seen from one level further out. *)
Definition outer (wrap : value -> value) (sl : slot) : slot :=
  {| slotType := slotType sl; slotValue := slotValue sl; slotFlags := slotFlags sl;
     slotSet := fun x => wrap (slotSet sl x) |}.

(** Two index paths that part at some position. *)
Definition diverge (p q : list nat) : Prop :=
  exists c i j r r', i <> j /\ p = c ++ i :: r /\ q = c ++ j :: r'.

(** The static type of the slot at an index path. *)
Fixpoint typeByIndex (env : Decls) (t : type) (index : list nat) : option type :=
  match index with
  | [] => Some t
  | i :: index =>
    let step (t : type) :=
      match t with
      | TStruct n =>
        match structDecl env n !! i with
        | Some f => typeByIndex env (Typ f) index
        | None => None
        end
      | _ => None
      end in
    match t with
    | TPtr e => step e
    | _ => step t
    end
  end.

(** Nothing has been written at the path: it crosses a nil pointer, or the
    slot holds the zero value. *)
Definition unwritten (env : Decls) (t : type) (v : value) (index : list nat) : Prop :=
  fieldByIndex env t v index = None \/ fieldByIndex env t v index = Some VZero.

(** Embedded fields as Go has them in the types decoded here: a struct type
    or a pointer to one, with an exported name. *)
Definition embeds_ok (env : Decls) : Prop :=
  forall T decl f, env !! T = Some decl -> f ∈ decl -> Anonymous f = true ->
    IsExported f = true /\ exists n, Typ f = TStruct n \/ Typ f = TPtr (TStruct n).

(** A type that the walker hands to the fast standard path as it is. *)
Definition plain (t : type) : Prop :=
  match kind t with
  | Ptr | Struct | Slice | Map => False
  | _ => True
  end.

Definition struct_like (t : type) : Prop :=
  exists n, t = TStruct n \/ t = TPtr (TStruct n).

(** The cache holds nothing but descriptors that [buildStructFields] gives. *)
Definition coherent (ro : RangeOrder) (env : Decls) (c : Cache) : Prop :=
  forall t, c t = None \/ c t = Some (buildStructFields ro env t).

(** [miscased ro env impl k' t good bad]: decoded into a slot of type [t],
    the document [bad] is the document [good] with one key of one object
    respelled as [k'], and that object stands where the walker validates
    the keys of a record that does not resolve [k']: it is the document
    itself, or it lies in a member that is a field of a record, in an
    element of a slice of records, or in an entry of a map of records, at
    any depth.  [impl] is [implementsUnmarshaler]. *)
Inductive miscased (ro : RangeOrder) (env : Decls) (impl : type -> bool) (k' : string)
    : type -> json -> json -> Prop :=
| miscased_here t R pre post k x :
    impl (TPtr t) = false ->
    derefType t = TStruct R ->
    conflict (buildStructFields ro env (TStruct R)) = ""%string ->
    (forall key, key ∈ (pre ++ (k, x) :: post).*1 ->
                 is_Some (fields (buildStructFields ro env (TStruct R)) !! key)) ->
    fields (buildStructFields ro env (TStruct R)) !! k' = None ->
    miscased ro env impl k' t (JObject (pre ++ (k, x) :: post))
                              (JObject (pre ++ (k', x) :: post))
| miscased_field t R pre post kf xg xb fi tf :
    impl (TPtr t) = false ->
    derefType t = TStruct R ->
    conflict (buildStructFields ro env (TStruct R)) = ""%string ->
    (forall key, key ∈ (pre ++ (kf, xg) :: post).*1 ->
                 is_Some (fields (buildStructFields ro env (TStruct R)) !! key)) ->
    kf ∉ post.*1 ->
    fields (buildStructFields ro env (TStruct R)) !! kf = Some fi ->
    typeByIndex env (TStruct R) (fieldIndex fi) = Some tf ->
    miscased ro env impl k' tf xg xb ->
    miscased ro env impl k' t (JObject (pre ++ (kf, xg) :: post))
                              (JObject (pre ++ (kf, xb) :: post))
| miscased_elem t e pre post xg xb :
    impl (TPtr t) = false ->
    derefType t = TSlice e ->
    containsStruct impl e = true ->
    miscased ro env impl k' e xg xb ->
    miscased ro env impl k' t (JArray (pre ++ xg :: post)) (JArray (pre ++ xb :: post))
| miscased_entry t e pre post km xg xb :
    impl (TPtr t) = false ->
    derefType t = TMap e ->
    containsStruct impl e = true ->
    km ∉ post.*1 ->
    miscased ro env impl k' e xg xb ->
    miscased ro env impl k' t (JObject (pre ++ (km, xg) :: post))
                              (JObject (pre ++ (km, xb) :: post)).

(** Two descriptors with the same mapping and the same recorded conflict;
    the order of their name lists may differ. *)
Definition same_map (s1 s2 : structFields) : Prop :=
  fields s1 = fields s2 /\ conflict s1 = conflict s2.

(** Two builders that differ in the name lists of their descriptors at
    most. *)
Definition same_builder (b1 b2 : builder) : Prop :=
  same_map (sf b1) (sf b2) /\ nextLevel b1 = nextLevel b2
  /\ visitedTypes b1 = visitedTypes b2
  /\ fieldsFoundThisLevel b1 = fieldsFoundThisLevel b2.

(** The cache holds nothing but descriptors that [buildStructFields] gave
    at some time, each under the order in which its own map ranges went. *)
Definition built (env : Decls) (c : Cache) : Prop :=
  forall t, c t = None \/ exists ro', c t = Some (buildStructFields ro' env t).

(** Two errors that are the same, or, when [exact] is off, two
    unknown-field errors for the same key with suggestions of their own. *)
Definition same_failure (exact : bool) (e1 e2 : option error) : Prop :=
  e1 = e2
  \/ (exact = false
      /\ exists k s1 s2, e1 = Some (unknownFieldError k s1)
                         /\ e2 = Some (unknownFieldError k s2)).

(** Two outcomes with the same target and the same error up to the
    suggestion, the caches of both holding built descriptors. *)
Definition alike (env : Decls) (exact : bool) (o1 o2 : outcome) : Prop :=
  same_failure exact (err o1) (err o2) /\ target o1 = target o2
  /\ built env (cache o1) /\ built env (cache o2).

(** [v.MapIndex(key)]: the element stored under a key. *)
Fixpoint MapIndex (entries : list (string * value)) (key : string) : option value :=
  match entries with
  | [] => None
  | (k, x) :: entries => if decide (k = key) then Some x else MapIndex entries key
  end.

(** The entries of a map value; a nil map has none. *)
Definition entries_of (v : value) : list (string * value) :=
  match v with VMap entries => entries | _ => [] end.

(** The type at the bottom of the pointers, slices, arrays and maps of a
    type. *)
Fixpoint elemCore (t : type) : type :=
  match t with
  | TPtr e | TSlice e | TArray _ e | TMap e => elemCore e
  | _ => t
  end.

(** [type inner struct { ID int `json:"id"` }] and
    [type Holder struct { *inner; Name string `json:"name"` }]: a record
    that embeds a pointer to an unexported record. *)
Definition hiddenDecls : Decls :=
  list_to_map
    [ ("inner"%string,
       [ {| Name := "ID"; Typ := TInt; Tag := "id";
            Anonymous := false; IsExported := true |} ]);
      ("Holder"%string,
       [ {| Name := "inner"; Typ := TPtr (TStruct "inner"); Tag := "";
            Anonymous := true; IsExported := false |};
         {| Name := "Name"; Typ := TString; Tag := "name";
            Anonymous := false; IsExported := true |} ]) ].

(** [type PtrHolder struct { *Base; Keep string `json:"keep"` }], next to the
    types of the tests: a record that embeds a pointer to an exported
    record. *)
Definition pointerEmbedDecls : Decls :=
  <[ "PtrHolder"%string :=
       [ Samples.embedded "Base" (TPtr (TStruct "Base"));
         Samples.field "Keep" TString "keep" ] ]> Samples.testDecls.

(** The embedded fields of the records that [t0] reaches through embedded
    fields are as Go has them in the types decoded here: a struct type or
    a pointer to one, with an exported name. *)
Definition embeds_ok_from (env : Decls) (t0 : type) : Prop :=
  forall q ty X f, FieldMapSpec.anon_path env t0 q ty -> derefType ty = TStruct X ->
    f ∈ structDecl env X -> Anonymous f = true ->
    IsExported f = true /\ exists n, Typ f = TStruct n \/ Typ f = TPtr (TStruct n).

(** A slot type and a document that the walker hands to the standard
    decoder in one piece: the type has a decoder of its own, or it is a
    plain type, or a slice or a map that holds no record to validate. *)
Definition handed_over (impl : type -> bool) (t : type) (x : json) : Prop :=
  x <> JNull
  /\ (impl (TPtr t) = true
      \/ (impl (TPtr t) = false
          /\ (plain t
              \/ (exists e elems,
                    t = TSlice e /\ containsStruct impl e = false /\ x = JArray elems)
              \/ (exists e members,
                    t = TMap e /\ containsStruct impl e = false
                    /\ x = JObject members)))).

(** [accepted ro env impl ju t x]: for a fresh slot of type [t], the keys
    of the document [x] are exact at every level and its values are
    decodable.  That is: [x] is [null]; or it goes to the standard decoder
    [ju] in one piece and that decoder accepts it; or the slot is a pointer
    and [x] is accepted for what it points to; or the slot is a record
    without conflict, [x] is an object, each of its keys is the external
    name of a field, and the member is accepted for that field; or the slot
    is a slice or a map of records and the elements or entries of [x] are
    accepted for its element type. *)
Inductive accepted (ro : RangeOrder) (env : Decls) (impl : type -> bool)
    (ju : json -> type -> value -> option error * value) : type -> json -> Prop :=
| accepted_null t : accepted ro env impl ju t JNull
| accepted_handed_over t x :
    handed_over impl t x -> (ju x t VZero).1 = None -> accepted ro env impl ju t x
| accepted_pointer e x :
    x <> JNull -> impl (TPtr (TPtr e)) = false -> impl (TPtr e) = false ->
    accepted ro env impl ju e x -> accepted ro env impl ju (TPtr e) x
| accepted_record R members :
    impl (TPtr (TStruct R)) = false ->
    embeds_ok_from env (TStruct R) ->
    conflict (buildStructFields ro env (TStruct R)) = ""%string ->
    (forall k x, default ∅ (rawObject (JObject members)) !! k = Some x ->
       exists fi ty,
         fields (buildStructFields ro env (TStruct R)) !! k = Some fi
         /\ typeByIndex env (TStruct R) (fieldIndex fi) = Some ty
         /\ accepted ro env impl ju ty x) ->
    accepted ro env impl ju (TStruct R) (JObject members)
| accepted_slice e elems :
    impl (TPtr (TSlice e)) = false -> containsStruct impl e = true ->
    (forall x, x ∈ elems -> accepted ro env impl ju e x) ->
    accepted ro env impl ju (TSlice e) (JArray elems)
| accepted_map e members :
    impl (TPtr (TMap e)) = false -> containsStruct impl e = true ->
    (forall k x, default ∅ (rawObject (JObject members)) !! k = Some x ->
       accepted ro env impl ju e x) ->
    accepted ro env impl ju (TMap e) (JObject members).

End WalkerSpec.

(** * Proofs: diagnostics *)

Module EditDistanceFacts.
Import EditDistance.

Lemma lev_nil_r a : lev a [] = length a.
Proof. by destruct a. Qed.

Lemma lev_cons x a y b :
  lev (x :: a) (y :: b) =
  Nat.min (S (lev a (y :: b))) (Nat.min (S (lev (x :: a) b)) (subst_cost x y + lev a b)).
Proof. reflexivity. Qed.

(** [lev] is the cost of some edit script ... *)
Lemma lev_edit a b : edit a b (lev a b).
Proof.
  induction a as [|x a IHa] in b |- *.
  - induction b as [|y b IHb]; [constructor|]. simpl in *. by constructor.
  - induction b as [|y b IHb].
    + rewrite lev_nil_r. simpl. constructor. specialize (IHa []).
      by rewrite lev_nil_r in IHa.
    + rewrite lev_cons.
      destruct (Nat.min_spec (S (lev a (y :: b)))
                  (Nat.min (S (lev (x :: a) b)) (subst_cost x y + lev a b)))
        as [[_ ->]|[_ ->]]; [by constructor|].
      destruct (Nat.min_spec (S (lev (x :: a) b)) (subst_cost x y + lev a b))
        as [[_ ->]|[_ ->]]; by constructor.
Qed.

(** ... and no edit script is cheaper. *)
Lemma lev_le a b n : edit a b n -> (lev a b <= n)%nat.
Proof.
  induction 1 as [|x a b n _ IH|y a b n _ IH|x y a b n _ IH].
  - done.
  - destruct b as [|y b]; [rewrite lev_nil_r in *; simpl; lia|].
    rewrite lev_cons. lia.
  - destruct a as [|x a]; [simpl in *; lia|].
    rewrite lev_cons. lia.
  - rewrite lev_cons. lia.
Qed.

Lemma edit_app a b n a' b' m :
  edit a b n -> edit a' b' m -> edit (a ++ a') (b ++ b') (n + m).
Proof.
  induction 1; intros He; simpl.
  - done.
  - constructor; auto.
  - constructor; auto.
  - rewrite <- Nat.add_assoc. constructor; auto.
Qed.

Lemma edit_rev a b n : edit a b n -> edit (rev a) (rev b) n.
Proof.
  induction 1 as [|x a b n _ IH|y a b n _ IH|x y a b n _ IH]; simpl.
  - constructor.
  - replace (S n) with (n + 1)%nat by lia. rewrite <- (app_nil_r (rev b)).
    apply edit_app; [done|]. repeat constructor.
  - replace (S n) with (n + 1)%nat by lia. rewrite <- (app_nil_r (rev a)).
    apply edit_app; [done|]. repeat constructor.
  - rewrite Nat.add_comm. apply edit_app; [done|].
    replace (subst_cost x y) with (subst_cost x y + 0)%nat by lia.
    repeat constructor.
Qed.

Lemma lev_rev a b : lev (rev a) (rev b) = lev a b.
Proof.
  apply Nat.le_antisymm.
  - apply lev_le, edit_rev, lev_edit.
  - apply lev_le. rewrite <- (rev_involutive a), <- (rev_involutive b) at 1.
    apply edit_rev, lev_edit.
Qed.

(** The distance is at most the two lengths together, so the entries of the
    table stay far inside the range of Go's [int]. *)
Lemma lev_upper a b : (lev a b <= length a + length b)%nat.
Proof.
  apply lev_le.
  assert (forall l, edit l [] (length l)) as Hdel.
  { induction l; simpl; by constructor. }
  assert (forall l, edit [] l (length l)) as Hins.
  { induction l; simpl; by constructor. }
  rewrite <- (app_nil_r a) at 1. rewrite <- (app_nil_l b) at 1. by apply edit_app.
Qed.

(** The recurrence read on prefixes, the way the two-row table is filled. *)
Lemma lev_snoc a x b y :
  lev (a ++ [x]) (b ++ [y]) =
  Nat.min (S (lev a (b ++ [y])))
          (Nat.min (S (lev (a ++ [x]) b)) (subst_cost x y + lev a b)).
Proof.
  rewrite <- (lev_rev (a ++ [x]) (b ++ [y])), <- (lev_rev a (b ++ [y])),
    <- (lev_rev (a ++ [x]) b), <- (lev_rev a b), !rev_app_distr.
  cbn [rev app]. by rewrite lev_cons.
Qed.

End EditDistanceFacts.

Module LevenshteinTable.
Import EditDistance EditDistanceFacts Diagnostics TableSpec.

Lemma minOfThree_min a b c : minOfThree a b c = Z.min a (Z.min b c).
Proof.
  unfold minOfThree.
  destruct (Z.ltb_spec a b), (Z.ltb_spec a c), (Z.ltb_spec b c); lia.
Qed.

Section Table.
Variables b1 b2 : list ascii.

Local Abbreviation entry := (TableSpec.entry b1 b2).
Local Abbreviation is_row := (TableSpec.is_row b1 b2).

Lemma entry_0_l j : (j <= length b2)%nat -> entry 0 j = Z.of_nat j.
Proof. intros. unfold TableSpec.entry. rewrite take_0. simpl. by rewrite length_take_le. Qed.

Lemma entry_0_r i : (i <= length b1)%nat -> entry i 0 = Z.of_nat i.
Proof. intros. unfold TableSpec.entry. by rewrite take_0, lev_nil_r, length_take_le. Qed.

Lemma entry_S_S i j :
  (i < length b1)%nat -> (j < length b2)%nat ->
  entry (S i) (S j) =
  Z.min (entry i (S j) + 1)
    (Z.min (entry (S i) j + 1)
       (entry i j + (if decide (byte_at b1 i ≠ byte_at b2 j) then 1 else 0))).
Proof.
  intros Hi Hj. unfold TableSpec.entry, byte_at.
  destruct (lookup_lt_is_Some_2 b1 i Hi) as [x Hx].
  destruct (lookup_lt_is_Some_2 b2 j Hj) as [y Hy].
  rewrite Hx, Hy. simpl.
  rewrite (take_S_r b1 i x Hx), (take_S_r b2 j y Hy), lev_snoc.
  rewrite <- (take_S_r b1 i x Hx), <- (take_S_r b2 j y Hy).
  unfold subst_cost. repeat case_decide; try congruence; lia.
Qed.

(** The first loop, [prev[j] = j]. *)
Lemma init_row_spec k (l : list Z) :
  (k <= length l)%nat ->
  let r := foldl (fun p j => <[ j := Z.of_nat j ]> p) l (seq 0 k) in
  length r = length l /\ forall j, (j < k)%nat -> r !! j = Some (Z.of_nat j).
Proof.
  induction k as [|k IH]; intros Hk; cbv zeta.
  - split; [done|lia].
  - rewrite seq_S, foldl_app. simpl. destruct IH as [Hlen Hget]; [lia|].
    split; [by rewrite length_insert|].
    intros j Hj. destruct (decide (j = k)) as [->|Hne].
    + apply list_lookup_insert_eq. lia.
    + rewrite list_lookup_insert_ne by done. apply Hget. lia.
Qed.

(** The inner loop fills row [S i] from row [i], left to right. *)
Lemma cells_spec i prev curr k :
  (i < length b1)%nat -> is_row i prev ->
  length curr = S (length b2) -> curr !! 0%nat = Some (entry (S i) 0) ->
  (k <= length b2)%nat ->
  let r := foldl (levenshtein_cell b1 b2 (S i) prev) curr (seq 1 k) in
  length r = S (length b2) /\
  forall j, (j <= k)%nat -> r !! j = Some (entry (S i) j).
Proof.
  intros Hi [Hplen Hprev] Hclen Hc0.
  induction k as [|k IH]; intros Hk; cbv zeta.
  - split; [done|]. intros j Hj. by replace j with 0%nat by lia.
  - rewrite seq_S, foldl_app. simpl. destruct IH as [Hlen Hget]; [lia|].
    set (c := foldl _ _ (seq 1 k)) in *. unfold levenshtein_cell.
    split; [by rewrite length_insert|].
    intros j Hj. destruct (decide (j = S k)) as [->|Hne].
    + rewrite list_lookup_insert_eq by lia. f_equal.
      rewrite minOfThree_min. unfold int_at.
      replace (S k - 1)%nat with k by lia. replace (S i - 1)%nat with i by lia.
      rewrite (Hprev (S k)), (Hprev k), (Hget k) by lia. simpl.
      rewrite entry_S_S by lia. done.
    + rewrite list_lookup_insert_ne by done. apply Hget. lia.
Qed.

Lemma rows_spec prev curr k :
  is_row 0 prev -> length curr = S (length b2) -> (k <= length b1)%nat ->
  let r := foldl (levenshtein_row b1 b2) (prev, curr) (seq 1 k) in
  is_row k r.1 /\ length r.2 = S (length b2).
Proof.
  intros Hrow0 Hclen.
  induction k as [|k IH]; intros Hk; cbv zeta.
  - done.
  - rewrite seq_S, foldl_app. simpl. destruct IH as [Hrow Hlen]; [lia|].
    destruct (foldl _ _ (seq 1 k)) as [p c]. simpl in *.
    split; [|apply Hrow].
    apply (cells_spec k p (<[0%nat:=Z.of_nat (S k)]> c) (length b2)); try done.
    + by rewrite length_insert.
    + rewrite list_lookup_insert_eq by lia. by rewrite entry_0_r.
Qed.
End Table.

(** The two-row table of the source computes the classic edit distance of
    the two byte sequences. *)
Lemma levenshteinDistance_lev s1 s2 :
  levenshteinDistance s1 s2 = Z.of_nat (lev (bytes s1) (bytes s2)).
Proof.
  unfold levenshteinDistance, len.
  case_decide as H1.
  { destruct (bytes s1); [done|simpl in *; lia]. }
  case_decide as H2.
  { destruct (bytes s2); [by rewrite lev_nil_r|simpl in *; lia]. }
  set (b1 := bytes s1) in *. set (b2 := bytes s2) in *.
  pose proof (init_row_spec (length b2 + 1) (replicate (length b2 + 1) 0)) as Hinit.
  rewrite length_replicate in Hinit. destruct Hinit as [Hl0 Hg0]; [lia|].
  set (prev0 := foldl _ _ (seq 0 (length b2 + 1))) in *.
  assert (TableSpec.is_row b1 b2 0 prev0) as Hrow0.
  { split; [lia|]. intros j Hj. rewrite Hg0 by lia. by rewrite entry_0_l. }
  pose proof (rows_spec b1 b2 prev0 (replicate (length b2 + 1) 0) (length b1) Hrow0)
    as Hrows.
  rewrite length_replicate in Hrows.
  destruct Hrows as [[_ Hrow] _]; [lia|lia|].
  destruct (foldl _ _ (seq 1 (length b1))) as [p c]. simpl in *.
  unfold int_at. rewrite Hrow by lia. simpl. unfold TableSpec.entry.
  by rewrite !firstn_all.
Qed.

End LevenshteinTable.

(** * Proofs: bytes and characters *)

Module RuneFacts.
Import Diagnostics EditDistance RuneSpec.

Lemma distance_cons {A : Type} `{EqDecision A} (x y : A) (a b : list A) :
  distance (x :: a) (y :: b)
  = Nat.min (S (distance a (y :: b)))
            (Nat.min (S (distance (x :: a) b))
                     ((if decide (x = y) then 0 else 1) + distance a b)).
Proof. done. Qed.

Lemma distance_nil_r {A : Type} `{EqDecision A} (a : list A) : distance a [] = length a.
Proof. by destruct a. Qed.

(** On bytes, [distance] is the distance of the edit scripts. *)
Lemma distance_bytes (a b : list ascii) : distance a b = lev a b.
Proof.
  revert b. induction a as [|x a IHa]; intros b; [done|].
  induction b as [|y b IHb]; [done|].
  rewrite distance_cons, EditDistanceFacts.lev_cons, IHb, !IHa. done.
Qed.

Lemma distance_fmap {A B : Type} `{EqDecision A} `{EqDecision B} (f : A -> B)
    (a b : list A) :
  Inj (=) (=) f -> distance (f <$> a) (f <$> b) = distance a b.
Proof.
  intros Hf. revert b. induction a as [|x a IHa]; intros b.
  { simpl. by rewrite length_fmap. }
  induction b as [|y b IHb].
  { simpl. by rewrite length_fmap. }
  rewrite !fmap_cons, !distance_cons.
  rewrite <- !fmap_cons, IHb, !IHa.
  destruct (decide (x = y)) as [->|Hne].
  - by rewrite decide_True.
  - rewrite decide_False; [done|]. intros Heq. by apply Hne, Hf.
Qed.

(** Text without continuation bytes, ASCII text for one, has one byte for
    each character. *)
Lemma runes_single (b : list ascii) :
  Forall (fun c => continuation c = false) b -> runes b = (fun c => [c]) <$> b.
Proof.
  induction 1 as [|c rest Hc Hrest IH]; [done|].
  cbn [runes]. destruct Hrest as [|c2 rest' Hc2 Hrest']; [done|].
  rewrite Hc2. by rewrite IH.
Qed.

(** For keys without multi-byte characters, the distance that the source
    computes is the distance in characters. *)
Lemma levenshteinDistance_characters (s1 s2 : string) :
  Forall (fun c => continuation c = false) (bytes s1) ->
  Forall (fun c => continuation c = false) (bytes s2) ->
  levenshteinDistance s1 s2
  = Z.of_nat (distance (runes (bytes s1)) (runes (bytes s2))).
Proof.
  intros H1 H2. rewrite LevenshteinTable.levenshteinDistance_lev.
  rewrite (runes_single _ H1), (runes_single _ H2).
  rewrite distance_fmap; [by rewrite distance_bytes|].
  by intros x y [= ->].
Qed.

(** C4, as stated, fails.  The unknown key U+65E5 against the known name
    U+4E00, each one character of three bytes: they differ by the
    substitution of one character, the source counts three bytes that
    differ, and no suggestion is made. *)
Lemma character_distance_not_suggested :
  let unknown := utf8 [230; 151; 165]%nat in
  let name := utf8 [228; 184; 128]%nat in
  distance (runes (bytes unknown)) (runes (bytes name)) = 1%nat
  /\ levenshteinDistance unknown name = 3
  /\ Samples.asciiToLower name <> Samples.asciiToLower unknown
  /\ findSuggestion Samples.asciiToLower unknown [name] = ""%string.
Proof. by vm_compute. Qed.

End RuneFacts.

(** * Proofs: suggestions *)

Module DiagnosticsFacts.
Import EditDistance Diagnostics FieldMap Walker RuneSpec.

Lemma find_first {A} (P : A -> bool) (pre : list A) (x : A) (post : list A) :
  P x = true -> (forall y, y ∈ pre -> P y = false) ->
  find P (pre ++ x :: post) = Some x.
Proof.
  intros Hx Hpre. induction pre as [|y pre IH]; simpl.
  - by rewrite Hx.
  - rewrite (Hpre y) by by left. apply IH. intros z Hz. apply Hpre. by right.
Qed.

Lemma find_none {A} (P : A -> bool) (l : list A) :
  (forall y, y ∈ l -> P y = false) -> find P l = None.
Proof.
  intros Hl. induction l as [|y l IH]; simpl; [done|].
  rewrite (Hl y) by by left. apply IH. intros z Hz. apply Hl. by right.
Qed.

Lemma distance_le_2 unknown name :
  (levenshteinDistance unknown name <=? 2) = true <->
  (lev (bytes unknown) (bytes name) <= 2)%nat.
Proof. rewrite LevenshteinTable.levenshteinDistance_lev, Z.leb_le. lia. Qed.

Lemma distance_gt_2 unknown name :
  (levenshteinDistance unknown name <=? 2) = false <->
  ~ (lev (bytes unknown) (bytes name) <= 2)%nat.
Proof. rewrite LevenshteinTable.levenshteinDistance_lev, Z.leb_gt. lia. Qed.

(** C4, as the code has it.  [findSuggestion] returns the first known name
    equal to the unknown key ignoring case; failing that, the first known
    name (in the order of the list it is given, the descriptor's all-names
    list) whose classic edit distance from the unknown key, counted on the
    bytes of the two Go strings with unit-cost insertion, deletion and
    substitution, is at most 2; failing that, the empty string, the
    source's "no suggestion".  It is a function of its two arguments, and
    [unmarshalStruct] consults it only under [SuggestClosest]: with the
    switch off, the unknown-field error of the key check carries the empty
    suggestion.  Between two keys without multi-byte characters, the
    distance counted on bytes is the distance counted on characters. *)
Theorem findSuggestion_two_phase (ToLower : string -> string) (unknown : string)
    (knownNames : list string) :
  let sameIgnoringCase name := ToLower name = ToLower unknown in
  let close name := (lev (bytes unknown) (bytes name) <= 2)%nat in
  (forall pre name post,
      knownNames = pre ++ name :: post ->
      sameIgnoringCase name ->
      (forall n, n ∈ pre -> ~ sameIgnoringCase n) ->
      findSuggestion ToLower unknown knownNames = name)
  /\ (forall pre name post,
      (forall n, n ∈ knownNames -> ~ sameIgnoringCase n) ->
      knownNames = pre ++ name :: post ->
      close name ->
      (forall n, n ∈ pre -> ~ close n) ->
      findSuggestion ToLower unknown knownNames = name)
  /\ ((forall n, n ∈ knownNames -> ~ sameIgnoringCase n /\ ~ close n) ->
      findSuggestion ToLower unknown knownNames = ""%string)
  /\ (forall ro env d rec data t v c raw s c',
      SuggestClosest d = false ->
      DisallowUnknownFields d = true ->
      rawObject data = Some raw ->
      getStructFields ro env c t = (inr s, c') ->
      find (fun k => bool_decide (fields s !! k = None)) (ro (elements (dom raw)))
        = Some unknown ->
      err (unmarshalStruct ro env ToLower d rec data t v c)
        = Some (unknownFieldError unknown ""))
  /\ (forall name,
      Forall (fun c => continuation c = false) (bytes unknown) ->
      Forall (fun c => continuation c = false) (bytes name) ->
      lev (bytes unknown) (bytes name)
      = distance (runes (bytes unknown)) (runes (bytes name))).
Proof.
  intros sameIgnoringCase close. unfold findSuggestion.
  split; [|split; [|split; [|split]]].
  - intros pre name post -> Hname Hpre.
    rewrite find_first; [done|by apply bool_decide_eq_true|].
    intros y Hy. apply bool_decide_eq_false. by apply Hpre.
  - intros pre name post Hcase -> Hname Hpre.
    rewrite find_none.
    2:{ intros y Hy. apply bool_decide_eq_false. by apply Hcase. }
    rewrite find_first; [done|by apply distance_le_2|].
    intros y Hy. apply distance_gt_2. by apply Hpre.
  - intros Hnone.
    rewrite find_none.
    2:{ intros y Hy. apply bool_decide_eq_false. by apply Hnone. }
    rewrite find_none; [done|].
    intros y Hy. apply distance_gt_2. by apply Hnone.
  - intros ro env d rec data t v c raw s c' Hoff Hon Hraw Hsf Hfind.
    unfold unmarshalStruct. by rewrite Hraw, Hsf, Hon, Hfind, Hoff.
  - intros name H1 H2. apply Nat2Z.inj.
    rewrite <- LevenshteinTable.levenshteinDistance_lev.
    by apply RuneFacts.levenshteinDistance_characters.
Qed.

Lemma findSuggestion_two_phase_witness :
  findSuggestion Samples.asciiToLower "Name" ["name"; "age"]%string = "name"%string
  /\ findSuggestion Samples.asciiToLower "nmae" ["age"; "name"]%string = "name"%string
  /\ findSuggestion Samples.asciiToLower "zzzzzz" ["name"; "age"]%string = ""%string
  /\ err (unmarshalStruct Samples.keepOrder Samples.testDecls Samples.asciiToLower
            (NewDecoder []) (fun _ _ v c => {| err := None; target := v; cache := c |})
            (JObject [("NAME"%string, JString "John")]) (TStruct "Person") VZero emptyCache)
     = Some (unknownFieldError "NAME" "").
Proof.
  split; [|split; [|split]].
  - apply (proj1 (findSuggestion_two_phase Samples.asciiToLower "Name"
                    ["name"; "age"]%string) [] "name"%string ["age"%string]).
    + reflexivity.
    + reflexivity.
    + intros n Hn. inversion Hn.
  - apply (proj1 (proj2 (findSuggestion_two_phase Samples.asciiToLower "nmae"
                           ["age"; "name"]%string)) ["age"%string] "name"%string []).
    + intros n Hn. apply list_elem_of_In in Hn.
      destruct Hn as [<-|[<-|[]]]; vm_compute; discriminate.
    + reflexivity.
    + vm_compute. lia.
    + intros n Hn. apply list_elem_of_In in Hn.
      destruct Hn as [<-|[]]. vm_compute. lia.
  - apply (proj1 (proj2 (proj2 (findSuggestion_two_phase Samples.asciiToLower "zzzzzz"
                                  ["name"; "age"]%string)))).
    intros n Hn. apply list_elem_of_In in Hn.
    destruct Hn as [<-|[<-|[]]]; (split; [vm_compute; discriminate|vm_compute; lia]).
  - eapply (proj1 (proj2 (proj2 (proj2 (findSuggestion_two_phase Samples.asciiToLower
                                          "NAME" [])))));
      [reflexivity|reflexivity|reflexivity|reflexivity|vm_compute; reflexivity].
Defined.

End DiagnosticsFacts.

(** * Proofs: field map builder *)

Module FieldMapFacts.
Import FieldMap FieldMapSpec.

Section Visited.
Variable env : Decls.

Lemma scanField_visited scan b i f :
  visitedTypes (scanField scan b i f) = visitedTypes b.
Proof. unfold scanField. repeat (case_match || case_decide); done. Qed.

Lemma scanFields_visited scan (l : list (nat * StructField)) b :
  visitedTypes (foldl (fun b '(i, f) => scanField scan b i f) b l) = visitedTypes b.
Proof.
  induction l as [|[i f] l IH] in b |- *; simpl; [done|].
  by rewrite IH, scanField_visited.
Qed.

(** A field is queued for the next level only by [scanField]. *)
Lemma scanFields_nextLevel_nil scan (l : list (nat * StructField)) b :
  l = [] -> nextLevel (foldl (fun b '(i, f) => scanField scan b i f) b l) = nextLevel b.
Proof. by intros ->. Qed.

Lemma scanType_visited_cases b scan :
  (scanType env b scan = b) \/
  (exists n, derefType (typ scan) = TStruct n /\ (n ∉ visitedTypes b) /\
             visitedTypes (scanType env b scan) = {[ n ]} ∪ visitedTypes b).
Proof.
  unfold scanType. destruct (derefType (typ scan)) eqn:Ht; auto.
  case_decide; auto. right. eexists. split; [done|]. split; [done|].
  by rewrite scanFields_visited.
Qed.

Lemma scanType_skip b scan n :
  derefType (typ scan) = TStruct n -> n ∈ visitedTypes b -> scanType env b scan = b.
Proof. intros Ht Hn. unfold scanType. rewrite Ht. by rewrite decide_True. Qed.

Lemma scanType_marks b scan n :
  derefType (typ scan) = TStruct n -> n ∈ visitedTypes (scanType env b scan).
Proof.
  intros Ht. unfold scanType. rewrite Ht. case_decide; [done|].
  rewrite scanFields_visited. simpl. set_solver.
Qed.

Lemma scanType_visited_mono b scan :
  visitedTypes b ⊆ visitedTypes (scanType env b scan).
Proof.
  destruct (scanType_visited_cases b scan) as [->|(n & _ & _ & ->)]; set_solver.
Qed.

Lemma scanTypes_visited_mono b scans :
  visitedTypes b ⊆ visitedTypes (foldl (scanType env) b scans).
Proof.
  induction scans as [|scan scans IH] in b |- *; simpl; [done|].
  etrans; [apply scanType_visited_mono|apply IH].
Qed.

Lemma scanLevel_visited_mono ro s visited cur :
  visited ⊆ (scanLevel ro env s visited cur).1.2.
Proof. unfold scanLevel. simpl. apply (scanTypes_visited_mono (Build_builder _ _ _ _)). Qed.

(** A type without declared fields queues nothing. *)
Lemma scanType_next_cases b scan :
  nextLevel (scanType env b scan) = nextLevel b \/
  (exists n, n ∈ dom env /\ (n ∉ visitedTypes b) /\
             n ∈ visitedTypes (scanType env b scan)).
Proof.
  destruct (scanType_visited_cases b scan) as [->|(n & Ht & Hn & Hv)]; [by left|].
  destruct (env !! n) as [decl|] eqn:Hdecl.
  - right. exists n. split; [by apply elem_of_dom|]. split; [done|].
    rewrite Hv. by apply elem_of_union_l, elem_of_singleton.
  - left. unfold scanType. rewrite Ht. rewrite decide_False by done.
    unfold structDecl. by rewrite Hdecl.
Qed.

Lemma scanTypes_next b scans :
  nextLevel b = [] ->
  let b' := foldl (scanType env) b scans in
  nextLevel b' = [] \/
  (exists n, n ∈ dom env /\ (n ∉ visitedTypes b) /\ n ∈ visitedTypes b').
Proof.
  induction scans as [|scan scans IH] using rev_ind; intros Hnil; cbv zeta.
  - by left.
  - rewrite foldl_app. simpl. destruct (IH Hnil) as [Hn|(n & ? & ? & ?)].
    + destruct (scanType_next_cases (foldl (scanType env) b scans) scan)
        as [->|(n & ? & Hnot & ?)]; [by left|].
      right. exists n. split; [done|]. split; [|done].
      intros Hin. apply Hnot. by apply scanTypes_visited_mono.
    + right. exists n. split; [done|]. split; [done|].
      by apply scanType_visited_mono.
Qed.

(** The outer loop ends: a turn that queues a next level marks a declared
    type that was not marked before. *)
Lemma scanLevels_step fuel ro s visited cur :
  cur ≠ [] ->
  scanLevels (S fuel) ro env s visited cur =
  let b := foldl (scanType env) (Build_builder s [] visited ∅) cur in
  scanLevels fuel ro env (recordNames ro (fieldsFoundThisLevel b) (sf b))
             (visitedTypes b) (nextLevel b).
Proof. by destruct cur. Qed.

Lemma scanLevels_total fuel ro s visited cur :
  (size (dom env ∖ visited) < fuel)%nat ->
  is_Some (scanLevels fuel ro env s visited cur).
Proof.
  induction fuel as [|fuel IH] in s, visited, cur |- *; intros Hfuel; [lia|].
  destruct (decide (cur = [])) as [->|Hcur]; [by eexists|].
  rewrite scanLevels_step by done. cbv zeta.
  set (b0 := Build_builder s [] visited ∅).
  destruct (scanTypes_next b0 cur eq_refl) as [Hnil|(n & Hdom & Hnot & Hin)].
  - rewrite Hnil. destruct fuel; by eexists.
  - apply IH.
    pose proof (scanTypes_visited_mono b0 cur) as Hmono.
    assert (dom env ∖ visitedTypes (foldl (scanType env) b0 cur)
              ⊂ dom env ∖ visited) as Hsub.
    { split; [set_solver|]. intros Hsup.
      assert (n ∈ dom env ∖ visited) as Hn by set_solver.
      apply Hsup in Hn. set_solver. }
    apply subset_size in Hsub. lia.
Qed.

Lemma buildStructFields_total ro t :
  buildStructFields_opt ro env t = Some (buildStructFields ro env t).
Proof.
  unfold buildStructFields.
  destruct (scanLevels_total (buildFuel env) ro emptyStructFields ∅
              [{| typ := t; index := [] |}]) as [r Hr].
  - unfold buildFuel. rewrite difference_empty_L, size_dom. lia.
  - unfold buildStructFields_opt. by rewrite Hr.
Qed.
End Visited.

Section Levels.
Variable env : Decls.

Lemma scanField_inv L s0 scan b i f :
  length (index scan) = L -> level_inv L s0 b ->
  level_inv L s0 (scanField scan b i f).
Proof.
  intros Hlen [Hnames Hold Hfresh Hdepth Hnext]. unfold scanField.
  destruct (Anonymous f).
  { split; simpl; try done.
    apply Forall_app. split; [done|]. constructor; [|done]. simpl.
    rewrite length_app. simpl. lia. }
  destruct (IsExported f); simpl; [|done].
  case_decide; [done|].
  set (name := if decide ((parseTag (Tag f)).1 = ""%string) then Name f
               else (parseTag (Tag f)).1).
  case_decide as Hfound.
  { split; simpl; try done.
    - intros n Hn. rewrite lookup_delete_ne by (intros ->; done). by apply Hold.
    - intros n fi Hn. destruct (decide (n = name)) as [->|Hne].
      + by rewrite lookup_delete_eq.
      + rewrite lookup_delete_ne by done. by apply Hdepth. }
  case_decide as Hexists; [done|].
  assert (fields (sf b) !! name = None) as Hnone.
  { destruct (fields (sf b) !! name) eqn:E; [|done]. exfalso. by apply Hexists. }
  split; simpl; try done.
  - intros n Hn. rewrite lookup_insert_ne by set_solver. apply Hold. set_solver.
  - intros n Hn. apply elem_of_union in Hn as [Hn|Hn]; [|by apply Hfresh].
    apply elem_of_singleton in Hn as ->. by rewrite <- Hold.
  - intros n fi Hn. destruct (decide (n = name)) as [->|Hne].
    + rewrite lookup_insert_eq. intros [= <-]. simpl. rewrite length_app. simpl. lia.
    + rewrite lookup_insert_ne by done. apply Hdepth. set_solver.
Qed.

Lemma scanFields_inv L s0 scan (l : list (nat * StructField)) b :
  length (index scan) = L -> level_inv L s0 b ->
  level_inv L s0 (foldl (fun b '(i, f) => scanField scan b i f) b l).
Proof.
  intros Hlen. induction l as [|[i f] l IH] in b |- *; simpl; [done|].
  intros Hinv. by apply IH, scanField_inv.
Qed.

Lemma scanType_inv L s0 b scan :
  length (index scan) = L -> level_inv L s0 b ->
  level_inv L s0 (scanType env b scan).
Proof.
  intros Hlen Hinv. unfold scanType. destruct (derefType (typ scan)); try done.
  case_decide; [done|]. apply scanFields_inv; [done|].
  by destruct Hinv.
Qed.

Lemma scanTypes_inv L s0 b scans :
  Forall (fun sc => length (index sc) = L) scans -> level_inv L s0 b ->
  level_inv L s0 (foldl (scanType env) b scans).
Proof.
  induction 1 as [|scan scans Hscan _ IH] in b |- *; simpl; [done|].
  intros Hinv. by apply IH, scanType_inv.
Qed.

(** The loop over the names found in a level appends those that still
    resolve, in the order [range] yields them. *)
Lemma recordNames_spec (ro : RangeOrder) found s :
  recordNames ro found s =
  {| fields := fields s;
     allNames := allNames s
                 ++ filter (fun n => is_Some (fields s !! n)) (ro (elements found));
     conflict := conflict s |}.
Proof.
  unfold recordNames. generalize (ro (elements found)). intros l.
  induction l as [|n l IH] in s |- *; simpl.
  - rewrite app_nil_r. by destruct s.
  - case_decide as Hn.
    + rewrite IH. simpl. rewrite filter_cons_True by done.
      by rewrite <- app_assoc.
    + rewrite IH. by rewrite filter_cons_False by done.
Qed.

Lemma desc_inv_empty : desc_inv 0 emptyStructFields.
Proof.
  split; simpl.
  - constructor.
  - intros n. rewrite lookup_empty. split; [by intros ?%elem_of_nil|by intros [? ?]].
  - intros n fi. by rewrite lookup_empty.
  - intros i j n1 n2 fi1 fi2 _ H. by rewrite lookup_nil in H.
Qed.

Lemma level_inv_start L s visited :
  level_inv L s (Build_builder s [] visited ∅).
Proof. split; simpl; try done; intros n; set_solver. Qed.

Lemma recorded_names_elem (ro : RangeOrder) (b : builder) n :
  n ∈ filter (fun n => is_Some (fields (sf b) !! n))
             (ro (elements (fieldsFoundThisLevel b)))
  <-> n ∈ fieldsFoundThisLevel b /\ is_Some (fields (sf b) !! n).
Proof.
  rewrite list_elem_of_filter, (order_perm ro), elem_of_elements. tauto.
Qed.

Lemma scanLevel_desc_inv (ro : RangeOrder) L s visited cur :
  desc_inv L s -> Forall (fun sc => length (index sc) = L) cur ->
  desc_inv (S L) (scanLevel ro env s visited cur).1.1 /\
  Forall (fun sc => length (index sc) = S L) (scanLevel ro env s visited cur).2.
Proof.
  intros [Hnodup Hnames Hdepth Hsorted] Hcur. unfold scanLevel. simpl.
  pose proof (scanTypes_inv L s _ cur Hcur (level_inv_start L s visited))
    as [Hall Hold Hfresh Hlen Hnext].
  set (b := foldl (scanType env) _ cur) in *.
  split; [|done]. rewrite recordNames_spec.
  set (new := filter _ (ro (elements (fieldsFoundThisLevel b)))).
  assert (forall n, n ∈ allNames s -> n ∉ fieldsFoundThisLevel b) as Hdisj.
  { intros n Hn Hf. apply Hnames in Hn as [fi Hfi]. by rewrite Hfresh in Hfi. }
  split; simpl; rewrite ?Hall.
  - apply NoDup_app. split; [done|]. split.
    + intros n Hn [Hf _]%recorded_names_elem. by apply (Hdisj n).
    + apply NoDup_filter. rewrite (order_perm ro). apply NoDup_elements.
  - intros n. rewrite elem_of_app. unfold new. rewrite recorded_names_elem. split.
    + intros [Hn|[_ Hn]]; [|done]. rewrite Hold by by apply Hdisj. by apply Hnames.
    + intros Hn. destruct (decide (n ∈ fieldsFoundThisLevel b)); [by right|].
      left. apply Hnames. by rewrite <- Hold.
  - intros n fi Hfi. destruct (decide (n ∈ fieldsFoundThisLevel b)) as [Hf|Hf].
    + rewrite (Hlen n fi Hf Hfi). lia.
    + rewrite Hold in Hfi by done. apply Hdepth in Hfi. lia.
  - intros i j n1 n2 fi1 fi2 Hij H1 H2 Hf1 Hf2.
    assert (forall k n fi, (allNames s ++ new) !! k = Some n ->
              fields (sf b) !! n = Some fi ->
              ((k < length (allNames s))%nat /\ allNames s !! k = Some n /\
               fields s !! n = Some fi) \/
              ((length (allNames s) <= k)%nat /\ length (fieldIndex fi) = S L))
      as Hsplit.
    { intros k n fi Hk Hfi. apply lookup_app_Some in Hk as [Hk|[Hge Hk]].
      - left. split; [by eapply lookup_lt_Some|]. split; [done|].
        rewrite <- Hold; [done|]. apply Hdisj. by eapply list_elem_of_lookup_2.
      - right. split; [done|]. apply list_elem_of_lookup_2 in Hk.
        apply recorded_names_elem in Hk as [Hk _]. by eapply Hlen. }
    destruct (Hsplit i n1 fi1 H1 Hf1) as [(Hi & Hi1 & Hi2)|[Hi Hi1]],
             (Hsplit j n2 fi2 H2 Hf2) as [(Hj & Hj1 & Hj2)|[Hj Hj1]].
    + by eapply (Hsorted i j).
    + apply Hdepth in Hi2. lia.
    + lia.
    + lia.
Qed.

Lemma scanLevels_desc_inv fuel (ro : RangeOrder) L s visited cur r :
  desc_inv L s -> Forall (fun sc => length (index sc) = L) cur ->
  scanLevels fuel ro env s visited cur = Some r ->
  exists L', desc_inv L' r.
Proof.
  induction fuel as [|fuel IH] in L, s, visited, cur |- *; intros Hinv Hcur.
  - destruct cur; [|done]. intros [= <-]. by exists L.
  - destruct (decide (cur = [])) as [->|Hne]; [intros [= <-]; by exists L|].
    rewrite scanLevels_step by done. cbv zeta.
    destruct (scanLevel_desc_inv ro L s visited cur Hinv Hcur) as [Hinv' Hnext].
    apply (IH (S L)); done.
Qed.

Lemma buildStructFields_desc_inv (ro : RangeOrder) t :
  exists L, desc_inv L (buildStructFields ro env t).
Proof.
  apply (scanLevels_desc_inv (buildFuel env) ro 0 emptyStructFields ∅
           [{| typ := t; index := [] |}]).
  - apply desc_inv_empty.
  - by repeat constructor.
  - apply buildStructFields_total.
Qed.
End Levels.

Section Claims.
Variable env : Decls.

Lemma scanField_allNames scan b i f :
  allNames (sf (scanField scan b i f)) = allNames (sf b).
Proof. unfold scanField. repeat (case_match || case_decide); done. Qed.

Lemma scanTypes_allNames b scans :
  allNames (sf (foldl (scanType env) b scans)) = allNames (sf b).
Proof.
  induction scans as [|scan scans IH] in b |- *; simpl; [done|].
  rewrite IH. unfold scanType. destruct (derefType (typ scan)); try done.
  case_decide; [done|].
  generalize (imap pair (structDecl env name)). intros l.
  set (b0 := Build_builder _ _ _ _). change (allNames (sf b)) with (allNames (sf b0)).
  generalize b0. clear. intros b.
  induction l as [|[i f] l IH] in b |- *; simpl; [done|].
  by rewrite IH, scanField_allNames.
Qed.

(** C5, as the code has it.  The all-names list of a descriptor holds
    every resolved external name exactly once; a name resolved at a
    shallower embedding level stands before every name resolved at a
    deeper one; the names of one level are appended when the level has
    been scanned, in the order in which [range] yields the keys of the
    map [fieldsFoundThisLevel], which the Go runtime chooses. *)
Theorem allNames_resolved_once_by_level (ro : RangeOrder) (t : type) :
  let s := buildStructFields ro env t in
  NoDup (allNames s)
  /\ (forall n, n ∈ allNames s <-> is_Some (fields s !! n))
  /\ (forall i j n1 n2 fi1 fi2,
        (i < j)%nat -> allNames s !! i = Some n1 -> allNames s !! j = Some n2 ->
        fields s !! n1 = Some fi1 -> fields s !! n2 = Some fi2 ->
        (length (fieldIndex fi1) <= length (fieldIndex fi2))%nat)
  /\ (forall s0 visited currentLevel,
        let b := foldl (scanType env) (Build_builder s0 [] visited ∅) currentLevel in
        allNames (scanLevel ro env s0 visited currentLevel).1.1 =
        allNames s0 ++ filter (fun n => is_Some (fields (sf b) !! n))
                              (ro (elements (fieldsFoundThisLevel b)))).
Proof.
  intros s. destruct (buildStructFields_desc_inv env ro t) as [L [H1 H2 _ H4]].
  repeat split; try done.
  - by apply H2.
  - by apply H2.
  - intros s0 visited cur b. unfold scanLevel. simpl. rewrite recordNames_spec. simpl.
    by rewrite (scanTypes_allNames (Build_builder s0 [] visited ∅)).
Qed.

(** C10.  While one descriptor is built, a struct type is scanned at most
    once: a scan whose type is already marked in [visitedTypes] leaves
    every loop variable as it was (no field, no conflict, nothing queued);
    scanning a struct type marks it; and a mark is never removed, neither
    by the rest of the level nor by the levels after it. *)
Theorem visited_type_scanned_once (ro : RangeOrder) :
  (forall b scan n,
      derefType (typ scan) = TStruct n -> n ∈ visitedTypes b ->
      scanType env b scan = b)
  /\ (forall b scan n,
      derefType (typ scan) = TStruct n -> n ∈ visitedTypes (scanType env b scan))
  /\ (forall b scans, visitedTypes b ⊆ visitedTypes (foldl (scanType env) b scans))
  /\ (forall s visited currentLevel,
      visited ⊆ (scanLevel ro env s visited currentLevel).1.2)
  /\ (forall b scan n later,
      derefType (typ scan) = TStruct n ->
      Forall (fun sc => derefType (typ sc) = TStruct n) later ->
      foldl (scanType env) b (scan :: later) = scanType env b scan).
Proof.
  split; [apply scanType_skip|]. split; [apply scanType_marks|].
  split; [apply scanTypes_visited_mono|]. split; [intros; apply scanLevel_visited_mono|].
  intros b scan n later Hscan Hlater. simpl.
  pose proof (scanType_marks env b scan n Hscan) as Hmark.
  generalize dependent (scanType env b scan). clear b Hscan. intros b Hmark.
  induction Hlater as [|sc later Hsc _ IH]; simpl; [done|].
  by rewrite (scanType_skip env b sc n).
Qed.
End Claims.

Section Conflict.
Variable env : Decls.

Lemma externalName_nonempty f : Name f <> ""%string -> externalName f <> ""%string.
Proof. unfold externalName. by case_decide. Qed.

Lemma scanField_found_mono scan b i f :
  fieldsFoundThisLevel b ⊆ fieldsFoundThisLevel (scanField scan b i f).
Proof. unfold scanField. repeat (case_match || case_decide); simpl; set_solver. Qed.

Lemma scanField_conflict_sticky scan b i f :
  Name f <> ""%string -> conflict (sf b) <> ""%string ->
  conflict (sf (scanField scan b i f)) <> ""%string.
Proof.
  intros Hname Hb. unfold scanField.
  repeat (case_match || case_decide); simpl; try done.
  all: by apply (externalName_nonempty f).
Qed.

(** Scanning a field that declares [n]: a second declaration in the level is
    recorded as the conflict, a first one is recorded as found unless a
    shallower level has claimed [n]. *)
Lemma scanField_declares scan b i f n :
  declares f n ->
  (n ∈ fieldsFoundThisLevel b -> conflict (sf (scanField scan b i f)) = n)
  /\ (fields (sf b) !! n = None -> n ∈ fieldsFoundThisLevel (scanField scan b i f)).
Proof.
  intros (Hanon & Hexp & Htag & Hn). unfold scanField.
  rewrite Hanon, Hexp. simpl. rewrite decide_False by done.
  fold (externalName f). rewrite Hn. split.
  - intros Hin. by rewrite decide_True.
  - intros Hnone. case_decide; [done|].
    rewrite decide_False by (rewrite Hnone; by intros [? ?]). simpl. set_solver.
Qed.

(** The loop over the fields of one struct type, [P] being established at
    one of the fields and kept by the others. *)
Lemma scanFields_establish (I P : builder -> Prop) scan (decl : list StructField) j g b :
  decl !! j = Some g ->
  (forall b i f, decl !! i = Some f -> I b -> I (scanField scan b i f)) ->
  (forall b i f, decl !! i = Some f -> I b -> P b -> P (scanField scan b i f)) ->
  (forall b, I b -> P (scanField scan b j g)) ->
  I b ->
  P (foldl (fun b '(i, f) => scanField scan b i f) b (imap pair decl)).
Proof.
  intros Hj HI HP Hest Hb.
  assert (forall (l : list (nat * StructField)) b,
            (forall i f, (i, f) ∈ l -> decl !! i = Some f) -> I b ->
            I (foldl (fun b '(i, f) => scanField scan b i f) b l)) as HfoldI.
  { intros l. induction l as [|[i f] l IH]; intros b' Hl Hb'; simpl; [done|].
    apply IH; [intros; apply Hl; by right|]. apply HI; [apply Hl; by left|done]. }
  assert (forall (l : list (nat * StructField)) b,
            (forall i f, (i, f) ∈ l -> decl !! i = Some f) -> I b -> P b ->
            P (foldl (fun b '(i, f) => scanField scan b i f) b l)) as HfoldP.
  { intros l. induction l as [|[i f] l IH]; intros b' Hl Hb' Hp; simpl; [done|].
    apply IH; [intros; apply Hl; by right| |].
    - apply HI; [apply Hl; by left|done].
    - apply HP; [apply Hl; by left|done|done]. }
  assert (forall i f, (i, f) ∈ imap pair decl -> decl !! i = Some f) as Hall.
  { intros i f Hin. apply elem_of_lookup_imap in Hin as (i' & f' & [= -> ->] & Hf). done. }
  assert ((j, g) ∈ imap pair decl) as Hin.
  { apply elem_of_lookup_imap. by exists j, g. }
  apply list_elem_of_split in Hin as (pre & post & Heq). rewrite Heq in *.
  rewrite foldl_app. simpl.
  assert (forall i f, (i, f) ∈ pre -> decl !! i = Some f) as Hpre.
  { intros i f Hin. apply Hall, elem_of_app. by left. }
  assert (forall i f, (i, f) ∈ post -> decl !! i = Some f) as Hpost.
  { intros i f Hin. apply Hall, elem_of_app. right. by right. }
  apply HfoldP; [done| |].
  - apply HI; [done|]. by apply HfoldI.
  - apply Hest. by apply HfoldI.
Qed.

Lemma scanField_next_mono scan b i f sc :
  sc ∈ nextLevel b -> sc ∈ nextLevel (scanField scan b i f).
Proof.
  unfold scanField. repeat (case_match || case_decide); simpl; try done.
  intros. apply elem_of_app. by left.
Qed.

Lemma scanFields_queue scan (decl : list StructField) i f b :
  decl !! i = Some f -> Anonymous f = true ->
  {| typ := Typ f; index := index scan ++ [i] |}
    ∈ nextLevel (foldl (fun b '(i, f) => scanField scan b i f) b (imap pair decl)).
Proof.
  intros Hi Hanon.
  apply (scanFields_establish (fun _ => True)
           (fun b => {| typ := Typ f; index := index scan ++ [i] |} ∈ nextLevel b)
           scan decl i f); try done.
  - intros. by apply scanField_next_mono.
  - intros b' _. unfold scanField. rewrite Hanon. simpl.
    apply elem_of_app. right. by left.
Qed.

Lemma scanField_keeps_unclaimed scan b i f n :
  ~ declares f n -> fields (sf b) !! n = None ->
  fields (sf (scanField scan b i f)) !! n = None.
Proof.
  intros Hnot Hnone. unfold scanField.
  destruct (Anonymous f) eqn:Hanon; [done|].
  destruct (IsExported f) eqn:Hexp; [|done]. simpl.
  case_decide as Htag; [done|]. fold (externalName f).
  assert (externalName f <> n) as Hne by (intros Hn; by apply Hnot).
  repeat case_decide; simpl; try done.
  - by rewrite lookup_delete_ne.
  - by rewrite lookup_insert_ne.
Qed.

Lemma scanFields_keep_unclaimed scan (decl : list StructField) b n :
  (forall f, f ∈ decl -> ~ declares f n) -> fields (sf b) !! n = None ->
  fields (sf (foldl (fun b '(i, f) => scanField scan b i f) b (imap pair decl))) !! n
  = None.
Proof.
  intros Hdecl.
  assert (forall i f, (i, f) ∈ imap pair decl -> f ∈ decl) as Hall.
  { intros i f Hin. apply elem_of_lookup_imap in Hin as (i' & f' & [= -> ->] & Hf).
    by eapply list_elem_of_lookup_2. }
  revert Hall. generalize (imap pair decl). intros l.
  induction l as [|[i f] l IH] in b |- *; intros Hall Hb; simpl; [done|].
  apply IH; [intros; eapply Hall; by right|].
  apply scanField_keeps_unclaimed; [|done]. apply Hdecl. eapply Hall. by left.
Qed.

Lemma scanFields_sticky scan (decl : list StructField) b :
  (forall f, f ∈ decl -> Name f <> ""%string) ->
  let b' := foldl (fun b '(i, f) => scanField scan b i f) b (imap pair decl) in
  fieldsFoundThisLevel b ⊆ fieldsFoundThisLevel b'
  /\ (conflict (sf b) <> ""%string -> conflict (sf b') <> ""%string).
Proof.
  intros Hdecl.
  assert (forall i f, (i, f) ∈ imap pair decl -> f ∈ decl) as Hall.
  { intros i f Hin. apply elem_of_lookup_imap in Hin as (i' & f' & [= -> ->] & Hf).
    by eapply list_elem_of_lookup_2. }
  revert Hall. generalize (imap pair decl). intros l.
  induction l as [|[i f] l IH] in b |- *; intros Hall; simpl; [done|].
  destruct (IH (scanField scan b i f)) as [Hfound Hconf]; [intros; eapply Hall; by right|].
  split.
  - etrans; [apply scanField_found_mono|apply Hfound].
  - intros Hb. apply Hconf, scanField_conflict_sticky; [|done].
    apply Hdecl. eapply Hall. by left.
Qed.

Lemma structDecl_named T f :
  named env -> f ∈ structDecl env T -> Name f <> ""%string.
Proof.
  intros Hnamed Hf. unfold structDecl in Hf.
  destruct (env !! T) as [decl|] eqn:HT; simpl in Hf; [by eapply Hnamed|].
  by apply elem_of_nil in Hf.
Qed.

Lemma scanType_sticky b scan :
  named env ->
  fieldsFoundThisLevel b ⊆ fieldsFoundThisLevel (scanType env b scan)
  /\ (conflict (sf b) <> ""%string -> conflict (sf (scanType env b scan)) <> ""%string).
Proof.
  intros Hnamed. unfold scanType. destruct (derefType (typ scan)); try done.
  case_decide; [done|].
  apply (scanFields_sticky scan (structDecl env name) (Build_builder _ _ _ _)).
  intros f. by apply structDecl_named.
Qed.

Lemma scanTypes_sticky b scans :
  named env -> conflict (sf b) <> ""%string ->
  conflict (sf (foldl (scanType env) b scans)) <> ""%string.
Proof.
  intros Hnamed. induction scans as [|scan scans IH] in b |- *; simpl; [done|].
  intros Hb. by apply IH, scanType_sticky.
Qed.

Lemma scanLevels_conflict_sticky fuel (ro : RangeOrder) s visited cur r :
  named env -> conflict s <> ""%string ->
  scanLevels fuel ro env s visited cur = Some r -> conflict r <> ""%string.
Proof.
  intros Hnamed.
  induction fuel as [|fuel IH] in s, visited, cur |- *; intros Hs.
  - destruct cur; [|done]. by intros [= <-].
  - destruct (decide (cur = [])) as [->|Hne]; [by intros [= <-]|].
    rewrite scanLevels_step by done. cbv zeta. apply IH.
    rewrite recordNames_spec. simpl.
    by apply (scanTypes_sticky (Build_builder _ _ _ _)).
Qed.

(** The first scan, in a level, of a struct type that declares [n]. *)
Lemma scanType_declaring L s0 b scan X decl j g n :
  named env ->
  derefType (typ scan) = TStruct X -> X ∉ visitedTypes b ->
  env !! X = Some decl -> decl !! j = Some g -> declares g n ->
  length (index scan) = L -> level_inv L s0 b -> fields s0 !! n = None ->
  n ∈ fieldsFoundThisLevel (scanType env b scan)
  /\ (n ∈ fieldsFoundThisLevel b -> conflict (sf (scanType env b scan)) <> ""%string).
Proof.
  intros Hnamed Hscan Hnew HX Hj Hg Hlen Hinv Hs0.
  assert (n <> ""%string) as Hn.
  { destruct Hg as (_ & _ & _ & <-). apply externalName_nonempty.
    eapply Hnamed; [done|]. by eapply list_elem_of_lookup_2. }
  assert (forall i f, decl !! i = Some f -> Name f <> ""%string) as Hdecl.
  { intros i f Hf. eapply Hnamed; [done|]. by eapply list_elem_of_lookup_2. }
  unfold scanType. rewrite Hscan, decide_False by done.
  unfold structDecl. rewrite HX. simpl.
  set (b0 := Build_builder _ _ _ _).
  assert (level_inv L s0 b0) as Hinv0 by by destruct Hinv.
  split.
  - apply (scanFields_establish (level_inv L s0) (fun b => n ∈ fieldsFoundThisLevel b)
             scan decl j g); try done.
    + intros. by apply scanField_inv.
    + intros b' i f _ _ Hin. by apply scanField_found_mono.
    + intros b' Hb'. destruct (decide (n ∈ fieldsFoundThisLevel b')) as [Hin|Hnot].
      * by apply scanField_found_mono.
      * apply (scanField_declares scan b' j g n Hg).
        by rewrite (inv_old _ _ _ Hb' n Hnot).
  - intros Hin.
    apply (scanFields_establish (fun b => n ∈ fieldsFoundThisLevel b)
             (fun b => conflict (sf b) <> ""%string) scan decl j g); try done.
    + intros b' i f _ Hb'. by apply scanField_found_mono.
    + intros b' i f Hf _ Hb'. apply scanField_conflict_sticky; [by eapply Hdecl|done].
    + intros b' Hb'. by rewrite (proj1 (scanField_declares scan b' j g n Hg) Hb').
Qed.
End Conflict.

Section ConflictDetected.
Variable env : Decls.
Variable ro : RangeOrder.
Variables T A B n : string.
Variables declT declA declB : list StructField.
Variables (iA iB jA jB : nat) (fA fB gA gB : StructField).

Hypothesis Hnamed : named env.
Hypothesis HT : env !! T = Some declT.
Hypothesis HA : env !! A = Some declA.
Hypothesis HB : env !! B = Some declB.
Hypothesis HfA : declT !! iA = Some fA.
Hypothesis HfB : declT !! iB = Some fB.
Hypothesis HanonA : Anonymous fA = true.
Hypothesis HanonB : Anonymous fB = true.
Hypothesis HtypA : derefType (Typ fA) = TStruct A.
Hypothesis HtypB : derefType (Typ fB) = TStruct B.
Hypothesis HAB : A <> B.
Hypothesis HAT : A <> T.
Hypothesis HBT : B <> T.
Hypothesis HgA : declA !! jA = Some gA.
Hypothesis HgB : declB !! jB = Some gB.
Hypothesis HdeclA : declares gA n.
Hypothesis HdeclB : declares gB n.
Hypothesis Hdirect : forall f, f ∈ declT -> ~ declares f n.

Lemma scanTypes_mark b scans sc X :
  sc ∈ scans -> derefType (typ sc) = TStruct X ->
  X ∈ visitedTypes (foldl (scanType env) b scans).
Proof.
  intros Hin Hsc. apply list_elem_of_split in Hin as (pre & post & ->).
  rewrite foldl_app. simpl. apply scanTypes_visited_mono. by apply scanType_marks.
Qed.

Local Abbreviation both_scanned := (FieldMapSpec.both_scanned A B n).

Lemma scanType_both_scanned s1 b sc :
  fields s1 !! n = None -> length (index sc) = 1%nat ->
  level_inv 1 s1 b -> both_scanned b -> both_scanned (scanType env b sc).
Proof.
  intros Hs1 Hlen Hinv [Hfound Hconf].
  destruct (scanType_sticky env b sc Hnamed) as [Hmono Hsticky].
  destruct (scanType_visited_cases env b sc) as [->|(X & HX & Hnew & Hvis)]; [done|].
  unfold FieldMapSpec.both_scanned. rewrite Hvis.
  destruct (decide (X = A)) as [->|HXA]; [|destruct (decide (X = B)) as [->|HXB]].
  - destruct (scanType_declaring env 1 s1 b sc A declA jA gA n) as [Hin Hc]; try done.
    split; [done|]. intros _ HBv. apply Hc, Hfound. right. set_solver.
  - destruct (scanType_declaring env 1 s1 b sc B declB jB gB n) as [Hin Hc]; try done.
    split; [done|]. intros HAv _. apply Hc, Hfound. left. set_solver.
  - split.
    + intros Hv. apply Hmono, Hfound. set_solver.
    + intros HAv HBv. apply Hsticky, Hconf; set_solver.
Qed.

Lemma scanTypes_both_scanned s1 b scans :
  fields s1 !! n = None -> Forall (fun sc => length (index sc) = 1%nat) scans ->
  level_inv 1 s1 b -> both_scanned b ->
  both_scanned (foldl (scanType env) b scans).
Proof.
  intros Hs1 Hscans. induction Hscans as [|sc scans Hsc _ IH] in b |- *; simpl; [done|].
  intros Hinv Hb. apply IH; [by apply scanType_inv|by apply (scanType_both_scanned s1)].
Qed.

(** Two different records embedded in [T] declare [n], and [T] itself does
    not: the descriptor of [T] records a conflict. *)
Lemma embedded_conflict_recorded :
  conflict (buildStructFields ro env (TStruct T)) <> ""%string.
Proof.
  pose proof (buildStructFields_total env ro (TStruct T)) as Hbuild.
  unfold buildStructFields_opt, buildFuel in Hbuild.
  rewrite scanLevels_step in Hbuild by done. cbv zeta in Hbuild.
  set (scan0 := {| typ := TStruct T; index := [] |}) in *.
  set (b0 := Build_builder emptyStructFields [] ∅ ∅) in *.
  change (foldl (scanType env) b0 [scan0]) with (scanType env b0 scan0) in Hbuild.
  set (bL0 := scanType env b0 scan0) in *.
  assert (bL0 = foldl (fun b '(i, f) => scanField scan0 b i f)
                 (Build_builder emptyStructFields [] ({[ T ]} ∪ ∅) ∅)
                 (imap pair declT)) as HbL0.
  { unfold bL0, scanType. simpl. rewrite decide_False by set_solver.
    unfold structDecl. by rewrite HT. }
  assert (fields (sf bL0) !! n = None) as F1.
  { rewrite HbL0. by apply scanFields_keep_unclaimed. }
  assert ({| typ := Typ fA; index := [iA] |} ∈ nextLevel bL0) as F2A.
  { rewrite HbL0. by apply (scanFields_queue scan0 declT iA fA). }
  assert ({| typ := Typ fB; index := [iB] |} ∈ nextLevel bL0) as F2B.
  { rewrite HbL0. by apply (scanFields_queue scan0 declT iB fB). }
  assert (visitedTypes bL0 = {[ T ]}) as F3.
  { rewrite HbL0, scanFields_visited. simpl. set_solver. }
  assert (Forall (fun sc => length (index sc) = 1%nat) (nextLevel bL0)) as F4.
  { apply (inv_next 0 emptyStructFields).
    apply scanType_inv; [done|apply level_inv_start]. }
  assert (nextLevel bL0 <> []) as Hnext.
  { intros Hnil. rewrite Hnil in F2A. by apply elem_of_nil in F2A. }
  rewrite scanLevels_step in Hbuild by done. cbv zeta in Hbuild.
  set (s1 := recordNames ro (fieldsFoundThisLevel bL0) (sf bL0)) in *.
  assert (fields s1 !! n = None) as Hs1.
  { unfold s1. by rewrite recordNames_spec. }
  set (b1 := Build_builder s1 [] (visitedTypes bL0) ∅) in *.
  assert (both_scanned (foldl (scanType env) b1 (nextLevel bL0))) as [_ Hboth].
  { apply (scanTypes_both_scanned s1); [done|done|apply level_inv_start|].
    unfold FieldMapSpec.both_scanned, b1. simpl. rewrite F3. set_solver. }
  eapply scanLevels_conflict_sticky; [done| |exact Hbuild].
  rewrite recordNames_spec. simpl. apply Hboth.
  - eapply scanTypes_mark; [exact F2A|exact HtypA].
  - eapply scanTypes_mark; [exact F2B|exact HtypB].
Qed.
End ConflictDetected.

Section Paths.
Variable env : Decls.
Variable t0 : type.

Lemma anon_path_snoc p i ty :
  anon_path env t0 (p ++ [i]) ty ->
  exists ty0 n g, anon_path env t0 p ty0 /\ derefType ty0 = TStruct n /\
                  structDecl env n !! i = Some g /\ Anonymous g = true /\ ty = Typ g.
Proof.
  inversion 1 as [Hnil|p' ty0 n i' g Hp Hn Hg Hanon Heq].
  - by destruct p.
  - apply app_inj_tail in Heq as [-> ->]. by exists ty0, n, g.
Qed.

Lemma anon_path_functional p ty ty' :
  anon_path env t0 p ty -> anon_path env t0 p ty' -> ty = ty'.
Proof.
  induction 1 as [|p ty0 n i g Hp IH Hn Hg Hanon] in ty' |- *.
  - inversion 1 as [|p' ? ? ? ? ? ? ? ? Heq]; [done|by destruct p'].
  - intros (ty1 & n1 & g1 & Hp1 & Hn1 & Hg1 & _ & ->)%anon_path_snoc.
    rewrite <- (IH _ Hp1) in Hn1. congruence.
Qed.

Lemma anon_path_through p i r ty :
  anon_path env t0 (p ++ i :: r) ty ->
  exists ty0 n g, anon_path env t0 p ty0 /\ derefType ty0 = TStruct n /\
                  structDecl env n !! i = Some g /\ Anonymous g = true.
Proof.
  induction r as [|a r IH] using rev_ind in ty |- *.
  - intros (ty0 & n & g & ? & ? & ? & ? & _)%anon_path_snoc. by exists ty0, n, g.
  - rewrite app_comm_cons, app_assoc.
    intros (ty0 & n & g & Hp & _)%anon_path_snoc. by eapply IH.
Qed.

Lemma paths_compare (p q : list nat) :
  p = q \/ (exists a r, q = p ++ a :: r) \/ (exists a r, p = q ++ a :: r)
  \/ WalkerSpec.diverge p q.
Proof.
  induction p as [|x p IH] in q |- *; destruct q as [|y q].
  - by left.
  - right. left. by exists y, q.
  - right. right. left. by exists x, p.
  - destruct (decide (x = y)) as [->|Hxy].
    + destruct (IH q) as [->|[(a & r & ->)|[(a & r & ->)|(c & i & j & r & r' & ? & -> & ->)]]].
      * by left.
      * right. left. by exists a, r.
      * right. right. left. by exists a, r.
      * right. right. right. by exists (y :: c), i, j, r, r'.
    + right. right. right. by exists [], x, y, p, q.
Qed.

Lemma field_path_not_prefix n1 n2 p1 f1 f2 a r :
  field_path env t0 n1 p1 f1 -> ~ field_path env t0 n2 (p1 ++ a :: r) f2.
Proof.
  intros (q1 & ty1 & m1 & i1 & -> & Hq1 & Hm1 & Hf1 & Hd1).
  intros (q2 & ty2 & m2 & i2 & Heq & Hq2 & _).
  destruct (exists_last (l := a :: r)) as (r0 & z & Hr); [done|]. rewrite Hr in Heq.
  rewrite <- app_assoc in Heq. simpl in Heq.
  rewrite app_comm_cons, app_assoc in Heq.
  apply app_inj_tail in Heq as [<- _].
  apply anon_path_through in Hq2 as (ty0 & m & g & Hp & Hm & Hg & Hanon).
  rewrite <- (anon_path_functional _ _ _ Hq1 Hp) in Hm.
  assert (m = m1) as -> by congruence.
  assert (g = f1) as -> by congruence.
  destruct Hd1 as (Hnot & _). congruence.
Qed.

(** The index paths of two different keys part at some position. *)
Lemma field_paths_diverge n1 n2 p1 p2 f1 f2 :
  n1 <> n2 -> field_path env t0 n1 p1 f1 -> field_path env t0 n2 p2 f2 ->
  WalkerSpec.diverge p1 p2.
Proof.
  intros Hne H1 H2.
  destruct (paths_compare p1 p2) as [->|[(a & r & ->)|[(a & r & ->)|Hdiv]]]; [| | |done].
  - exfalso. destruct H1 as (q1 & ty1 & m1 & i1 & -> & Hq1 & Hm1 & Hf1 & Hd1).
    destruct H2 as (q2 & ty2 & m2 & i2 & Heq & Hq2 & Hm2 & Hf2 & Hd2).
    apply app_inj_tail in Heq as [<- <-].
    rewrite <- (anon_path_functional _ _ _ Hq1 Hq2) in Hm2.
    assert (m2 = m1) as -> by congruence.
    assert (f2 = f1) as -> by congruence.
    destruct Hd1 as (_ & _ & _ & <-), Hd2 as (_ & _ & _ & <-). done.
  - exfalso. exact (field_path_not_prefix n1 n2 p1 f1 f2 a r H1 H2).
  - exfalso. exact (field_path_not_prefix n2 n1 p2 f2 f1 a r H2 H1).
Qed.

Lemma scanField_paths scan b n i f :
  anon_path env t0 (index scan) (typ scan) ->
  derefType (typ scan) = TStruct n -> structDecl env n !! i = Some f ->
  paths_inv env t0 (fields (sf b)) (nextLevel b) ->
  paths_inv env t0 (fields (sf (scanField scan b i f))) (nextLevel (scanField scan b i f)).
Proof.
  intros Hscan Hn Hf [Hnext Hfields]. unfold scanField.
  destruct (Anonymous f) eqn:Hanon; simpl.
  { split; [|done]. intros sc [Hsc|Hsc]%elem_of_app; [by apply Hnext|].
    apply list_elem_of_singleton in Hsc as ->. simpl. by eapply anon_step. }
  destruct (IsExported f) eqn:Hexp; simpl; [|done].
  case_decide as Htag; [done|]. fold (externalName f).
  case_decide; simpl.
  { split; [done|]. intros name fi [_ Hfi]%lookup_delete_Some. by apply Hfields. }
  case_decide; [done|]. split; [done|]. simpl.
  intros name fi [[<- <-]|[_ Hfi]]%lookup_insert_Some; [|by apply Hfields].
  simpl. split; [done|]. exists f, (index scan), (typ scan), n, i. by repeat split.
Qed.

Lemma scanType_paths b scan :
  anon_path env t0 (index scan) (typ scan) ->
  paths_inv env t0 (fields (sf b)) (nextLevel b) ->
  paths_inv env t0 (fields (sf (scanType env b scan))) (nextLevel (scanType env b scan)).
Proof.
  intros Hscan Hb. unfold scanType. destruct (derefType (typ scan)) eqn:Hn; try done.
  case_decide; [done|].
  set (b0 := Build_builder _ _ _ _).
  assert (paths_inv env t0 (fields (sf b0)) (nextLevel b0)) as Hb0 by done.
  assert (forall i f, (i, f) ∈ imap pair (structDecl env name) ->
                      structDecl env name !! i = Some f) as Hall.
  { intros i f Hin. by apply elem_of_lookup_imap in Hin as (i' & f' & [= -> ->] & Hf). }
  revert Hall Hb0. generalize (imap pair (structDecl env name)) b0. intros l.
  induction l as [|[i f] l IH]; intros b' Hall Hb'; simpl; [done|].
  apply IH; [intros; apply Hall; by right|].
  eapply scanField_paths; [done|done| |done]. apply Hall. by left.
Qed.

Lemma scanTypes_paths b scans :
  (forall sc, sc ∈ scans -> anon_path env t0 (index sc) (typ sc)) ->
  paths_inv env t0 (fields (sf b)) (nextLevel b) ->
  let b' := foldl (scanType env) b scans in
  paths_inv env t0 (fields (sf b')) (nextLevel b').
Proof.
  induction scans as [|sc scans IH] in b |- *; intros Hscans Hb; simpl; [done|].
  apply IH; [intros; apply Hscans; by right|].
  apply scanType_paths; [apply Hscans; by left|done].
Qed.

Lemma scanLevels_paths fuel (ro : RangeOrder) s visited cur r :
  paths_inv env t0 (fields s) cur ->
  scanLevels fuel ro env s visited cur = Some r ->
  paths_inv env t0 (fields r) [].
Proof.
  induction fuel as [|fuel IH] in s, visited, cur |- *; intros [Hcur Hs].
  - destruct cur; [|done]. intros [= <-]. split; [by intros ? ?%elem_of_nil|done].
  - destruct (decide (cur = [])) as [->|Hne];
      [intros [= <-]; split; [by intros ? ?%elem_of_nil|done]|].
    rewrite scanLevels_step by done. cbv zeta. apply IH.
    rewrite recordNames_spec. simpl.
    apply (scanTypes_paths (Build_builder s [] visited ∅)); [done|].
    split; [by intros ? ?%elem_of_nil|done].
Qed.
End Paths.

(** Every entry of a descriptor is reached by its index path through
    embedded fields, and the paths of two different keys part. *)
Lemma buildStructFields_paths env (ro : RangeOrder) t name fi :
  fields (buildStructFields ro env t) !! name = Some fi ->
  jsonName fi = name /\ exists f, field_path env t name (fieldIndex fi) f.
Proof.
  apply (scanLevels_paths env t (buildFuel env) ro emptyStructFields ∅
           [{| typ := t; index := [] |}]).
  - split.
    + intros sc ->%list_elem_of_singleton. constructor.
    + intros n fi'. simpl. by rewrite lookup_empty.
  - apply buildStructFields_total.
Qed.

Lemma buildStructFields_diverge env (ro : RangeOrder) t n1 n2 fi1 fi2 :
  n1 <> n2 ->
  fields (buildStructFields ro env t) !! n1 = Some fi1 ->
  fields (buildStructFields ro env t) !! n2 = Some fi2 ->
  WalkerSpec.diverge (fieldIndex fi1) (fieldIndex fi2).
Proof.
  intros Hne [_ [f1 H1]]%buildStructFields_paths [_ [f2 H2]]%buildStructFields_paths.
  by eapply field_paths_diverge.
Qed.

Lemma named_list_to_map (l : list (string * list StructField)) :
  Forall (fun d => Forall (fun f => Name f <> ""%string) d.2) l ->
  named (list_to_map l).
Proof.
  intros Hl T decl f HT Hf. apply elem_of_list_to_map_2 in HT.
  rewrite Forall_forall in Hl. specialize (Hl _ HT). simpl in Hl.
  rewrite Forall_forall in Hl. by apply Hl.
Qed.

Lemma testDecls_named : named Samples.testDecls.
Proof.
  apply named_list_to_map. repeat (constructor; [repeat constructor; done|]). constructor.
Qed.

Section Evaluated.
Import Samples.

Lemma allNames_resolved_once_by_level_witness :
  let s := buildStructFields reverseOrder testDecls (TStruct "Extended") in
  allNames s = ["extra"; "name"; "id"]%string
  /\ (length (fieldIndex {| jsonName := "extra"; fieldIndex := [1%nat] |})
       <= length (fieldIndex {| jsonName := "name"; fieldIndex := [0%nat; 1%nat] |}))%nat.
Proof.
  split; [reflexivity|].
  apply (proj1 (proj2 (proj2 (allNames_resolved_once_by_level testDecls reverseOrder
                                (TStruct "Extended"))))
           0%nat 1%nat "extra"%string "name"%string);
    [lia|reflexivity|reflexivity|reflexivity|reflexivity].
Defined.

(** C5, as stated, fails.  [Person] declares [Name] (field 0, key "name")
    before [Age] (field 1, key "age"), so the two keys are first resolved
    in the order "name", "age"; the all-names list is in that order only
    if [range] happens to yield the keys of [fieldsFoundThisLevel] that
    way round. *)
Lemma allNames_order_not_resolution_order :
  ~ (forall ro : RangeOrder,
        let s := buildStructFields ro testDecls (TStruct "Person") in
        fieldIndex <$> fields s !! "name"%string = Some [0%nat] ->
        fieldIndex <$> fields s !! "age"%string = Some [1%nat] ->
        allNames s = ["name"; "age"]%string).
Proof.
  intros H. specialize (H keepOrder eq_refl eq_refl). vm_compute in H. discriminate.
Qed.

Lemma visited_type_scanned_once_witness :
  let b := {| sf := emptyStructFields; nextLevel := [];
              visitedTypes := {[ "Shared"%string ]}; fieldsFoundThisLevel := ∅ |} in
  let scan := {| typ := TPtr (TStruct "Shared"); index := [0%nat; 0%nat] |} in
  scanType testDecls b scan = b.
Proof.
  intros b scan.
  apply (proj1 (visited_type_scanned_once testDecls keepOrder) b scan "Shared"%string);
    [reflexivity|]. unfold b. simpl. apply elem_of_singleton_2. reflexivity.
Defined.

(** [Diamond] reaches [Shared] along two embedding paths of the same
    depth: the second scan is skipped, "id" resolves along the first path
    and no conflict is recorded. *)
Example diamond_scanned_once :
  let s := buildStructFields keepOrder testDecls (TStruct "Diamond") in
  conflict s = ""%string /\ allNames s = ["id"%string]
  /\ fieldIndex <$> fields s !! "id"%string = Some [0; 0; 0]%nat.
Proof. by vm_compute. Qed.

(** C6 at [Outer]: [Left] and [Right], both embedded in [Outer], declare
    "name", so the name is marked as the conflict and deleted from the
    mapping while level 1 is scanned; [Deep], embedded in [Left], declares
    it again, and the scan of level 2 puts it back into the mapping and
    into the all-names list. *)
Theorem conflicted_name_resolved_again :
  let s := buildStructFields keepOrder testDecls (TStruct "Outer") in
  conflict s = "name"%string
  /\ fields s !! "name"%string
      = Some {| jsonName := "name"; fieldIndex := [0; 1; 0]%nat |}
  /\ allNames s = ["name"%string].
Proof. by vm_compute. Qed.
End Evaluated.

End FieldMapFacts.

(** * Proofs: strict walker *)

Module WalkerFacts.
Import FieldMap Walker.

(** ** The recursion follows the raw input *)

Lemma json_depth_member members k x :
  (k, x) ∈ members -> (json_depth x < json_depth (JObject members))%nat.
Proof.
  intros Hin. simpl. apply Nat.lt_succ_r.
  induction members as [|[k' x'] members IH]; simpl.
  - by apply elem_of_nil in Hin.
  - apply elem_of_cons in Hin as [[= <- <-]|Hin]; [lia|]. specialize (IH Hin). lia.
Qed.

Lemma json_depth_elem elems x :
  x ∈ elems -> (json_depth x < json_depth (JArray elems))%nat.
Proof.
  intros Hin. simpl. apply Nat.lt_succ_r.
  induction elems as [|x' elems IH]; simpl.
  - by apply elem_of_nil in Hin.
  - apply elem_of_cons in Hin as [<-|Hin]; [lia|]. specialize (IH Hin). lia.
Qed.

Lemma members_lookup (members : list (string * json)) (m0 : gmap string json) k x :
  foldl (fun m kv => <[ kv.1 := kv.2 ]> m) m0 members !! k = Some x ->
  m0 !! k = Some x \/ (k, x) ∈ members.
Proof.
  induction members as [|[k' x'] members IH] in m0 |- *; simpl; [by left|].
  intros Hk. apply IH in Hk as [Hk|Hk]; [|right; by right].
  destruct (decide (k' = k)) as [->|Hne].
  - rewrite lookup_insert_eq in Hk. injection Hk as ->. right. by left.
  - rewrite lookup_insert_ne in Hk by done. by left.
Qed.

Lemma rawObject_depth data raw k x :
  rawObject data = Some raw -> raw !! k = Some x ->
  (json_depth x < json_depth data)%nat.
Proof.
  destruct data; try done; simpl; intros [= <-] Hk.
  - by rewrite lookup_empty in Hk.
  - apply members_lookup in Hk as [Hk|Hk]; [by rewrite lookup_empty in Hk|].
    by apply (json_depth_member members k x).
Qed.

Lemma rawArray_depth data rawSlice x :
  rawArray data = Some rawSlice -> x ∈ rawSlice ->
  (json_depth x < json_depth data)%nat.
Proof.
  destruct data; try done; simpl; intros [= <-] Hx.
  - by apply elem_of_nil in Hx.
  - by apply (json_depth_elem elems x).
Qed.

Section Locality.
Variable ro : RangeOrder.
Variable env : Decls.
Variable implementsUnmarshaler : type -> bool.
Variable ToLower : string -> string.
Variable jsonUnmarshal : json -> type -> value -> option error * value.
Variable d : Decoder.
Variables rec1 rec2 : json -> type -> value -> Cache -> outcome.

Lemma decodeFields_ext s raw t keys v c :
  (forall k x, raw !! k = Some x -> forall t v c, rec1 x t v c = rec2 x t v c) ->
  decodeFields env rec1 s raw t keys v c = decodeFields env rec2 s raw t keys v c.
Proof.
  intros Hrec. induction keys as [|k keys IH] in v, c |- *; simpl; [done|].
  destruct (fields s !! k) as [fi|]; [|done].
  destruct (raw !! k) as [x|] eqn:Hx; [|done].
  destruct (getFieldByIndex env t v settable id (fieldIndex fi)) as [v' [fld|]]; [|done].
  case_match; [done|]. rewrite (Hrec k x Hx).
  destruct (err (rec2 x _ _ c)); [done|]. apply IH.
Qed.

Lemma decodeElems_ext elemType rawSlice i newSlice c :
  (forall x, x ∈ rawSlice -> forall t v c, rec1 x t v c = rec2 x t v c) ->
  decodeElems rec1 elemType rawSlice i newSlice c
  = decodeElems rec2 elemType rawSlice i newSlice c.
Proof.
  induction rawSlice as [|x rawSlice IH] in i, newSlice, c |- *; intros Hrec; simpl; [done|].
  rewrite (Hrec x) by by left.
  destruct (err (rec2 x _ _ c)); [done|]. apply IH. intros y Hy. apply Hrec. by right.
Qed.

Lemma decodeEntries_ext valueType rawMap keys entries c :
  (forall k x, rawMap !! k = Some x -> forall t v c, rec1 x t v c = rec2 x t v c) ->
  decodeEntries rec1 valueType rawMap keys entries c
  = decodeEntries rec2 valueType rawMap keys entries c.
Proof.
  intros Hrec. induction keys as [|k keys IH] in entries, c |- *; simpl; [done|].
  destruct (rawMap !! k) as [x|] eqn:Hx; [|done].
  rewrite (Hrec k x Hx). destruct (err (rec2 x _ _ c)); [done|]. apply IH.
Qed.

Lemma unmarshalValue_body_ext data t v c :
  (forall x, (json_depth x < json_depth data)%nat ->
             forall t v c, rec1 x t v c = rec2 x t v c) ->
  unmarshalValue_body ro env implementsUnmarshaler ToLower jsonUnmarshal d rec1 data t v c
  = unmarshalValue_body ro env implementsUnmarshaler ToLower jsonUnmarshal d rec2 data t v c.
Proof.
  intros Hrec. unfold unmarshalValue_body.
  destruct data; try done;
    (destruct (implementsUnmarshaler (TPtr t)); [done|];
     destruct (allocatePointers t v id) as [[t' v'] set];
     destruct (kind t'); try done).
  all: try (unfold unmarshalSlice;
            match goal with |- context [rawArray ?j] =>
              destruct (rawArray j) as [rawSlice|] eqn:Hraw end; [|done];
            case_match; [done|];
            rewrite (decodeElems_ext _ rawSlice); [done|];
            intros x Hx; apply Hrec; by eapply rawArray_depth).
  all: try (unfold unmarshalMap;
            match goal with |- context [rawObject ?j] =>
              destruct (rawObject j) as [rawMap|] eqn:Hraw end; [|done];
            case_match; [done|];
            rewrite (decodeEntries_ext _ rawMap); [done|];
            intros k x Hx; apply Hrec; by eapply rawObject_depth).
  all: unfold unmarshalStruct;
       match goal with |- context [rawObject ?j] =>
         destruct (rawObject j) as [raw|] eqn:Hraw end; [|done];
       destruct (getStructFields ro env c t') as [[e|s] c']; [done|];
       case_match; [done|];
       rewrite (decodeFields_ext s raw); [done|];
       intros k x Hx; apply Hrec; by eapply rawObject_depth.
Qed.
End Locality.

Section Unfold.
Variable ro : RangeOrder.
Variable env : Decls.
Variable implementsUnmarshaler : type -> bool.
Variable ToLower : string -> string.
Variable jsonUnmarshal : json -> type -> value -> option error * value.
Variable d : Decoder.

Local Abbreviation walk := (unmarshalValue_fuel ro env implementsUnmarshaler ToLower jsonUnmarshal d).

Lemma unmarshalValue_fuel_enough fuel1 fuel2 data t v c :
  (json_depth data < fuel1)%nat -> (json_depth data < fuel2)%nat ->
  walk fuel1 data t v c = walk fuel2 data t v c.
Proof.
  induction fuel1 as [|fuel1 IH] in fuel2, data, t, v, c |- *; intros H1 H2; [lia|].
  destruct fuel2 as [|fuel2]; [lia|]. simpl.
  apply unmarshalValue_body_ext. intros x Hx t' v' c'. apply IH; lia.
Qed.

(** The walker satisfies the recursive equation of the source: it is the
    body of [unmarshalValue] with itself as the recursive call. *)
Lemma unmarshalValue_unfold data t v c :
  unmarshalValue ro env implementsUnmarshaler ToLower jsonUnmarshal d data t v c
  = unmarshalValue_body ro env implementsUnmarshaler ToLower jsonUnmarshal d
      (unmarshalValue ro env implementsUnmarshaler ToLower jsonUnmarshal d) data t v c.
Proof.
  unfold unmarshalValue at 1. simpl.
  apply unmarshalValue_body_ext. intros x Hx t' v' c'.
  apply unmarshalValue_fuel_enough; lia.
Qed.
End Unfold.

Section Coherence.
Import WalkerSpec.
Variable ro : RangeOrder.
Variable env : Decls.
Variable implementsUnmarshaler : type -> bool.
Variable ToLower : string -> string.
Variable jsonUnmarshal : json -> type -> value -> option error * value.
Variable d : Decoder.

(** With a coherent cache [getStructFields] answers as if it built the
    descriptor: it hands out the descriptor when no conflict is recorded and
    the conflict error otherwise; the cache stays coherent. *)
Lemma getStructFields_coherent c t :
  coherent ro env c ->
  coherent ro env (getStructFields ro env c t).2
  /\ (getStructFields ro env c t).1
     = (if decide (conflict (buildStructFields ro env t) <> ""%string)
        then inl (fieldConflictError (conflict (buildStructFields ro env t)))
        else inr (buildStructFields ro env t)).
Proof.
  intros Hc. unfold getStructFields. destruct (Hc t) as [-> | ->].
  - split.
    + assert (coherent ro env (Store t (buildStructFields ro env t) c)) as Hstore.
      { intros t'. unfold Store. case_decide as Ht; [subst; by right|apply Hc]. }
      by case_decide.
    + by case_decide.
  - split; by case_decide.
Qed.

Section Loops.
Variable rec : json -> type -> value -> Cache -> outcome.
Hypothesis Hrec : forall x t v c, coherent ro env c -> coherent ro env (cache (rec x t v c)).

Lemma decodeFields_coherent s raw t keys v c :
  coherent ro env c -> coherent ro env (cache (decodeFields env rec s raw t keys v c)).
Proof.
  induction keys as [|k keys IH] in v, c |- *; intros Hc; simpl; [done|].
  destruct (fields s !! k) as [fi|]; [|by apply IH].
  destruct (raw !! k) as [x|]; [|by apply IH].
  destruct (getFieldByIndex env t v settable id (fieldIndex fi)) as [root [sl|]];
    [|by apply IH].
  destruct (negb (CanSet (slotFlags sl))); [by apply IH|].
  destruct (err (rec x (slotType sl) (slotValue sl) c)); simpl; [by apply Hrec|].
  by apply IH, Hrec.
Qed.

Lemma decodeElems_coherent elemType rawSlice i newSlice c :
  coherent ro env c ->
  coherent ro env (decodeElems rec elemType rawSlice i newSlice c).2.
Proof.
  induction rawSlice as [|x rawSlice IH] in i, newSlice, c |- *; intros Hc; simpl; [done|].
  destruct (err (rec x elemType _ c)); simpl; [by apply Hrec|]. by apply IH, Hrec.
Qed.

Lemma decodeEntries_coherent valueType rawMap keys entries c :
  coherent ro env c ->
  coherent ro env (decodeEntries rec valueType rawMap keys entries c).2.
Proof.
  induction keys as [|k keys IH] in entries, c |- *; intros Hc; simpl; [done|].
  destruct (rawMap !! k) as [x|]; [|by apply IH].
  destruct (err (rec x valueType VZero c)); simpl; [by apply Hrec|]. by apply IH, Hrec.
Qed.

Lemma unmarshalValue_body_coherent data t v c :
  coherent ro env c ->
  coherent ro env
    (cache (unmarshalValue_body ro env implementsUnmarshaler ToLower jsonUnmarshal d rec
              data t v c)).
Proof.
  intros Hc. unfold unmarshalValue_body.
  assert (forall data t v set, coherent ro env
            (cache (jsonUnmarshal_into jsonUnmarshal data t v set c))) as Hstd.
  { intros. unfold jsonUnmarshal_into. by destruct (jsonUnmarshal _ _ _). }
  destruct data; try done;
    (destruct (implementsUnmarshaler (TPtr t)); [apply Hstd|];
     destruct (allocatePointers t v id) as [[t' v'] set]; simpl;
     destruct (kind t'); try apply Hstd).
  all: try (unfold unmarshalSlice;
            match goal with |- context [rawArray ?j] => destruct (rawArray j) end; [|done];
            case_match; [apply Hstd|];
            match goal with |- context [decodeElems ?a ?b ?c ?e ?f ?g] =>
              pose proof (decodeElems_coherent b c e f g Hc) as Hl;
              destruct (decodeElems a b c e f g) as [[[?|] ?] ?] end; done).
  all: try (unfold unmarshalMap;
            match goal with |- context [rawObject ?j] => destruct (rawObject j) end; [|done];
            case_match; [apply Hstd|];
            match goal with |- context [decodeEntries ?a ?b ?c ?e ?f ?g] =>
              pose proof (decodeEntries_coherent b c e f g Hc) as Hl;
              destruct (decodeEntries a b c e f g) as [[? ?] ?] end; done).
  all: unfold unmarshalStruct;
       match goal with |- context [rawObject ?j] => destruct (rawObject j) end; [|done];
       destruct (getStructFields_coherent c t' Hc) as [Hc' _];
       destruct (getStructFields ro env c t') as [[e0|s0] c0]; [done|];
       case_match; [done|]; by apply decodeFields_coherent.
Qed.
End Loops.

Lemma unmarshalValue_fuel_coherent fuel data t v c :
  coherent ro env c ->
  coherent ro env
    (cache (unmarshalValue_fuel ro env implementsUnmarshaler ToLower jsonUnmarshal d fuel
              data t v c)).
Proof.
  induction fuel as [|fuel IH] in data, t, v, c |- *; intros Hc; [done|].
  simpl. apply unmarshalValue_body_coherent; [|done]. intros. by apply IH.
Qed.

(** The walker keeps the cache coherent. *)
Lemma unmarshalValue_coherent data t v c :
  coherent ro env c ->
  coherent ro env
    (cache (unmarshalValue ro env implementsUnmarshaler ToLower jsonUnmarshal d data t v c)).
Proof. apply unmarshalValue_fuel_coherent. Qed.

Lemma emptyCache_coherent : coherent ro env emptyCache.
Proof. by left. Qed.
End Coherence.

Section Null.
Variable ro : RangeOrder.
Variable env : Decls.
Variable implementsUnmarshaler : type -> bool.
Variable ToLower : string -> string.
Variable jsonUnmarshal : json -> type -> value -> option error * value.
Variable d : Decoder.

Lemma unmarshalValue_null t v c :
  unmarshalValue ro env implementsUnmarshaler ToLower jsonUnmarshal d JNull t v c
  = {| err := None; target := v; cache := c |}.
Proof. done. Qed.

(** A type whose pointer implements [json.Unmarshaler] is handed the raw
    input as it is; neither the key check nor the cache is reached. *)
Lemma custom_decoder_delegated data t v c :
  data <> JNull -> implementsUnmarshaler (TPtr t) = true ->
  unmarshalValue ro env implementsUnmarshaler ToLower jsonUnmarshal d data t v c
  = jsonUnmarshal_into jsonUnmarshal data t v id c.
Proof.
  intros Hdata Himpl. rewrite unmarshalValue_unfold. unfold unmarshalValue_body.
  rewrite Himpl. by destruct data.
Qed.
End Null.

Section ConflictError.
Import FieldMapSpec.
Variable ro : RangeOrder.
Variable env : Decls.
Variable ToLower : string -> string.
Variable d : Decoder.

(** A descriptor with a conflict is refused whether it is built now or was
    cached before, and [unmarshalStruct] returns at once. *)
Lemma conflict_refused rec data raw t v c :
  rawObject data = Some raw ->
  (c t = None \/ c t = Some (buildStructFields ro env t)) ->
  conflict (buildStructFields ro env t) <> ""%string ->
  let r := unmarshalStruct ro env ToLower d rec data t v c in
  err r = Some (fieldConflictError (conflict (buildStructFields ro env t)))
  /\ target r = v.
Proof.
  intros Hraw Hc Hconf. unfold unmarshalStruct, getStructFields. rewrite Hraw.
  destruct Hc as [-> | ->]; by rewrite decide_True.
Qed.

End ConflictError.

Section EvaluatedConflict.
Import Samples FieldMapSpec.

(** C7, as stated, fails.  [Shadowed] embeds [A] and [B], which both declare
    "name", at the same level; it also declares "name" itself, one level
    up, so the embedded declarations are shadowed, no conflict is recorded
    and the decode succeeds. *)
Lemma shadowed_embedded_names_do_not_conflict :
  let r := unmarshalValue keepOrder testDecls noUnmarshaler asciiToLower
             (stdUnmarshal noStructDecoder) (NewDecoder [])
             (JObject [("name"%string, JString "x")]) (TStruct "Shadowed") VZero
             emptyCache in
  err r = None /\ target r = VStruct [VString "x"; VZero; VZero].
Proof. by vm_compute. Qed.
End EvaluatedConflict.

Section EvaluatedCustom.
Import Samples.

(** C3 at a pointer field.  [CustomTime] decodes itself through a method on
    [*CustomTime].  A field of type [CustomTime] is handed to that method
    and takes the string.  For a field of type [*CustomTime] the walker asks
    whether [**CustomTime] implements [json.Unmarshaler] (it tests the
    pointer to the static type of the slot, not the pointer to the type it
    has just resolved), finds that it does not, allocates the pointer and
    decodes the string as a record, which fails. *)
Theorem custom_decoder_behind_pointer_field :
  let decode t :=
    unmarshalValue keepOrder testDecls (pointerReceiver ["CustomTime"%string])
      asciiToLower (stdUnmarshal customTimeDecoder) (NewDecoder [])
      (JObject [("date"%string, JString "2024-01-15")]) (TStruct t) VZero emptyCache in
  (err (decode "ByValue"%string) = None
   /\ target (decode "ByValue"%string) = VStruct [VStruct [VString "2024-01-15"]])
  /\ (err (decode "ByPointer"%string)
      = Some (jsonError "json: cannot unmarshal into Go value of type map[string]json.RawMessage")
     /\ target (decode "ByPointer"%string) = VStruct [VPtr VZero]).
Proof. by vm_compute. Qed.
End EvaluatedCustom.

End WalkerFacts.

(** * Proofs: slots reached by index paths *)

Module SlotFacts.
Import FieldMap Walker WalkerSpec.

Section Slots.
Variable env : Decls.

Lemma getFieldByIndex_cons t v fl set i index :
  getFieldByIndex env t v fl set (i :: index) =
  match openField env t v fl i with
  | (v', None) => (set v', None)
  | (_, Some (t', x, fl', wrap)) =>
    getFieldByIndex env t' x fl' (fun y => set (wrap y)) index
  end.
Proof.
  unfold openField. cbn [getFieldByIndex].
  destruct t; try done.
  - destruct (pointee_of v) as [x|].
    + destruct t; try done. by destruct (structDecl env name !! i).
    + destruct (negb (CanSet fl)); [done|].
      destruct t; try done. by destruct (structDecl env name !! i).
  - by destruct (structDecl env name !! i).
Qed.

Lemma fieldByIndex_cons t v i index :
  fieldByIndex env t v (i :: index) =
  match readField env t v i with
  | Some (t', x) => fieldByIndex env t' x index
  | None => None
  end.
Proof.
  unfold readField. cbn [fieldByIndex].
  destruct t; try done.
  - destruct (pointee_of v) as [x|]; [|done].
    destruct t; try done. by destruct (structDecl env name !! i).
  - by destruct (structDecl env name !! i).
Qed.

(** The continuation [set] only wraps what the walk returns. *)
Lemma getFieldByIndex_set t v fl set index :
  getFieldByIndex env t v fl set index =
  (set (getFieldByIndex env t v fl id index).1,
   outer set <$> (getFieldByIndex env t v fl id index).2).
Proof.
  induction index as [|i index IH] in t, v, fl, set |- *; [done|].
  rewrite !getFieldByIndex_cons.
  destruct (openField env t v fl i) as [v' [[[[t' x] fl'] wrap]|]]; [|done].
  rewrite (IH _ _ _ (fun y => set (wrap y))), (IH _ _ _ (fun y => id (wrap y))).
  simpl. f_equal. by destruct (getFieldByIndex env t' x fl' id index).2.
Qed.

Lemma getFieldByIndex_step t v fl i index :
  getFieldByIndex env t v fl id (i :: index) =
  match openField env t v fl i with
  | (v', None) => (v', None)
  | (_, Some (t', x, fl', wrap)) =>
    (wrap (getFieldByIndex env t' x fl' id index).1,
     outer wrap <$> (getFieldByIndex env t' x fl' id index).2)
  end.
Proof.
  rewrite getFieldByIndex_cons.
  destruct (openField env t v fl i) as [v' [[[[t' x] fl'] wrap]|]]; [|done].
  by rewrite getFieldByIndex_set.
Qed.

Lemma length_fieldValues_of n v : length (fieldValues_of n v) = n.
Proof. destruct v; simpl; by rewrite ?length_replicate, ?length_resize. Qed.

Lemma fieldValues_of_insert n v i y :
  fieldValues_of n (VStruct (<[ i := y ]> (fieldValues_of n v)))
  = <[ i := y ]> (fieldValues_of n v).
Proof.
  simpl. rewrite <- (length_fieldValues_of n v) at 1.
  rewrite <- (length_insert (fieldValues_of n v) i y). apply resize_all.
Qed.

Lemma lookup_insert_default (fs : list value) i j y :
  (i < length fs)%nat ->
  default VZero (<[ i := y ]> fs !! j)
  = if decide (j = i) then y else default VZero (fs !! j).
Proof.
  intros Hi. case_decide as Hj.
  - subst j. by rewrite list_lookup_insert_eq.
  - by rewrite list_lookup_insert_ne.
Qed.

Local Arguments fieldValues_of : simpl never.

(** What entering field [i] does to reads of the enclosing value. *)
Lemma openField_read t v fl i v' t' x fl' wrap :
  openField env t v fl i = (v', Some (t', x, fl', wrap)) ->
  (forall y, readField env t (wrap y) i = Some (t', y))
  /\ (forall y j, j <> i -> readField env t (wrap y) j = readField env t (wrap x) j)
  /\ (forall j tj xj, readField env t v j = Some (tj, xj) ->
                      readField env t (wrap x) j = Some (tj, xj)).
Proof.
  assert (forall n u f, structDecl env n !! i = Some f ->
            let fs := fieldValues_of (length (structDecl env n)) u in
            (forall y, default VZero (fieldValues_of (length (structDecl env n))
                                        (VStruct (<[ i := y ]> fs)) !! i) = y)
            /\ (forall y j, j <> i ->
                   default VZero (fieldValues_of (length (structDecl env n))
                                    (VStruct (<[ i := y ]> fs)) !! j)
                   = default VZero (fs !! j))) as Hfs.
  { intros n u f Hf fs. unfold fs.
    assert (i < length (fieldValues_of (length (structDecl env n)) u))%nat as Hi.
    { rewrite length_fieldValues_of. by eapply lookup_lt_Some. }
    split.
    - intros y. by rewrite fieldValues_of_insert, lookup_insert_default, decide_True.
    - intros y j Hj. by rewrite fieldValues_of_insert, lookup_insert_default, decide_False. }
  unfold openField, readField.
  destruct t as [| | | | |e| | | |n]; try done.
  - destruct (pointee_of v) as [u|] eqn:Hv.
    + destruct e as [| | | | | | | | |n]; try done.
      destruct (structDecl env n !! i) as [f|] eqn:Hf; [|done].
      intros [= <- <- <- <- <-]. destruct (Hfs n u f Hf) as [H1 H2].
      destruct v; try done. simpl in Hv. injection Hv as ->. simpl.
      split; [|split].
      * intros y. by rewrite H1.
      * intros y j Hj. destruct (structDecl env n !! j); [|done]. by rewrite !H2.
      * intros j tj xj. destruct (structDecl env n !! j) as [g|]; [|done].
        intros [= <- <-]. f_equal. f_equal.
        destruct (decide (j = i)) as [->|Hj]; [by rewrite H1|by rewrite H2].
    + destruct (negb (CanSet fl)); [done|].
      destruct e as [| | | | | | | | |n]; try done.
      destruct (structDecl env n !! i) as [f|] eqn:Hf; [|done].
      intros [= <- <- <- <- <-]. destruct (Hfs n VZero f Hf) as [H1 H2].
      simpl. split; [|split].
      * intros y. by rewrite H1.
      * intros y j Hj. destruct (structDecl env n !! j); [|done]. by rewrite !H2.
      * done.
  - destruct (structDecl env n !! i) as [f|] eqn:Hf; [|done].
    intros [= <- <- <- <- <-]. destruct (Hfs n v f Hf) as [H1 H2].
    simpl. split; [|split].
    + intros y. by rewrite H1.
    + intros y j Hj. destruct (structDecl env n !! j); [|done]. by rewrite !H2.
    + intros j tj xj. destruct (structDecl env n !! j) as [g|]; [|done].
      intros [= <- <-]. f_equal. f_equal.
      destruct (decide (j = i)) as [->|Hj]; [by rewrite H1|by rewrite H2].
Qed.

(** A step that does not enter a field keeps every read that succeeded. *)
Lemma openField_none_read t v fl i v' :
  openField env t v fl i = (v', None) ->
  forall j r, readField env t v j = Some r -> readField env t v' j = Some r.
Proof.
  unfold openField, readField.
  destruct t as [| | | | |e| | | |n]; try by intros [= <-].
  - destruct (pointee_of v) as [u|] eqn:Hv.
    + destruct v; try done. simpl in Hv. injection Hv as ->.
      destruct e as [| | | | | | | | |n]; try by intros [= <-].
      destruct (structDecl env n !! i); [done|]. by intros [= <-].
    + done.
  - destruct (structDecl env n !! i); [done|]. by intros [= <-].
Qed.

(** A read that succeeds sees the field that [openField] enters. *)
Lemma readField_open t v fl i t' x :
  readField env t v i = Some (t', x) ->
  exists v' fl' wrap, openField env t v fl i = (v', Some (t', x, fl', wrap)).
Proof.
  unfold openField, readField.
  destruct t as [| | | | |e| | | |n]; try done.
  - destruct (pointee_of v) as [u|] eqn:Hv; [|done].
    destruct e as [| | | | | | | | |n]; try done.
    destruct (structDecl env n !! i) as [f|]; [|done].
    intros [= <- <-]. by eexists _, _, _.
  - destruct (structDecl env n !! i) as [f|]; [|done].
    intros [= <- <-]. by eexists _, _, _.
Qed.
Lemma getFieldByIndex_inv t v fl i index root sl :
  getFieldByIndex env t v fl id (i :: index) = (root, Some sl) ->
  exists v' t' x fl' wrap sl',
    openField env t v fl i = (v', Some (t', x, fl', wrap))
    /\ getFieldByIndex env t' x fl' id index
       = ((getFieldByIndex env t' x fl' id index).1, Some sl')
    /\ root = wrap (getFieldByIndex env t' x fl' id index).1
    /\ sl = outer wrap sl'.
Proof.
  rewrite getFieldByIndex_step.
  destruct (openField env t v fl i) as [v' [[[[t' x] fl'] wrap]|]] eqn:Hopen; [|done].
  destruct (getFieldByIndex env t' x fl' id index) as [root' [sl'|]] eqn:Hrest; [|done].
  simpl. intros [= <- <-]. exists v', t', x, fl', wrap, sl'.
  rewrite Hrest. by repeat split.
Qed.

(** Writing through a slot and reading the path again gives what was
    written. *)
Lemma slot_set_read t v fl index root sl y :
  getFieldByIndex env t v fl id index = (root, Some sl) ->
  fieldByIndex env t (slotSet sl y) index = Some y.
Proof.
  induction index as [|i index IH] in t, v, fl, root, sl |- *.
  - by intros [= <- <-].
  - intros (v' & t' & x & fl' & wrap & sl' & Hopen & Hrest & -> & ->)%getFieldByIndex_inv.
    rewrite fieldByIndex_cons. simpl.
    rewrite (proj1 (openField_read _ _ _ _ _ _ _ _ _ Hopen)). by eapply IH.
Qed.

(** The target returned by the walk is the target with the slot as it is. *)
Lemma slot_set_same t v fl index root sl :
  getFieldByIndex env t v fl id index = (root, Some sl) ->
  slotSet sl (slotValue sl) = root.
Proof.
  induction index as [|i index IH] in t, v, fl, root, sl |- *.
  - by intros [= <- <-].
  - intros (v' & t' & x & fl' & wrap & sl' & Hopen & Hrest & -> & ->)%getFieldByIndex_inv.
    simpl. f_equal. by eapply IH.
Qed.

Lemma slot_read t v fl index root sl :
  getFieldByIndex env t v fl id index = (root, Some sl) ->
  fieldByIndex env t root index = Some (slotValue sl).
Proof.
  intros H. rewrite <- (slot_set_same _ _ _ _ _ _ H). by eapply slot_set_read.
Qed.

(** Writing through a slot changes no read along a path that parts from the
    path of the slot. *)
Lemma slot_set_frame t v fl p q root sl y :
  diverge p q ->
  getFieldByIndex env t v fl id p = (root, Some sl) ->
  fieldByIndex env t (slotSet sl y) q = fieldByIndex env t root q.
Proof.
  intros (c & i & j & r & r' & Hij & -> & ->).
  induction c as [|k c IH] in t, v, fl, root, sl |- *; cbn [app].
  - intros (v' & t' & x & fl' & wrap & sl' & Hopen & Hrest & -> & ->)%getFieldByIndex_inv.
    rewrite !fieldByIndex_cons. simpl.
    destruct (openField_read _ _ _ _ _ _ _ _ _ Hopen) as (_ & H2 & _).
    rewrite (H2 (slotSet sl' y) j), (H2 (getFieldByIndex env t' x fl' id r).1 j); done.
  - intros (v' & t' & x & fl' & wrap & sl' & Hopen & Hrest & -> & ->)%getFieldByIndex_inv.
    rewrite !fieldByIndex_cons. simpl.
    rewrite !(proj1 (openField_read _ _ _ _ _ _ _ _ _ Hopen)). by eapply IH.
Qed.

(** The walk to a slot (which may allocate pointers on its way) keeps every
    successful read along a path that parts from its own. *)
Lemma walk_keeps_read t v fl p q z :
  diverge p q ->
  fieldByIndex env t v q = Some z ->
  fieldByIndex env t (getFieldByIndex env t v fl id p).1 q = Some z.
Proof.
  intros (c & i & j & r & r' & Hij & -> & ->).
  induction c as [|k c IH] in t, v, fl |- *; cbn [app].
  - rewrite getFieldByIndex_step, !fieldByIndex_cons.
    destruct (readField env t v j) as [[tj xj]|] eqn:Hread; [|done]. intros Hz.
    destruct (openField env t v fl i) as [v' [[[[t' x] fl'] wrap]|]] eqn:Hopen; simpl.
    + destruct (openField_read _ _ _ _ _ _ _ _ _ Hopen) as (_ & H2 & H3).
      by rewrite (H2 _ j), (H3 _ _ _ Hread).
    + by rewrite (openField_none_read _ _ _ _ _ Hopen _ _ Hread).
  - rewrite getFieldByIndex_step, !fieldByIndex_cons.
    destruct (readField env t v k) as [[tk xk]|] eqn:Hread; [|done]. intros Hz.
    destruct (readField_open _ _ fl _ _ _ Hread) as (v' & fl' & wrap & Hopen).
    rewrite Hopen. simpl.
    rewrite (proj1 (openField_read _ _ _ _ _ _ _ _ _ Hopen)). by apply IH.
Qed.

(** Walking [p ++ q] is walking [p] and then [q] from the slot reached. *)
Lemma getFieldByIndex_app t v fl p q :
  getFieldByIndex env t v fl id (p ++ q) =
  match getFieldByIndex env t v fl id p with
  | (root, None) => (root, None)
  | (_, Some sl) =>
    (slotSet sl (getFieldByIndex env (slotType sl) (slotValue sl) (slotFlags sl) id q).1,
     outer (slotSet sl)
       <$> (getFieldByIndex env (slotType sl) (slotValue sl) (slotFlags sl) id q).2)
  end.
Proof.
  induction p as [|i p IH] in t, v, fl |- *.
  - simpl. destruct (getFieldByIndex env t v fl id q) as [root [[ty x f st]|]]; done.
  - cbn [app]. rewrite !getFieldByIndex_step.
    destruct (openField env t v fl i) as [v' [[[[t' x] fl'] wrap]|]]; [|done].
    rewrite IH.
    destruct (getFieldByIndex env t' x fl' id p) as [root [sl|]]; [|done]. simpl.
    by destruct (getFieldByIndex env (slotType sl) (slotValue sl) (slotFlags sl) id q).2.
Qed.

Lemma typeByIndex_cons t i index :
  typeByIndex env t (i :: index) =
  match t with
  | TPtr (TStruct n) | TStruct n =>
    match structDecl env n !! i with
    | Some f => typeByIndex env (Typ f) index
    | None => None
    end
  | _ => None
  end.
Proof. by destruct t. Qed.

(** The type of a slot does not depend on what the target holds. *)
Lemma getFieldByIndex_type t v fl index root sl :
  getFieldByIndex env t v fl id index = (root, Some sl) ->
  typeByIndex env t index = Some (slotType sl).
Proof.
  induction index as [|i index IH] in t, v, fl, root, sl |- *.
  - by intros [= <- <-].
  - intros (v' & t' & x & fl' & wrap & sl' & Hopen & Hrest & -> & ->)%getFieldByIndex_inv.
    rewrite typeByIndex_cons. simpl. apply IH in Hrest.
    unfold openField in Hopen.
    destruct t as [| | | | |e| | | |n]; try done.
    + destruct (pointee_of v); [|destruct (negb (CanSet fl)); [done|]];
        (destruct e as [| | | | | | | | |n]; try done;
         destruct (structDecl env n !! i); [|done]; by injection Hopen as <- <- <- <-).
    + destruct (structDecl env n !! i); [|done]. by injection Hopen as <- <- <- <-.
Qed.

(** Reads in a zero value. *)
Lemma unwritten_zero t index : unwritten env t VZero index.
Proof.
  unfold unwritten. induction index as [|i index IH] in t |- *; [by right|].
  rewrite fieldByIndex_cons. unfold readField.
  destruct t as [| | | | |e| | | |n]; try by left.
  destruct (structDecl env n !! i) as [f|] eqn:Hf; [|by left].
  { replace (default VZero (fieldValues_of (length (structDecl env n)) VZero !! i))
      with VZero; [apply IH|].
    unfold fieldValues_of. apply lookup_lt_Some in Hf.
    by rewrite lookup_replicate_2. }
Qed.

Lemma openField_unread t v fl i v' t' x fl' wrap :
  openField env t v fl i = (v', Some (t', x, fl', wrap)) ->
  readField env t v i = None -> x = VZero.
Proof.
  unfold openField, readField.
  destruct t as [| | | | |e| | | |n]; try done.
  - destruct (pointee_of v) as [u|].
    + destruct e as [| | | | | | | | |n]; try done.
      by destruct (structDecl env n !! i).
    + destruct (negb (CanSet fl)); [done|].
      destruct e as [| | | | | | | | |n]; try done.
      destruct (structDecl env n !! i) as [f|] eqn:Hf; [|done].
      intros [= <- <- <- <- <-] _. unfold fieldValues_of.
      apply lookup_lt_Some in Hf. by rewrite lookup_replicate_2.
  - by destruct (structDecl env n !! i).
Qed.

(** The slot found at a path where nothing has been written is zero. *)
Lemma unwritten_slot_zero t v fl index root sl :
  unwritten env t v index ->
  getFieldByIndex env t v fl id index = (root, Some sl) ->
  slotValue sl = VZero.
Proof.
  induction index as [|i index IH] in t, v, fl, root, sl |- *.
  - intros [H|H]; [done|]. injection H as ->. by intros [= <- <-].
  - intros Hun (v' & t' & x & fl' & wrap & sl' & Hopen & Hrest & -> & ->)%getFieldByIndex_inv.
    simpl. eapply IH; [|exact Hrest].
    unfold unwritten in Hun. rewrite fieldByIndex_cons in Hun.
    destruct (readField env t v i) as [[ti xi]|] eqn:Hread.
    + destruct (readField_open _ _ fl _ _ _ Hread) as (? & ? & ? & Hopen').
      rewrite Hopen in Hopen'. by injection Hopen' as _ <- <- _ _.
    + rewrite (openField_unread _ _ _ _ _ _ _ _ _ Hopen Hread). apply unwritten_zero.
Qed.

Lemma zero_field n j : default VZero (fieldValues_of n VZero !! j) = VZero.
Proof.
  unfold fieldValues_of. destruct (decide (j < n)%nat).
  - by rewrite lookup_replicate_2.
  - by rewrite lookup_ge_None_2 by (rewrite length_replicate; lia).
Qed.

(** A field that could not be read before a step and can be read after it
    lies in a struct that the step has allocated. *)
Lemma openField_fresh_read t v fl i v' o j tj xj :
  openField env t v fl i = (v', o) ->
  readField env t v j = None ->
  readField env t (match o with Some (_, x, _, wrap) => wrap x | None => v' end) j
    = Some (tj, xj) ->
  xj = VZero.
Proof.
  unfold openField, readField.
  destruct t as [| | | | |e| | | |n].
  all: try (intros [= <- <-]; simpl; congruence).
  - destruct (pointee_of v) as [u|] eqn:Hu.
    + destruct e as [| | | | | | | | |n].
      all: try (intros [= <- <-]; simpl; congruence).
      destruct (structDecl env n !! i) as [f|]; intros [= <- <-]; simpl.
      * destruct (structDecl env n !! j); congruence.
      * destruct (structDecl env n !! j); congruence.
    + destruct (negb (CanSet fl)); [intros [= <- <-]; rewrite Hu; congruence|].
      destruct e as [| | | | | | | | |n].
      all: try (intros [= <- <-]; simpl; congruence).
      destruct (structDecl env n !! i) as [f|] eqn:Hf; intros [= <- <-] _; simpl.
      * destruct (structDecl env n !! j) as [g|] eqn:Hg; [|done]. intros [= <- <-].
        rewrite fieldValues_of_insert.
        destruct (decide (j = i)) as [->|Hne].
        -- apply lookup_lt_Some in Hf.
           rewrite list_lookup_insert_eq by (by rewrite length_fieldValues_of).
           apply zero_field.
        -- rewrite list_lookup_insert_ne by done. apply zero_field.
      * destruct (structDecl env n !! j) as [g|] eqn:Hg; [|done]. intros [= <- <-].
        apply zero_field.
  - destruct (structDecl env n !! i) as [f|]; intros [= <- <-]; simpl.
    + destruct (structDecl env n !! j); congruence.
    + destruct (structDecl env n !! j); congruence.
Qed.

(** The walk along one path leaves a parting path unwritten. *)
Lemma walk_keeps_unwritten t v fl p q :
  diverge p q -> unwritten env t v q ->
  unwritten env t (getFieldByIndex env t v fl id p).1 q.
Proof.
  intros (c & i & j & r & r' & Hij & -> & ->).
  induction c as [|k c IH] in t, v, fl |- *; cbn [app].
  - unfold unwritten. rewrite getFieldByIndex_step, !fieldByIndex_cons.
    destruct (openField env t v fl i) as [v' [[[[t' x] fl'] wrap]|]] eqn:Hopen; simpl.
    + destruct (openField_read _ _ _ _ _ _ _ _ _ Hopen) as (_ & H2 & H3).
      rewrite (H2 _ j) by done.
      destruct (readField env t v j) as [[tj xj]|] eqn:Hread.
      * by rewrite (H3 _ _ _ Hread).
      * intros _. destruct (readField env t (wrap x) j) as [[tj xj]|] eqn:Hread'; [|by left].
        rewrite (openField_fresh_read _ _ _ _ _ _ _ _ _ Hopen Hread Hread').
        apply unwritten_zero.
    + destruct (readField env t v j) as [[tj xj]|] eqn:Hread.
      * by rewrite (openField_none_read _ _ _ _ _ Hopen _ _ Hread).
      * intros _. destruct (readField env t v' j) as [[tj xj]|] eqn:Hread'; [|by left].
        rewrite (openField_fresh_read _ _ _ _ _ _ _ _ _ Hopen Hread Hread').
        apply unwritten_zero.
  - unfold unwritten. rewrite getFieldByIndex_step, !fieldByIndex_cons.
    destruct (openField env t v fl k) as [v' [[[[t' x] fl'] wrap]|]] eqn:Hopen; simpl.
    + rewrite (proj1 (openField_read _ _ _ _ _ _ _ _ _ Hopen)).
      destruct (readField env t v k) as [[tk xk]|] eqn:Hread.
      * destruct (readField_open _ _ fl _ _ _ Hread) as (? & ? & ? & Hopen').
        rewrite Hopen in Hopen'. injection Hopen' as _ <- <- _ _. apply IH.
      * intros _. rewrite (openField_unread _ _ _ _ _ _ _ _ _ Hopen Hread).
        apply IH, unwritten_zero.
    + destruct (readField env t v k) as [[tk xk]|] eqn:Hread.
      * by rewrite (openField_none_read _ _ _ _ _ Hopen _ _ Hread).
      * intros _. destruct (readField env t v' k) as [[tk xk]|] eqn:Hread'; [|by left].
        rewrite (openField_fresh_read _ _ _ _ _ _ _ _ _ Hopen Hread Hread').
        apply unwritten_zero.
Qed.

(** ** Paths of a descriptor reach their slots *)

Lemma enter_field ty n i f x :
  struct_like ty -> derefType ty = TStruct n ->
  structDecl env n !! i = Some f -> IsExported f = true ->
  exists v' y wrap,
    openField env ty x settable i = (v', Some (Typ f, y, settable, wrap)).
Proof.
  intros [m [-> | ->]] [= ->] Hf Hexp; unfold openField.
  - rewrite Hf, Hexp. by eexists _, _, _.
  - destruct (pointee_of x); simpl; rewrite Hf, Hexp; by eexists _, _, _.
Qed.

Lemma structDecl_elem n i f :
  structDecl env n !! i = Some f -> exists decl, env !! n = Some decl /\ f ∈ decl.
Proof.
  unfold structDecl. destruct (env !! n) as [decl|]; simpl; [|done].
  intros Hf. exists decl. split; [done|]. by eapply list_elem_of_lookup_2.
Qed.

Lemma anon_path_reaches t0 q ty v :
  embeds_ok env -> struct_like t0 ->
  FieldMapSpec.anon_path env t0 q ty ->
  struct_like ty
  /\ exists root sl, getFieldByIndex env t0 v settable id q = (root, Some sl)
                     /\ slotType sl = ty /\ slotFlags sl = settable.
Proof.
  intros Hemb Ht0. induction 1 as [|p ty0 n i g Hp IH Hn Hg Hanon].
  - split; [done|]. by eexists _, _.
  - destruct IH as (Hlike & root & sl & Hwalk & <- & Hfl).
    destruct (structDecl_elem _ _ _ Hg) as (decl & Hdecl & Hin).
    destruct (Hemb n decl g Hdecl Hin Hanon) as [Hexp Hty].
    split; [done|].
    destruct (enter_field _ n i g (slotValue sl) Hlike Hn Hg Hexp) as (v' & y & wrap & Hopen).
    rewrite getFieldByIndex_app, Hwalk, Hfl, getFieldByIndex_step, Hopen. simpl.
    by eexists _, _.
Qed.

(** From a struct (or a pointer to one) whose embedded fields are exported,
    the path of every key leads to a slot that can be set, of the type of
    the field that declares the key. *)
Lemma field_path_reaches t0 name p f v :
  embeds_ok env -> struct_like t0 ->
  FieldMapSpec.field_path env t0 name p f ->
  exists root sl, getFieldByIndex env t0 v settable id p = (root, Some sl)
                  /\ slotType sl = Typ f /\ CanSet (slotFlags sl) = true.
Proof.
  intros Hemb Ht0 (q & ty & n & i & -> & Hq & Hn & Hf & (_ & Hexp & _)).
  destruct (anon_path_reaches t0 q ty v Hemb Ht0 Hq) as (Hlike & root & sl & Hwalk & <- & Hfl).
  destruct (enter_field _ n i f (slotValue sl) Hlike Hn Hf Hexp) as (v' & y & wrap & Hopen).
  rewrite getFieldByIndex_app, Hwalk, Hfl, getFieldByIndex_step, Hopen. simpl.
  by eexists _, _.
Qed.
End Slots.

End SlotFacts.

(** * Proofs: the loop over the members of a record *)

Module DecodeFacts.
Import FieldMap FieldMapSpec Walker WalkerSpec.

Section Fields.
Variable ro : RangeOrder.
Variable env : Decls.
Variable rec : json -> type -> value -> Cache -> outcome.
Variable raw : gmap string json.
Variable t : type.

Local Abbreviation s := (buildStructFields ro env t).
Local Abbreviation loop := (decodeFields env rec s raw t).

(** The loop over a list of keys is the loop over its first part followed,
    unless that failed, by the loop over the rest. *)
Lemma decodeFields_app pre rest v c :
  loop (pre ++ rest) v c =
  match err (loop pre v c) with
  | Some _ => loop pre v c
  | None => loop rest (target (loop pre v c)) (cache (loop pre v c))
  end.
Proof.
  induction pre as [|k pre IH] in v, c |- *; simpl; [done|].
  destruct (fields s !! k) as [fi|]; [|apply IH].
  destruct (raw !! k) as [x|]; [|apply IH].
  destruct (getFieldByIndex env t v settable id (fieldIndex fi)) as [root [sl|]]; [|apply IH].
  destruct (negb (CanSet (slotFlags sl))); [apply IH|].
  destruct (err (rec x (slotType sl) (slotValue sl) c)); [done|apply IH].
Qed.

(** A value read at the path of a key [k0] stays where it is while the
    loop works on other keys, whether the loop ends with an error or not. *)
Lemma decodeFields_keeps_read keys k0 fi0 z v c :
  fields s !! k0 = Some fi0 -> k0 ∉ keys ->
  fieldByIndex env t v (fieldIndex fi0) = Some z ->
  fieldByIndex env t (target (loop keys v c)) (fieldIndex fi0) = Some z.
Proof.
  intros Hk0. induction keys as [|k keys IH] in v, c |- *; intros Hnotin Hz; simpl; [done|].
  apply not_elem_of_cons in Hnotin as [Hne Hnotin].
  destruct (fields s !! k) as [fi|] eqn:Hk; [|by apply IH].
  destruct (raw !! k) as [x|]; [|by apply IH].
  assert (diverge (fieldIndex fi) (fieldIndex fi0)) as Hdiv.
  { by eapply (FieldMapFacts.buildStructFields_diverge env ro t k k0). }
  pose proof (SlotFacts.walk_keeps_read env t v settable _ _ z Hdiv Hz) as Hroot.
  destruct (getFieldByIndex env t v settable id (fieldIndex fi)) as [root [sl|]] eqn:Hwalk;
    [|by apply IH].
  simpl in Hroot.
  destruct (negb (CanSet (slotFlags sl))); [by apply IH|].
  assert (fieldByIndex env t (slotSet sl (target (rec x (slotType sl) (slotValue sl) c)))
            (fieldIndex fi0) = Some z) as Hset.
  { by rewrite (SlotFacts.slot_set_frame env t v settable _ _ root sl _ Hdiv Hwalk). }
  destruct (err (rec x (slotType sl) (slotValue sl) c)); [done|by apply IH].
Qed.

(** The loop fails only with the error of one of its recursive calls. *)
Lemma decodeFields_error keys v c e :
  err (loop keys v c) = Some e ->
  exists k x ty v' c', k ∈ keys /\ raw !! k = Some x /\ err (rec x ty v' c') = Some e.
Proof.
  induction keys as [|k keys IH] in v, c |- *; simpl; [done|].
  assert (forall v c, err (loop keys v c) = Some e ->
            exists k0 x ty v' c', k0 ∈ k :: keys /\ raw !! k0 = Some x
                                  /\ err (rec x ty v' c') = Some e) as IH'.
  { intros v1 c1 (k0 & x & ty & v' & c' & Hin & Hx & He)%IH.
    exists k0, x, ty, v', c'. split; [by right|done]. }
  destruct (fields s !! k) as [fi|]; [|apply IH'].
  destruct (raw !! k) as [x|] eqn:Hx; [|apply IH'].
  destruct (getFieldByIndex env t v settable id (fieldIndex fi)) as [root [sl|]]; [|apply IH'].
  destruct (negb (CanSet (slotFlags sl))); [apply IH'|].
  destruct (err (rec x (slotType sl) (slotValue sl) c)) as [e'|] eqn:He; [|apply IH'].
  simpl. intros [= <-]. exists k, x, (slotType sl), (slotValue sl), c.
  split; [by left|done].
Qed.

(** C9.  Let the loop of [unmarshalStruct] over the members work through
    the keys [pre ++ k0 :: rest].  If the members under [pre] were decoded
    without error and the recursive decode of the member under [k0] returned
    without error, leaving [target r0] in the field of [k0], then the target
    that the loop returns holds [target r0] in that field, whatever happens
    to the keys after [k0].  An error that the loop returns is the error of
    the recursive decode of a key after [k0], returned as it is; the field
    of [k0] holds [target r0] then too: nothing that an earlier successful
    call wrote is rolled back. *)
Theorem earlier_writes_survive_failure
    (pre rest : list string) (k0 : string) (fi0 : fieldInfo) (x0 : json)
    (v root0 : value) (c : Cache) (sl0 : slot) :
  NoDup (pre ++ k0 :: rest) ->
  err (loop pre v c) = None ->
  fields s !! k0 = Some fi0 ->
  raw !! k0 = Some x0 ->
  getFieldByIndex env t (target (loop pre v c)) settable id (fieldIndex fi0)
    = (root0, Some sl0) ->
  CanSet (slotFlags sl0) = true ->
  let r0 := rec x0 (slotType sl0) (slotValue sl0) (cache (loop pre v c)) in
  err r0 = None ->
  let o := loop (pre ++ k0 :: rest) v c in
  fieldByIndex env t (target o) (fieldIndex fi0) = Some (target r0)
  /\ (forall e, err o = Some e ->
        exists k x ty v' c',
          k ∈ rest /\ raw !! k = Some x /\ err (rec x ty v' c') = Some e).
Proof.
  intros Hnodup Hpre Hk0 Hx0 Hwalk Hcan r0 Hr0 o.
  assert (fieldByIndex env t (target o) (fieldIndex fi0) = Some (target r0)) as Hread.
  { unfold o. rewrite decodeFields_app, Hpre. cbn [decodeFields].
    rewrite Hk0, Hx0, Hwalk, Hcan. simpl. fold r0. rewrite Hr0.
    apply (decodeFields_keeps_read rest k0); [done| |].
    - apply NoDup_app in Hnodup as (_ & _ & Hnd). by apply NoDup_cons in Hnd as [? _].
    - by eapply SlotFacts.slot_set_read. }
  split; [done|]. intros e He.
  unfold o in He. rewrite decodeFields_app, Hpre in He. cbn [decodeFields] in He.
  rewrite Hk0, Hx0, Hwalk, Hcan in He. simpl in He. fold r0 in He. rewrite Hr0 in He.
  by apply decodeFields_error in He.
Qed.

End Fields.

Section Exact.
Variable ro : RangeOrder.
Variable env : Decls.
Variable implementsUnmarshaler : type -> bool.
Variable ToLower : string -> string.
Variable jsonUnmarshal : json -> type -> value -> option error * value.
Variable d : Decoder.

Local Abbreviation walk :=
  (unmarshalValue ro env implementsUnmarshaler ToLower jsonUnmarshal d).

(** With keys that all resolve, the key check rejects nothing. *)
Lemma unmarshalStruct_known_keys rec data raw t v c :
  coherent ro env c ->
  conflict (buildStructFields ro env t) = ""%string ->
  rawObject data = Some raw ->
  dom raw ⊆ dom (fields (buildStructFields ro env t)) ->
  unmarshalStruct ro env ToLower d rec data t v c
  = decodeFields env rec (buildStructFields ro env t) raw t (ro (elements (dom raw))) v
      (getStructFields ro env c t).2.
Proof.
  intros Hc Hconf Hraw Hdom. unfold unmarshalStruct. rewrite Hraw.
  destruct (WalkerFacts.getStructFields_coherent ro env c t Hc) as [_ Hsf].
  rewrite decide_False in Hsf by (intros Hne; by apply Hne).
  destruct (getStructFields ro env c t) as [[e|s'] c']; simpl in *; [done|].
  injection Hsf as ->.
  rewrite DiagnosticsFacts.find_none; [by destruct (DisallowUnknownFields d)|].
  intros k Hk. apply bool_decide_eq_false.
  rewrite (order_perm ro), elem_of_elements in Hk. apply Hdom, elem_of_dom in Hk.
  by destruct Hk as [? ->].
Qed.

Lemma unmarshalValue_struct members R v c :
  implementsUnmarshaler (TPtr (TStruct R)) = false ->
  walk (JObject members) (TStruct R) v c
  = unmarshalStruct ro env ToLower d walk (JObject members) (TStruct R) v c.
Proof.
  intros Himpl. rewrite WalkerFacts.unmarshalValue_unfold at 1.
  unfold unmarshalValue_body. rewrite Himpl. simpl.
  by destruct (unmarshalStruct _ _ _ _ _ _ _ _ _).
Qed.

(** A value that is not [null], for a slot of a plain type without custom
    decoder, goes to the fast standard path as it is. *)
Lemma unmarshalValue_plain x ty v c :
  x <> JNull -> implementsUnmarshaler (TPtr ty) = false -> plain ty ->
  walk x ty v c = jsonUnmarshal_into jsonUnmarshal x ty v id c.
Proof.
  intros Hx Himpl Hplain. rewrite WalkerFacts.unmarshalValue_unfold.
  unfold unmarshalValue_body. rewrite Himpl.
  destruct x; try done; destruct ty; try done; simpl;
    by destruct (jsonUnmarshal_into _ _ _ _ _ _).
Qed.

(** A member that is [null]: the loop goes on with the target as the walk to
    the field left it (a nil embedded pointer on the way has been
    allocated); the field itself keeps what it held. *)
Lemma decodeFields_null_member s raw t k fi keys v c root sl :
  fields s !! k = Some fi -> raw !! k = Some JNull ->
  getFieldByIndex env t v settable id (fieldIndex fi) = (root, Some sl) ->
  decodeFields env walk s raw t (k :: keys) v c
  = decodeFields env walk s raw t keys root c.
Proof.
  intros Hfi Hraw Hwalk. cbn [decodeFields]. rewrite Hfi, Hraw, Hwalk.
  destruct (negb (CanSet (slotFlags sl))); [done|].
  rewrite WalkerFacts.unmarshalValue_null.
  simpl. by rewrite (SlotFacts.slot_set_same env _ _ _ _ _ _ Hwalk).
Qed.
End Exact.

Lemma embeds_ok_list_to_map (l : list (string * list StructField)) :
  Forall (fun d => Forall (fun f => Anonymous f = true ->
                     IsExported f = true /\
                     exists n, Typ f = TStruct n \/ Typ f = TPtr (TStruct n)) d.2) l ->
  embeds_ok (list_to_map l).
Proof.
  intros Hl T decl f HT Hf. apply elem_of_list_to_map_2 in HT.
  rewrite Forall_forall in Hl. specialize (Hl _ HT). simpl in Hl.
  rewrite Forall_forall in Hl. by apply Hl.
Qed.

Lemma testDecls_embeds_ok : embeds_ok Samples.testDecls.
Proof.
  apply embeds_ok_list_to_map.
  repeat (constructor;
          [repeat (constructor; [first [discriminate|intros _; split; [done|];
                                        eexists; by left]|]); constructor|]).
  constructor.
Qed.

Section EvaluatedFields.
Import Samples.

(** [{"age": 30, "name": 5}] into a [Person], "age" first: 30 is written to
    [Age], then the decode of "name" fails, and [Age] still holds 30. *)
Lemma earlier_writes_survive_failure_witness :
  let rec := unmarshalValue_fuel keepOrder testDecls noUnmarshaler asciiToLower
               (stdUnmarshal noStructDecoder) (NewDecoder []) 1 in
  let raw : gmap string json :=
    {[ "age"%string := JNumber "30"; "name"%string := JNumber "5" ]} in
  let o := decodeFields testDecls rec
             (buildStructFields keepOrder testDecls (TStruct "Person")) raw
             (TStruct "Person") ["age"; "name"]%string VZero emptyCache in
  err o = Some (jsonError "json: cannot unmarshal value into Go value")
  /\ fieldByIndex testDecls (TStruct "Person") (target o) [1%nat] = Some (VInt 30).
Proof.
  intros rec raw o. split; [reflexivity|].
  pose (sl0 := {| slotType := TInt; slotValue := VZero; slotFlags := settable;
                  slotSet := fun x => VStruct (<[ 1%nat := x ]> [VZero; VZero]) |}).
  refine (proj1 (earlier_writes_survive_failure keepOrder testDecls rec raw
                   (TStruct "Person") [] ["name"%string] "age"
                   {| jsonName := "age"; fieldIndex := [1%nat] |} (JNumber "30")
                   VZero (VStruct [VZero; VZero]) emptyCache sl0 _ _ _ _ _ _ _)).
  - apply NoDup_cons. split; [|apply NoDup_singleton].
    intros Hin. apply list_elem_of_singleton in Hin. discriminate.
  - reflexivity.
  - reflexivity.
  - reflexivity.
  - reflexivity.
  - reflexivity.
  - reflexivity.
Defined.

(** C1, as stated, fails.  The only key of the object is "person", the one
    resolved external name of [Wrapper], and [Wrapper] has no name conflict;
    the member is a [Person] object whose key "Name" is mis-cased, and the
    decode fails.  So does the decode of [{"name": 5, "age": 30}] into a
    [Person], whose keys are exact at every level: the fast standard path
    does not take a number for a string. *)
Lemma exact_keys_do_not_ensure_success :
  let s := buildStructFields keepOrder testDecls (TStruct "Wrapper") in
  let members := [("person"%string, JObject [("Name"%string, JString "John")])] in
  let o := unmarshalValue keepOrder testDecls noUnmarshaler asciiToLower
             (stdUnmarshal noStructDecoder) (NewDecoder [])
             (JObject members) (TStruct "Wrapper") VZero emptyCache in
  conflict s = ""%string
  /\ elements (dom (fields s)) = members.*1
  /\ err o = Some (unknownFieldError "Name" "")
  /\ err (unmarshalValue keepOrder testDecls noUnmarshaler asciiToLower
            (stdUnmarshal noStructDecoder) (NewDecoder [])
            (JObject [("name"%string, JNumber "5"); ("age"%string, JNumber "30")])
            (TStruct "Person") VZero emptyCache)
     = Some (jsonError "json: cannot unmarshal value into Go value").
Proof. by vm_compute. Qed.
End EvaluatedFields.

End DecodeFacts.

(** * Proofs: a mis-cased key at any depth *)

Module NestingFacts.
Import FieldMap FieldMapSpec Walker WalkerSpec.

Lemma allocatePointers_type t v set :
  (allocatePointers t v set).1.1 = derefType t.
Proof. induction t in v, set |- *; simpl; done. Qed.

(** ** The members of an object, as [rawObject] keeps them *)

Local Abbreviation collect := (foldl (fun (m : gmap string json) kv => <[ kv.1 := kv.2 ]> m)).

Lemma collect_insert (post : list (string * json)) (m : gmap string json) kf x :
  kf ∉ post.*1 -> collect (<[ kf := x ]> m) post = <[ kf := x ]> (collect m post).
Proof.
  induction post as [|[k y] post IH] in m |- *; simpl; [done|].
  intros [Hne Hpost]%not_elem_of_cons.
  rewrite insert_insert_ne by done. by apply IH.
Qed.

Lemma collect_member (pre post : list (string * json)) kf x :
  kf ∉ post.*1 ->
  collect ∅ (pre ++ (kf, x) :: post) = <[ kf := x ]> (collect ∅ (pre ++ post)).
Proof. intros Hkf. rewrite !foldl_app. simpl. by apply collect_insert. Qed.

Lemma dom_collect (members : list (string * json)) (m : gmap string json) :
  dom (collect m members) = dom m ∪ list_to_set members.*1.
Proof.
  induction members as [|[k y] members IH] in m |- *; simpl.
  - set_solver.
  - rewrite IH, dom_insert_L. set_solver.
Qed.

Lemma find_first_unknown (P : string -> bool) (keys : list string) k' :
  k' ∈ keys -> P k' = true -> (forall k, k ∈ keys -> P k = true -> k = k') ->
  find P keys = Some k'.
Proof.
  intros Hin Hk' Honly. destruct (find P keys) as [k|] eqn:Hfind.
  - apply find_some in Hfind as [Hk HP]. f_equal. apply Honly; [|done].
    by apply list_elem_of_In.
  - exfalso. apply list_elem_of_In in Hin.
    pose proof (find_none _ _ Hfind _ Hin). congruence.
Qed.

Section Pairs.
Variable ro : RangeOrder.
Variable env : Decls.
Variable implementsUnmarshaler : type -> bool.
Variable ToLower : string -> string.
Variable d : Decoder.
Variable rec : json -> type -> value -> Cache -> outcome.
Variable k' : string.
Variables xg xb : json.
Variable tf : type.

Hypothesis Hcoh : forall x t v c, coherent ro env c -> coherent ro env (cache (rec x t v c)).
Hypothesis Hbad : forall v c, coherent ro env c -> err (rec xg tf v c) = None ->
  exists sugg, err (rec xb tf v c) = Some (unknownFieldError k' sugg).

(** The record whose keys are checked: the respelled key is reported. *)
Lemma unmarshalStruct_miscased R pre post k x v c :
  DisallowUnknownFields d = true ->
  coherent ro env c ->
  conflict (buildStructFields ro env (TStruct R)) = ""%string ->
  (forall key, key ∈ (pre ++ (k, x) :: post).*1 ->
               is_Some (fields (buildStructFields ro env (TStruct R)) !! key)) ->
  fields (buildStructFields ro env (TStruct R)) !! k' = None ->
  exists sugg,
    err (unmarshalStruct ro env ToLower d rec (JObject (pre ++ (k', x) :: post))
           (TStruct R) v c)
    = Some (unknownFieldError k' sugg).
Proof.
  clear Hcoh Hbad xg xb tf.
  intros Hd Hc Hconf Hkeys Hk'. unfold unmarshalStruct. simpl rawObject. cbv iota.
  destruct (WalkerFacts.getStructFields_coherent ro env c (TStruct R) Hc) as [_ Hsf].
  rewrite decide_False in Hsf by (intros Hne; by apply Hne).
  destruct (getStructFields ro env c (TStruct R)) as [[e|s'] c']; simpl in Hsf; [done|].
  injection Hsf as ->. rewrite Hd.
  rewrite (find_first_unknown _ _ k'); [by eexists| | |].
  - rewrite (order_perm ro), elem_of_elements, dom_collect, fmap_app. simpl. set_solver.
  - by apply bool_decide_eq_true.
  - intros key Hkey Hnone. apply bool_decide_eq_true in Hnone.
    rewrite (order_perm ro), elem_of_elements, dom_collect, fmap_app in Hkey.
    simpl in Hkey.
    destruct (decide (key = k')) as [->|Hne]; [done|]. exfalso.
    destruct (Hkeys key) as [fi Hfi]; [|congruence].
    rewrite fmap_app. simpl. set_solver.
Qed.

(** The loop over the fields, run on two objects that differ in the member
    under [kf]: the runs agree up to that member, where the second fails. *)
Lemma decodeFields_pair t (m0 : gmap string json) kf fi keys v c :
  embeds_ok env -> struct_like t -> coherent ro env c ->
  fields (buildStructFields ro env t) !! kf = Some fi ->
  typeByIndex env t (fieldIndex fi) = Some tf ->
  kf ∈ keys ->
  err (decodeFields env rec (buildStructFields ro env t) (<[ kf := xg ]> m0) t keys v c)
    = None ->
  exists sugg,
    err (decodeFields env rec (buildStructFields ro env t) (<[ kf := xb ]> m0) t keys v c)
    = Some (unknownFieldError k' sugg).
Proof.
  intros Hemb Hlike Hc Hfi Htf.
  induction keys as [|k keys IH] in v, c, Hc |- *; intros Hin Hgood.
  { by apply elem_of_nil in Hin. }
  cbn [decodeFields] in Hgood |- *.
  destruct (decide (k = kf)) as [->|Hne].
  - rewrite Hfi, lookup_insert_eq in Hgood |- *.
    destruct (FieldMapFacts.buildStructFields_paths env ro t kf fi Hfi) as [_ [f Hpath]].
    destruct (SlotFacts.field_path_reaches env t kf _ f v Hemb Hlike Hpath)
      as (root & sl & Hwalk & _ & Hcan).
    pose proof (SlotFacts.getFieldByIndex_type env _ _ _ _ _ _ Hwalk) as Htype.
    assert (slotType sl = tf) as Hsl by congruence.
    rewrite Hwalk, Hcan, Hsl in Hgood |- *. simpl in Hgood |- *.
    destruct (err (rec xg tf (slotValue sl) c)) eqn:Hg; [done|].
    destruct (Hbad (slotValue sl) c Hc Hg) as [sugg Hb]. rewrite Hb. by exists sugg.
  - rewrite !lookup_insert_ne in Hgood |- * by done.
    apply elem_of_cons in Hin as [->|Hin]; [done|].
    destruct (fields (buildStructFields ro env t) !! k) as [fik|]; [|by apply IH].
    destruct (m0 !! k) as [x|]; [|by apply IH].
    destruct (getFieldByIndex env t v settable id (fieldIndex fik)) as [root [sl|]];
      [|by apply IH].
    destruct (negb (CanSet (slotFlags sl))); [by apply IH|].
    destruct (err (rec x (slotType sl) (slotValue sl) c)) eqn:Hx; [done|].
    apply IH; [by apply Hcoh|done|done].
Qed.

(** The loop over the elements of a slice, likewise. *)
Lemma decodeElems_pair pre post i newSlice c :
  coherent ro env c ->
  (decodeElems rec tf (pre ++ xg :: post) i newSlice c).1.1 = None ->
  exists sugg,
    (decodeElems rec tf (pre ++ xb :: post) i newSlice c).1.1
    = Some (unknownFieldError k' sugg).
Proof.
  induction pre as [|x pre IH] in i, newSlice, c |- *; intros Hc Hgood;
    cbn [app decodeElems] in Hgood |- *.
  - destruct (err (rec xg tf (default VZero (newSlice !! i)) c)) eqn:Hg; [done|].
    destruct (Hbad _ c Hc Hg) as [sugg Hb]. rewrite Hb. by exists sugg.
  - destruct (err (rec x tf (default VZero (newSlice !! i)) c)) eqn:Hx; [done|].
    apply IH; [by apply Hcoh|done].
Qed.

(** The loop over the entries of a map, likewise. *)
Lemma decodeEntries_pair (m0 : gmap string json) km keys entries c :
  coherent ro env c -> km ∈ keys ->
  (decodeEntries rec tf (<[ km := xg ]> m0) keys entries c).1.1 = None ->
  exists sugg,
    (decodeEntries rec tf (<[ km := xb ]> m0) keys entries c).1.1
    = Some (unknownFieldError k' sugg).
Proof.
  induction keys as [|k keys IH] in entries, c |- *; intros Hc Hin Hgood.
  { by apply elem_of_nil in Hin. }
  cbn [decodeEntries] in Hgood |- *.
  destruct (decide (k = km)) as [->|Hne].
  - rewrite lookup_insert_eq in Hgood |- *.
    destruct (err (rec xg tf VZero c)) eqn:Hg; [done|].
    destruct (Hbad _ c Hc Hg) as [sugg Hb]. rewrite Hb. by exists sugg.
  - rewrite !lookup_insert_ne in Hgood |- * by done.
    apply elem_of_cons in Hin as [->|Hin]; [done|].
    destruct (m0 !! k) as [x|]; [|by apply IH].
    destruct (err (rec x tf VZero c)) eqn:Hx; [done|].
    apply IH; [by apply Hcoh|done|done].
Qed.
End Pairs.

Section Nesting.
Variable ro : RangeOrder.
Variable env : Decls.
Variable implementsUnmarshaler : type -> bool.
Variable ToLower : string -> string.
Variable jsonUnmarshal : json -> type -> value -> option error * value.
Variable d : Decoder.

Local Abbreviation walk :=
  (unmarshalValue ro env implementsUnmarshaler ToLower jsonUnmarshal d).

Lemma walk_object members t v c :
  implementsUnmarshaler (TPtr t) = false ->
  err (walk (JObject members) t v c)
  = err (match kind (derefType t) with
         | Struct => unmarshalStruct ro env ToLower d walk (JObject members)
                       (derefType t) (allocatePointers t v id).1.2 c
         | Slice => unmarshalSlice implementsUnmarshaler jsonUnmarshal walk
                      (JObject members) (derefType t) (allocatePointers t v id).1.2 c
         | Map => unmarshalMap ro implementsUnmarshaler jsonUnmarshal walk
                    (JObject members) (derefType t) (allocatePointers t v id).1.2 c
         | _ => jsonUnmarshal_into jsonUnmarshal (JObject members) (derefType t)
                  (allocatePointers t v id).1.2 id c
         end).
Proof.
  intros Himpl. rewrite WalkerFacts.unmarshalValue_unfold at 1.
  unfold unmarshalValue_body. rewrite Himpl.
  rewrite <- (allocatePointers_type t v id).
  by destruct (allocatePointers t v id) as [[t' v'] set].
Qed.

Lemma walk_array elems t v c :
  implementsUnmarshaler (TPtr t) = false ->
  err (walk (JArray elems) t v c)
  = err (match kind (derefType t) with
         | Struct => unmarshalStruct ro env ToLower d walk (JArray elems)
                       (derefType t) (allocatePointers t v id).1.2 c
         | Slice => unmarshalSlice implementsUnmarshaler jsonUnmarshal walk
                      (JArray elems) (derefType t) (allocatePointers t v id).1.2 c
         | Map => unmarshalMap ro implementsUnmarshaler jsonUnmarshal walk
                    (JArray elems) (derefType t) (allocatePointers t v id).1.2 c
         | _ => jsonUnmarshal_into jsonUnmarshal (JArray elems) (derefType t)
                  (allocatePointers t v id).1.2 id c
         end).
Proof.
  intros Himpl. rewrite WalkerFacts.unmarshalValue_unfold at 1.
  unfold unmarshalValue_body. rewrite Himpl.
  rewrite <- (allocatePointers_type t v id).
  by destruct (allocatePointers t v id) as [[t' v'] set].
Qed.

(** C2, as the code has it.  Let [bad] be a document that decodes without
    error ([good]) in which one key of one object has been respelled (its
    letter case changed) to a key [k'] that the record at that place does
    not resolve, the object standing where the walker validates keys: the
    document itself, a field of a record, an element of a slice of records,
    an entry of a map of records, nested to any depth (see [miscased]; the
    embedded records of the types are exported).  With unknown fields
    rejected, decoding [bad] fails with the unknown-or-mis-cased-field error
    naming [k']. *)
Theorem miscased_key_rejected (k' : string) (t : type) (good bad : json) :
  embeds_ok env ->
  DisallowUnknownFields d = true ->
  miscased ro env implementsUnmarshaler k' t good bad ->
  forall v c,
    coherent ro env c ->
    err (walk good t v c) = None ->
    exists suggestion, err (walk bad t v c) = Some (unknownFieldError k' suggestion).
Proof.
  intros Hemb Hd Hmis.
  induction Hmis as
    [t R pre post k x Himpl Ht Hconf Hkeys Hk'
    |t R pre post kf xg xb fi tf Himpl Ht Hconf Hkeys Hkf Hfi Htf Hmis IH
    |t e pre post xg xb Himpl Ht Hcs Hmis IH
    |t e pre post km xg xb Himpl Ht Hcs Hkm Hmis IH];
    intros v c Hc Hgood.
  - rewrite walk_object, Ht by done. simpl.
    by apply (unmarshalStruct_miscased ro env ToLower d walk k' R pre post k x).
  - rewrite walk_object, Ht in Hgood |- * by done. simpl in Hgood |- *.
    set (s := buildStructFields ro env (TStruct R)) in *.
    set (m0 := collect ∅ (pre ++ post)).
    assert (forall x, rawObject (JObject (pre ++ (kf, x) :: post)) = Some (<[ kf := x ]> m0))
      as Hraw.
    { intros x. simpl. by rewrite collect_member. }
    assert (forall x, dom (<[ kf := x ]> m0) ⊆ dom (fields s)) as Hdom.
    { intros x key Hkey. apply elem_of_dom. apply Hkeys.
      rewrite dom_insert_L in Hkey. unfold m0 in Hkey.
      rewrite dom_collect, !fmap_app in Hkey. rewrite fmap_app. simpl. set_solver. }
    rewrite (DecodeFacts.unmarshalStruct_known_keys ro env ToLower d walk _
               (<[ kf := xg ]> m0)) in Hgood by done.
    rewrite (DecodeFacts.unmarshalStruct_known_keys ro env ToLower d walk _
               (<[ kf := xb ]> m0)) by done.
    rewrite !dom_insert_L in Hgood |- *.
    eapply (decodeFields_pair ro env walk k' xg xb tf); try done.
    + intros. by apply WalkerFacts.unmarshalValue_coherent.
    + by exists R; left.
    + by apply WalkerFacts.getStructFields_coherent.
    + rewrite (order_perm ro), elem_of_elements. set_solver.
  - rewrite walk_array, Ht in Hgood |- * by done. simpl in Hgood |- *.
    unfold unmarshalSlice in Hgood |- *. simpl rawArray in Hgood |- *. cbv iota in Hgood |- *.
    rewrite Hcs in Hgood |- *. simpl negb in Hgood |- *. cbv iota in Hgood |- *.
    replace (length (pre ++ xb :: post)) with (length (pre ++ xg :: post))
      by (by rewrite !length_app).
    destruct (decodeElems_pair ro env walk k' xg xb e
                (fun x t v c => WalkerFacts.unmarshalValue_coherent ro env
                   implementsUnmarshaler ToLower jsonUnmarshal d x t v c)
                IH pre post 0 (replicate (length (pre ++ xg :: post)) VZero) c Hc)
      as [sugg Hb].
    + by destruct (decodeElems walk e (pre ++ xg :: post) 0 _ c) as [[[?|] ?] ?].
    + exists sugg.
      destruct (decodeElems walk e (pre ++ xb :: post) 0 _ c) as [[[?|] ?] ?];
        simpl in Hb; [by rewrite Hb|done].
  - rewrite walk_object, Ht in Hgood |- * by done. simpl in Hgood |- *.
    unfold unmarshalMap in Hgood |- *. simpl rawObject in Hgood |- *. cbv iota in Hgood |- *.
    rewrite Hcs in Hgood |- *. simpl negb in Hgood |- *. cbv iota in Hgood |- *.
    rewrite !collect_member in Hgood |- * by done.
    rewrite !dom_insert_L in Hgood |- *.
    set (m0 := collect ∅ (pre ++ post)) in *.
    set (entries := match (allocatePointers t v id).1.2 with
                    | VMap entries => entries | _ => [] end) in *.
    set (keys := ro (elements ({[ km ]} ∪ dom m0))) in *.
    destruct (decodeEntries_pair ro env walk k' xg xb e
                (fun x t v c => WalkerFacts.unmarshalValue_coherent ro env
                   implementsUnmarshaler ToLower jsonUnmarshal d x t v c)
                IH m0 km keys entries c Hc) as [sugg Hb].
    + unfold keys. rewrite (order_perm ro), elem_of_elements. set_solver.
    + by destruct (decodeEntries walk e (<[ km := xg ]> m0) keys entries c) as [[? ?] ?].
    + exists sugg.
      by destruct (decodeEntries walk e (<[ km := xb ]> m0) keys entries c) as [[? ?] ?].
Qed.
End Nesting.

Section EvaluatedNesting.
Import Samples.

Lemma miscased_key_rejected_witness :
  exists suggestion,
    err (unmarshalValue keepOrder testDecls noUnmarshaler asciiToLower
           (stdUnmarshal noStructDecoder) (NewDecoder [])
           (JObject [("person"%string,
                      JObject [("Name"%string, JString "John");
                               ("age"%string, JNumber "30")])])
           (TStruct "Wrapper") VZero emptyCache)
    = Some (unknownFieldError "Name" suggestion).
Proof.
  refine (miscased_key_rejected keepOrder testDecls noUnmarshaler asciiToLower
            (stdUnmarshal noStructDecoder) (NewDecoder []) "Name" (TStruct "Wrapper")
            (JObject [("person"%string,
                       JObject [("name"%string, JString "John");
                                ("age"%string, JNumber "30")])])
            _ DecodeFacts.testDecls_embeds_ok eq_refl _ VZero emptyCache
            (WalkerFacts.emptyCache_coherent keepOrder testDecls) _).
  - refine (miscased_field keepOrder testDecls noUnmarshaler "Name" (TStruct "Wrapper")
              "Wrapper" [] [] "person" _ _ {| jsonName := "person"; fieldIndex := [0%nat] |}
              (TStruct "Person") eq_refl eq_refl _ _ _ _ eq_refl _).
    + vm_compute. reflexivity.
    + intros key Hkey. apply list_elem_of_In in Hkey. destruct Hkey as [<-|[]].
      vm_compute. eexists. reflexivity.
    + intros Hin. apply list_elem_of_In in Hin. destruct Hin.
    + vm_compute. reflexivity.
    + refine (miscased_here keepOrder testDecls noUnmarshaler "Name" (TStruct "Person")
                "Person" [] [("age"%string, JNumber "30")] "name" (JString "John")
                eq_refl eq_refl _ _ _).
      * vm_compute. reflexivity.
      * intros key Hkey. apply list_elem_of_In in Hkey.
        destruct Hkey as [<-|[<-|[]]]; vm_compute; eexists; reflexivity.
      * vm_compute. reflexivity.
  - vm_compute. reflexivity.
Defined.

(** Eight levels down a [Node], through pointers, slices and maps in turn,
    the key "Id" for "id" is reported. *)
Example miscased_at_depth_8 :
  let decode data :=
    err (unmarshalValue keepOrder testDecls noUnmarshaler asciiToLower
           (stdUnmarshal noStructDecoder) (NewDecoder []) data (TStruct "Node") VZero
           emptyCache) in
  decode (nested 8 (JObject [("id"%string, JString "leaf")])) = None
  /\ decode (nested 8 (JObject [("Id"%string, JString "leaf")]))
     = Some (unknownFieldError "Id" "").
Proof. by vm_compute. Qed.

(** C2, as stated, fails.  [TwoCase] resolves the two keys "a" and "A".
    In [{"a": 1, "A": 2}] the case of the key "a" is changed: the object
    [{"A": 1, "A": 2}] has no unknown key, and it decodes without error. *)
Lemma case_change_onto_known_key_accepted :
  let s := buildStructFields keepOrder testDecls (TStruct "TwoCase") in
  let o := unmarshalValue keepOrder testDecls noUnmarshaler asciiToLower
             (stdUnmarshal noStructDecoder) (NewDecoder [])
             (JObject [("A"%string, JNumber "1"); ("A"%string, JNumber "2")])
             (TStruct "TwoCase") VZero emptyCache in
  conflict s = ""%string
  /\ fieldIndex <$> fields s !! "a"%string = Some [0%nat]
  /\ fieldIndex <$> fields s !! "A"%string = Some [1%nat]
  /\ DisallowUnknownFields (NewDecoder []) = true
  /\ err o = None.
Proof. by vm_compute. Qed.
End EvaluatedNesting.

End NestingFacts.

(** * More on the diagnostics *)

Module DistanceFacts.
Import EditDistance EditDistanceFacts Diagnostics.

Lemma subst_cost_sym x y : subst_cost x y = subst_cost y x.
Proof. unfold subst_cost. repeat case_decide; congruence. Qed.

Lemma subst_cost_triangle x y z :
  (subst_cost x z <= subst_cost x y + subst_cost y z)%nat.
Proof. unfold subst_cost. repeat case_decide; try lia. congruence. Qed.

(** An edit script read backwards: insertions for deletions. *)
Lemma edit_sym a b n : edit a b n -> edit b a n.
Proof.
  induction 1; try by constructor.
  rewrite subst_cost_sym. by constructor.
Qed.

Lemma lev_sym a b : lev a b = lev b a.
Proof. apply Nat.le_antisymm; apply lev_le, edit_sym, lev_edit. Qed.

Lemma edit_zero a b n : edit a b n -> n = 0%nat -> a = b.
Proof.
  induction 1 as [|x a b n _ IH|y a b n _ IH|x y a b n _ IH]; try done.
  unfold subst_cost. case_decide as Hxy; [|lia]. intros Hn. by rewrite Hxy, IH.
Qed.

Lemma edit_refl a : edit a a 0.
Proof.
  induction a as [|x a IH]; [constructor|].
  replace 0%nat with (subst_cost x x + 0)%nat.
  - by constructor.
  - unfold subst_cost. by rewrite decide_True.
Qed.

Lemma lev_zero a b : lev a b = 0%nat <-> a = b.
Proof.
  split.
  - intros H. eapply edit_zero; [apply lev_edit|done].
  - intros ->. pose proof (lev_le _ _ _ (edit_refl b)). lia.
Qed.

(** Two edit scripts, one after the other. *)
Lemma edit_trans a b c n m :
  edit a b n -> edit b c m -> exists k, (k <= n + m)%nat /\ edit a c k.
Proof.
  intros Hab. revert c m.
  induction Hab as [|x a b n Hab IH|y a b n Hab IH|x y a b n Hab IH]; intros c m Hbc.
  - by exists m.
  - destruct (IH c m Hbc) as (k & Hk & Hac).
    exists (S k). split; [lia|by constructor].
  - remember (y :: b) as yb eqn:Hyb.
    induction Hbc as [|y' b' c m Hbc _|z b' c m Hbc IHbc|y' z b' c m Hbc _].
    + done.
    + injection Hyb as -> ->. destruct (IH c m Hbc) as (k & Hk & Hac).
      exists k. split; [lia|done].
    + destruct (IHbc Hyb) as (k & Hk & Hac).
      exists (S k). split; [lia|by constructor].
    + injection Hyb as -> ->. destruct (IH c m Hbc) as (k & Hk & Hac).
      exists (S k). split; [lia|by constructor].
  - remember (y :: b) as yb eqn:Hyb.
    induction Hbc as [|y' b' c m Hbc _|z b' c m Hbc IHbc|y' z b' c m Hbc _].
    + done.
    + injection Hyb as -> ->. destruct (IH c m Hbc) as (k & Hk & Hac).
      exists (S k). split; [lia|by constructor].
    + destruct (IHbc Hyb) as (k & Hk & Hac).
      exists (S k). split; [lia|by constructor].
    + injection Hyb as -> ->. destruct (IH c m Hbc) as (k & Hk & Hac).
      exists (subst_cost x z + k)%nat. split; [|by constructor].
      pose proof (subst_cost_triangle x y z). lia.
Qed.

Lemma lev_triangle a b c : (lev a c <= lev a b + lev b c)%nat.
Proof.
  destruct (edit_trans a b c _ _ (lev_edit a b) (lev_edit b c)) as (k & Hk & Hac).
  apply lev_le in Hac. lia.
Qed.

Lemma edit_lengths a b n :
  edit a b n -> (length a <= length b + n)%nat /\ (length b <= length a + n)%nat.
Proof. induction 1; simpl; lia. Qed.

Lemma edit_longest a b :
  exists n, (n <= Nat.max (length a) (length b))%nat /\ edit a b n.
Proof.
  induction a as [|x a IH] in b |- *.
  - exists (length b). split; [simpl; lia|]. induction b; simpl; by constructor.
  - destruct b as [|y b].
    + exists (length (x :: a)). split; [simpl; lia|].
      clear IH. generalize (x :: a). intros l. induction l; simpl; by constructor.
    + destruct (IH b) as (n & Hn & Hab).
      exists (subst_cost x y + n)%nat. split; [|by constructor].
      unfold subst_cost. simpl. case_decide; lia.
Qed.

Lemma bytes_inj s1 s2 : bytes s1 = bytes s2 -> s1 = s2.
Proof.
  unfold bytes. intros H.
  by rewrite <- (string_of_list_ascii_of_string s1), H, string_of_list_ascii_of_string.
Qed.

(** X1.  [levenshteinDistance s1 s2] is the least number of single-byte
    insertions, deletions and substitutions that turn [s1] into [s2]: some
    edit script has that many steps, and none has fewer. *)
Theorem levenshteinDistance_least_edits (s1 s2 : string) :
  (exists n, levenshteinDistance s1 s2 = Z.of_nat n /\ edit (bytes s1) (bytes s2) n)
  /\ (forall n, edit (bytes s1) (bytes s2) n -> levenshteinDistance s1 s2 <= Z.of_nat n).
Proof.
  rewrite LevenshteinTable.levenshteinDistance_lev. split.
  - exists (lev (bytes s1) (bytes s2)). split; [done|apply lev_edit].
  - intros n Hn. apply lev_le in Hn. lia.
Qed.

Lemma levenshteinDistance_least_edits_witness :
  levenshteinDistance "kitten" "sitting" <= 3.
Proof.
  apply (proj2 (levenshteinDistance_least_edits "kitten" "sitting") 3%nat).
  apply (edit_subst "k" "s" _ _ 2), (edit_subst "i" "i" _ _ 2),
    (edit_subst "t" "t" _ _ 2), (edit_subst "t" "t" _ _ 2),
    (edit_subst "e" "i" _ _ 1), (edit_subst "n" "n" _ _ 1),
    (edit_insert "g" _ _ 0), edit_nil.
Defined.

(** X2.  [levenshteinDistance] is a metric on Go strings: it is zero exactly
    on equal strings, it is symmetric, and it obeys the triangle
    inequality. *)
Theorem levenshteinDistance_metric (s1 s2 s3 : string) :
  (levenshteinDistance s1 s2 = 0 <-> s1 = s2)
  /\ levenshteinDistance s1 s2 = levenshteinDistance s2 s1
  /\ levenshteinDistance s1 s3 <= levenshteinDistance s1 s2 + levenshteinDistance s2 s3.
Proof.
  rewrite !LevenshteinTable.levenshteinDistance_lev. split; [|split].
  - split.
    + intros H. apply bytes_inj, lev_zero. lia.
    + intros ->. by rewrite (proj2 (lev_zero _ _) eq_refl).
  - by rewrite lev_sym.
  - pose proof (lev_triangle (bytes s1) (bytes s2) (bytes s3)). lia.
Qed.

(** X3.  The distance is at least the difference of the two lengths and at
    most the greater of them; in particular the distance from or to the
    empty string is the length of the other string. *)
Theorem levenshteinDistance_bounds (s1 s2 : string) :
  Z.abs (len s1 - len s2) <= levenshteinDistance s1 s2
  /\ levenshteinDistance s1 s2 <= Z.max (len s1) (len s2)
  /\ levenshteinDistance EmptyString s2 = len s2
  /\ levenshteinDistance s1 EmptyString = len s1.
Proof.
  rewrite !LevenshteinTable.levenshteinDistance_lev. unfold len.
  pose proof (edit_lengths _ _ _ (lev_edit (bytes s1) (bytes s2))) as [H1 H2].
  destruct (edit_longest (bytes s1) (bytes s2)) as (n & Hn & Hedit).
  apply lev_le in Hedit.
  split; [lia|]. split; [lia|]. split; [done|].
  simpl. by rewrite lev_nil_r.
Qed.

(** X4.  [findSuggestion] never invents a name: what it returns is empty or
    one of the known names, and that name equals the unknown key ignoring
    case or lies within distance 2 of it.  When no known name is empty, it
    returns the empty string exactly when no known name matches in either
    way. *)
Theorem findSuggestion_sound_complete (ToLower : string -> string) (unknown : string)
    (knownNames : list string) :
  let r := findSuggestion ToLower unknown knownNames in
  let matches name :=
    ToLower name = ToLower unknown \/ levenshteinDistance unknown name <= 2 in
  (r = ""%string \/ (r ∈ knownNames /\ matches r))
  /\ ((forall name, name ∈ knownNames -> name <> ""%string) ->
      (r = ""%string <-> forall name, name ∈ knownNames -> ~ matches name)).
Proof.
  intros r matches. unfold r, findSuggestion.
  destruct (find _ knownNames) as [n1|] eqn:H1.
  { apply find_some in H1 as [Hin Hn1]. apply list_elem_of_In in Hin.
    apply bool_decide_eq_true in Hn1. split.
    - right. split; [done|by left].
    - intros Hne. split.
      + intros ->. by destruct (Hne _ Hin).
      + intros Hnone. destruct (Hnone n1 Hin). by left. }
  destruct (find (fun name => levenshteinDistance unknown name <=? 2) knownNames)
    as [n2|] eqn:H2.
  { apply find_some in H2 as [Hin Hn2]. apply list_elem_of_In in Hin.
    apply Z.leb_le in Hn2. split.
    - right. split; [done|by right].
    - intros Hne. split.
      + intros ->. by destruct (Hne _ Hin).
      + intros Hnone. destruct (Hnone n2 Hin). by right. }
  split; [by left|]. intros _. split; [|done]. intros _ name Hin [Hcase|Hclose].
  - apply list_elem_of_In in Hin. pose proof (find_none _ _ H1 _ Hin) as Hf.
    apply bool_decide_eq_false in Hf. done.
  - apply list_elem_of_In in Hin. pose proof (find_none _ _ H2 _ Hin) as Hf.
    apply Z.leb_gt in Hf. lia.
Qed.

Lemma findSuggestion_sound_complete_witness :
  findSuggestion Samples.asciiToLower "zzzzzz" ["name"; "age"]%string = ""%string
  <-> forall name, name ∈ ["name"; "age"]%string ->
        ~ (Samples.asciiToLower name = Samples.asciiToLower "zzzzzz"
           \/ levenshteinDistance "zzzzzz" name <= 2).
Proof.
  apply (proj2 (findSuggestion_sound_complete Samples.asciiToLower "zzzzzz"
                  ["name"; "age"]%string)).
  intros name Hin. apply list_elem_of_In in Hin.
  destruct Hin as [<-|[<-|[]]]; discriminate.
Defined.

End DistanceFacts.

Module TagFacts.
Import FieldMap FieldMapSpec.

(** X5.  [parseTag] cuts a tag at its first comma: the name holds no comma;
    a tag without comma is its own name, with no options; a tag with a comma
    is the name, the comma and the options put together again. *)
Theorem parseTag_cuts_at_first_comma (tag : string) :
  (comma ∉ bytes (parseTag tag).1)
  /\ (((comma ∉ bytes tag) /\ parseTag tag = (tag, EmptyString))
      \/ (comma ∈ bytes tag
          /\ tag = ((parseTag tag).1 ++ String comma (parseTag tag).2)%string)).
Proof.
  induction tag as [|c tag [IH1 IH2]]; simpl.
  - split; [apply not_elem_of_nil|]. left. split; [apply not_elem_of_nil|done].
  - destruct (Ascii.eqb_spec c ",") as [->|Hc]; simpl.
    + split; [apply not_elem_of_nil|]. right. split; [by left|done].
    + destruct (parseTag tag) as [name opts] eqn:Hp. simpl in *.
      split.
      * unfold bytes in *. simpl. apply not_elem_of_cons. split; [|done].
        intros Heq. by apply Hc.
      * destruct IH2 as [[Hno [= -> ->]]|[Hyes Htag]].
        -- left. split; [|done]. unfold bytes in *. simpl.
           apply not_elem_of_cons. split; [|done]. intros Heq. by apply Hc.
        -- right. split; [unfold bytes in *; simpl; by right|]. by rewrite Htag at 1.
Qed.

End TagFacts.

(** * More on the decoder options and the errors *)

Module OptionFacts.

(** X6.  The options of [NewDecoder] are applied from left to right on the
    defaults (unknown fields rejected, no suggestion): the last option given
    for a switch decides it, and an option leaves the other switch alone, so
    options for different switches can be given in either order. *)
Theorem NewDecoder_options_compose (opts : list DecoderOption) (a b : bool) (d : Decoder) :
  NewDecoder (opts ++ [WithDisallowUnknownFields a])
  = {| DisallowUnknownFields := a; SuggestClosest := SuggestClosest (NewDecoder opts) |}
  /\ NewDecoder (opts ++ [WithSuggestClosest b])
     = {| DisallowUnknownFields := DisallowUnknownFields (NewDecoder opts);
          SuggestClosest := b |}
  /\ NewDecoder (opts ++ [WithDisallowUnknownFields a; WithSuggestClosest b])
     = NewDecoder (opts ++ [WithSuggestClosest b; WithDisallowUnknownFields a])
  /\ WithDisallowUnknownFields a (WithDisallowUnknownFields b d)
     = WithDisallowUnknownFields a d
  /\ WithSuggestClosest a (WithSuggestClosest b d) = WithSuggestClosest a d
  /\ NewDecoder [] = {| DisallowUnknownFields := true; SuggestClosest := false |}.
Proof.
  unfold NewDecoder. rewrite !foldl_app. simpl. repeat split.
Qed.

End OptionFacts.

Module ErrorFacts.

Lemma bytes_append s1 s2 : bytes (s1 ++ s2) = bytes s1 ++ bytes s2.
Proof. unfold bytes. induction s1 as [|c s1 IH]; simpl; [done|]. by rewrite IH. Qed.

(** A key between a fixed opening and a fixed closing text. *)
Lemma framed_inj (before opening after k1 k2 : string) :
  (before ++ opening ++ k1 ++ after)%string = (before ++ opening ++ k2 ++ after)%string ->
  k1 = k2.
Proof.
  intros H. apply DistanceFacts.bytes_inj. apply (f_equal bytes) in H.
  rewrite !bytes_append in H. do 2 apply app_inv_head in H. by apply app_inv_tail in H.
Qed.

(** X7.  The messages of the three error kinds never coincide, nor do the
    two phrasings of the unknown-field error (with and without suggestion);
    and the message of a field-conflict error, or of an unknown-field error
    without suggestion, determines the key it names. *)
Theorem Error_messages_tell_kinds_apart (k k' s s' : string) :
  Error (newUnknownFieldError k s) <> Error (newFieldConflictError k')
  /\ Error (newUnknownFieldError k s) <> Error newNonPointerError
  /\ Error (newFieldConflictError k) <> Error newNonPointerError
  /\ (s <> ""%string -> Error (newUnknownFieldError k s) <> Error (newUnknownFieldError k' ""))
  /\ (Error (newFieldConflictError k) = Error (newFieldConflictError k') -> k = k')
  /\ (Error (newUnknownFieldError k "") = Error (newUnknownFieldError k' "") -> k = k').
Proof.
  unfold newUnknownFieldError, newFieldConflictError, newNonPointerError, Error.
  repeat split.
  - case_decide; simpl; discriminate.
  - case_decide; simpl; discriminate.
  - simpl. discriminate.
  - intros Hs. rewrite decide_True by done. rewrite decide_False by (intros H; by apply H).
    simpl. discriminate.
  - intros H.
    exact (framed_inj _ _ _ _ _ H).
  - rewrite !decide_False by (intros H; by apply H). intros H.
    exact (framed_inj _ _ _ _ _ H).
Qed.

Lemma Error_messages_tell_kinds_apart_witness :
  Error (newUnknownFieldError "Name" "name") <> Error (newUnknownFieldError "Name" "").
Proof.
  apply (proj1 (proj2 (proj2 (proj2
           (Error_messages_tell_kinds_apart "Name" "Name" "name" ""))))).
  discriminate.
Defined.

End ErrorFacts.

(** * More on the field map builder *)

Module BuilderFacts.
Import FieldMap FieldMapSpec FieldMapFacts.

Section Builder.
Variable env : Decls.

Lemma scanLevels_more_fuel fuel fuel' ro s visited cur r :
  (fuel <= fuel')%nat -> scanLevels fuel ro env s visited cur = Some r ->
  scanLevels fuel' ro env s visited cur = Some r.
Proof.
  revert fuel' s visited cur.
  induction fuel as [|fuel IH]; intros fuel' s visited cur Hle H.
  - destruct cur; [|done]. by destruct fuel'.
  - destruct cur as [|sc cur]; [by destruct fuel'|].
    destruct fuel' as [|fuel']; [lia|].
    rewrite scanLevels_step in H |- * by done. cbv zeta in H |- *.
    apply IH; [lia|done].
Qed.

(** Folding the body of the field loop keeps what each turn keeps. *)
Lemma scanFields_preserve (P : builder -> Prop) scan (decl : list StructField) b :
  (forall b i f, decl !! i = Some f -> P b -> P (scanField scan b i f)) ->
  P b ->
  P (foldl (fun b '(i, f) => scanField scan b i f) b (imap pair decl)).
Proof.
  intros Hstep.
  assert (Hl : forall i f, (i, f) ∈ imap pair decl -> decl !! i = Some f).
  { intros i f Hin. apply elem_of_lookup_imap in Hin as (j & g & Heq & Hg).
    by simplify_eq. }
  revert b Hl. generalize (imap pair decl) as l.
  induction l as [|[i f] l IH]; intros b Hl Hb; [done|].
  simpl. apply IH.
  - intros j g Hin. apply Hl. by right.
  - apply Hstep; [|done]. apply Hl. by left.
Qed.

Lemma scanField_keeps scan b i f n fi :
  Name f <> ""%string ->
  conflict (sf b) <> ""%string \/ fields (sf b) !! n = Some fi ->
  conflict (sf (scanField scan b i f)) <> ""%string
  \/ fields (sf (scanField scan b i f)) !! n = Some fi.
Proof.
  intros Hname [Hc|Hf].
  { left. by apply scanField_conflict_sticky. }
  pose proof (externalName_nonempty f Hname) as Hext. unfold externalName in Hext.
  unfold scanField.
  destruct (Anonymous f); [by right|].
  destruct (negb (IsExported f)); [by right|].
  destruct (decide (Tag f = "-"%string)); [by right|].
  cbv zeta. repeat case_decide; simpl; auto.
  all: right; rewrite lookup_insert_ne; [done|].
  all: intros Heq; match goal with H : ~ is_Some _ |- _ => apply H end.
  all: by rewrite Heq, Hf.
Qed.

Lemma scanField_resolves scan b i f n :
  Name f <> ""%string -> declares f n ->
  conflict (sf (scanField scan b i f)) <> ""%string
  \/ is_Some (fields (sf (scanField scan b i f)) !! n).
Proof.
  intros Hname (Ha & He & Ht & Hn).
  pose proof (externalName_nonempty f Hname) as Hext. rewrite Hn in Hext.
  unfold externalName in Hn.
  unfold scanField. rewrite Ha, He. simpl.
  rewrite decide_False by done. cbv zeta. rewrite Hn.
  repeat case_decide; simpl; auto.
  all: right; by rewrite lookup_insert_eq.
Qed.

Lemma scanField_keeps_resolved scan b i f n :
  Name f <> ""%string ->
  conflict (sf b) <> ""%string \/ is_Some (fields (sf b) !! n) ->
  conflict (sf (scanField scan b i f)) <> ""%string
  \/ is_Some (fields (sf (scanField scan b i f)) !! n).
Proof.
  intros Hname [Hc|[fi Hf]].
  - left. by apply scanField_conflict_sticky.
  - destruct (scanField_keeps scan b i f n fi Hname (or_intror Hf)) as [H|H]; [by left|].
    right. by rewrite H.
Qed.

Lemma scanType_keeps b scan n fi :
  named env ->
  conflict (sf b) <> ""%string \/ fields (sf b) !! n = Some fi ->
  conflict (sf (scanType env b scan)) <> ""%string
  \/ fields (sf (scanType env b scan)) !! n = Some fi.
Proof.
  intros Hnamed H. unfold scanType.
  destruct (derefType (typ scan)); try done.
  case_decide; [done|].
  apply (scanFields_preserve
           (fun b => conflict (sf b) <> ""%string \/ fields (sf b) !! n = Some fi));
    [|done].
  intros b0 i f Hf. apply scanField_keeps.
  eapply structDecl_named; [done|]. by eapply list_elem_of_lookup_2.
Qed.

Lemma scanTypes_keeps b scans n fi :
  named env ->
  conflict (sf b) <> ""%string \/ fields (sf b) !! n = Some fi ->
  conflict (sf (foldl (scanType env) b scans)) <> ""%string
  \/ fields (sf (foldl (scanType env) b scans)) !! n = Some fi.
Proof.
  intros Hnamed. revert b. induction scans as [|sc scans IH]; intros b H; [done|].
  simpl. apply IH. by apply scanType_keeps.
Qed.

Lemma scanType_fresh_ok seen b scan :
  named env -> fresh_ok env seen b -> fresh_ok env seen (scanType env b scan).
Proof.
  intros Hnamed Hb. unfold scanType.
  destruct (derefType (typ scan)) as [| | | | | | | | |s] eqn:Hd; try done.
  case_decide as Hv; [done|].
  set (b1 := Build_builder _ _ _ _).
  set (b2 := foldl _ b1 _).
  assert (Hvis : visitedTypes b2 = {[ s ]} ∪ visitedTypes b).
  { unfold b2. by rewrite scanFields_visited. }
  assert (Hnames : forall i f, structDecl env s !! i = Some f -> Name f <> ""%string).
  { intros i f Hf. eapply structDecl_named; [done|]. by eapply list_elem_of_lookup_2. }
  intros Y HY Hseen. rewrite Hvis in HY.
  destruct (decide (Y = s)) as [->|Hne].
  - split.
    + intros i g Hg Ha. eexists. split.
      * unfold b2. by apply scanFields_queue.
      * done.
    + intros f n Hf Hdecl. apply list_elem_of_lookup_1 in Hf as [j Hj].
      unfold b2.
      apply (scanFields_establish (fun _ => True)
               (fun b => conflict (sf b) <> ""%string \/ is_Some (fields (sf b) !! n))
               scan (structDecl env s) j f b1 Hj); auto.
      * intros b0 i f0 Hf0 _. apply scanField_keeps_resolved. by eapply Hnames.
      * intros b0 _. apply scanField_resolves; [by eapply Hnames|done].
  - assert (HYb : Y ∈ visitedTypes b) by set_solver.
    destruct (Hb Y HYb Hseen) as [Hq Hr]. split.
    + intros i g Hg Ha. destruct (Hq i g Hg Ha) as (sc & Hsc & Hty).
      exists sc. split; [|done]. unfold b2.
      apply (scanFields_preserve (fun b => sc ∈ nextLevel b)); [|done].
      intros b0 j f _. apply scanField_next_mono.
    + intros f n Hf Hdecl. unfold b2.
      apply (scanFields_preserve
               (fun b => conflict (sf b) <> ""%string \/ is_Some (fields (sf b) !! n))).
      * intros b0 j f0 Hf0. apply scanField_keeps_resolved. by eapply Hnames.
      * by apply (Hr f n).
Qed.

Lemma scanTypes_fresh_ok seen b scans :
  named env -> fresh_ok env seen b -> fresh_ok env seen (foldl (scanType env) b scans).
Proof.
  intros Hnamed. revert b. induction scans as [|sc scans IH]; intros b H; [done|].
  simpl. apply IH. by apply scanType_fresh_ok.
Qed.

Section Levels.
Variable t0 : type.
Hypothesis Hnamed : named env.

(** One level of the breadth-first scan. *)
Lemma scanLevel_reach (ro : RangeOrder) L s visited cur :
  desc_inv L s -> Forall (fun sc => length (index sc) = L) cur ->
  embeds_closed env visited cur -> level_reached env t0 L visited cur ->
  resolved_shallow env t0 visited s ->
  let r := scanLevel ro env s visited cur in
  embeds_closed env r.1.2 r.2 /\ level_reached env t0 (S L) r.1.2 r.2
  /\ resolved_shallow env t0 r.1.2 r.1.1.
Proof.
  intros Hdesc Hlen Hclosed Hreach Hres.
  destruct (scanLevel_desc_inv env ro L s visited cur Hdesc Hlen) as [Hdesc' _].
  revert Hdesc'. unfold scanLevel. cbv zeta. simpl.
  set (b0 := Build_builder s [] visited ∅).
  set (b := foldl (scanType env) b0 cur).
  rewrite recordNames_spec. intros Hdesc'.
  assert (Hmono : visited ⊆ visitedTypes b).
  { apply (scanTypes_visited_mono env b0 cur). }
  assert (Hmark : forall X, queued cur X -> X ∈ visitedTypes b).
  { intros X (sc & Hsc & Hty). by apply (scanTypes_mark env b0 cur sc X). }
  assert (Hfresh : fresh_ok env visited b).
  { apply scanTypes_fresh_ok; [done|]. intros Y HY Hn. by destruct Hn. }
  assert (Hclosed' : embeds_closed env (visitedTypes b) (nextLevel b)).
  { intros Y i g Z HY Hg Ha HZ.
    destruct (decide (Y ∈ visited)) as [Hold|Hnew].
    - left. destruct (Hclosed Y i g Z Hold Hg Ha HZ) as [H|H]; [set_solver|auto].
    - destruct (Hfresh Y HY Hnew) as [Hq _].
      destruct (Hq i g Hg Ha) as (sc & Hsc & Hty).
      right. exists sc. split; [done|]. by rewrite Hty. }
  split; [done|]. split.
  - intros q ty X Hp HX Hq.
    destruct (decide (length q <= L)%nat) as [Hle|Hgt].
    + left. destruct (Hreach q ty X Hp HX Hle) as [H|[_ H]]; [set_solver|auto].
    + assert (Hq' : length q = S L) by lia.
      inversion Hp as [|p ty1 n i g Hp1 Hn Hg Ha]; subst.
      { simpl in Hq'. lia. }
      rewrite length_app in Hq'. simpl in Hq'.
      assert (Hparent : n ∈ visitedTypes b).
      { destruct (Hreach p ty1 n Hp1 Hn) as [H|[_ H]]; [lia|set_solver|auto]. }
      destruct (Hclosed' n i g X Hparent Hg Ha HX) as [H|H]; [by left|].
      right. split; [|done]. rewrite length_app. simpl. lia.
  - intros X f n HX Hf Hdecl. simpl.
    destruct (decide (X ∈ visited)) as [Hold|Hnew].
    + destruct (Hres X f n Hold Hf Hdecl) as [Hc|(fi & Hfi & Hbound)].
      * left. by apply scanTypes_sticky.
      * destruct (scanTypes_keeps b0 cur n fi Hnamed (or_intror Hfi)) as [H|H];
          [by left|].
        right. by exists fi.
    + destruct (Hfresh X HX Hnew) as [_ Hr].
      destruct (Hr f n Hf Hdecl) as [Hc|[fi Hfi]]; [by left|].
      right. exists fi. split; [done|].
      intros q ty Hp Hty.
      pose proof (desc_depth _ _ Hdesc' n fi Hfi) as Hd.
      destruct (decide (length q <= L)%nat) as [Hle|Hgt]; [|lia].
      destruct (Hreach q ty X Hp Hty Hle) as [H|[Hq _]]; [done|lia].
Qed.

Lemma scanLevels_reach fuel (ro : RangeOrder) L s visited cur r :
  desc_inv L s -> Forall (fun sc => length (index sc) = L) cur ->
  embeds_closed env visited cur -> level_reached env t0 L visited cur ->
  resolved_shallow env t0 visited s ->
  scanLevels fuel ro env s visited cur = Some r ->
  forall n p f, field_path env t0 n p f ->
    conflict r <> ""%string \/
    exists fi, fields r !! n = Some fi /\ (length (fieldIndex fi) <= length p)%nat.
Proof.
  revert L s visited cur.
  induction fuel as [|fuel IH]; intros L s visited cur Hdesc Hlen Hclosed Hreach Hres Hrun.
  - destruct cur; [|done]. simpl in Hrun. simplify_eq.
    intros n p f (q & ty & X & i & -> & Hq & HX & Hf & Hdecl).
    assert (Hall : forall q ty X, anon_path env t0 q ty -> derefType ty = TStruct X ->
                                  X ∈ visited).
    { clear -Hclosed Hreach. intros q ty X Hp. revert X.
      induction Hp as [|p ty1 n i g Hp1 IHp Hn Hg Ha]; intros X HX.
      - destruct (Hreach [] t0 X (anon_here env t0) HX) as [H|[_ (sc & Hsc & _)]];
          [simpl; lia|done|].
        by apply elem_of_nil in Hsc.
      - destruct (Hclosed n i g X (IHp n Hn) Hg Ha HX) as [H|(sc & Hsc & _)]; [done|].
        by apply elem_of_nil in Hsc. }
    destruct (Hres X f n (Hall q ty X Hq HX)) as [Hc|(fi & Hfi & Hb)];
      [by eapply list_elem_of_lookup_2|done|by left|].
    right. exists fi. split; [done|]. rewrite length_app. simpl.
    specialize (Hb q ty Hq HX). lia.
  - destruct cur as [|sc cur].
    { apply (IH L s visited []); try done. by destruct fuel. }
    rewrite scanLevels_step in Hrun by done. cbv zeta in Hrun.
    destruct (scanLevel_reach ro L s visited (sc :: cur) Hdesc Hlen Hclosed Hreach Hres)
      as (Hc' & Hr' & Hs').
    destruct (scanLevel_desc_inv env ro L s visited (sc :: cur) Hdesc Hlen) as [Hd' Hl'].
    apply (IH (S L) _ _ _ Hd' Hl' Hc' Hr' Hs' Hrun).
Qed.

End Levels.

(** A declared name that is alone at level 0 is settled there. *)
Lemma scanField_other scan b i f n :
  ~ declares f n ->
  fields (sf (scanField scan b i f)) !! n = fields (sf b) !! n.
Proof.
  intros Hnot. unfold scanField.
  destruct (Anonymous f) eqn:Ha; [done|].
  destruct (IsExported f) eqn:He; [|done]. simpl.
  destruct (decide (Tag f = "-"%string)) as [|Ht]; [done|]. cbv zeta.
  assert (Hne : (if decide ((parseTag (Tag f)).1 = ""%string) then Name f
                 else (parseTag (Tag f)).1) <> n).
  { intros Hn. apply Hnot. by repeat split. }
  repeat case_decide; simpl; try done.
  all: try (by rewrite lookup_delete_ne).
  all: by rewrite lookup_insert_ne.
Qed.

Lemma scanField_other_found scan b i f n :
  ~ declares f n -> n ∉ fieldsFoundThisLevel b ->
  n ∉ fieldsFoundThisLevel (scanField scan b i f).
Proof.
  intros Hnot Hn. unfold scanField.
  destruct (Anonymous f) eqn:Ha; [done|].
  destruct (IsExported f) eqn:He; [|done]. simpl.
  destruct (decide (Tag f = "-"%string)) as [|Ht]; [done|]. cbv zeta.
  assert (Hne : (if decide ((parseTag (Tag f)).1 = ""%string) then Name f
                 else (parseTag (Tag f)).1) <> n).
  { intros Hx. apply Hnot. by repeat split. }
  repeat case_decide; simpl; try done.
  all: set_solver.
Qed.

Lemma scanField_settled scan b i f n fi :
  fields (sf b) !! n = Some fi -> n ∉ fieldsFoundThisLevel b ->
  fields (sf (scanField scan b i f)) !! n = Some fi
  /\ n ∉ fieldsFoundThisLevel (scanField scan b i f).
Proof.
  intros Hf Hn. unfold scanField.
  destruct (Anonymous f); [done|].
  destruct (negb (IsExported f)); [done|].
  destruct (decide (Tag f = "-"%string)); [done|]. cbv zeta.
  set (name := if decide ((parseTag (Tag f)).1 = ""%string) then Name f
              else (parseTag (Tag f)).1).
  destruct (decide (name ∈ fieldsFoundThisLevel b)) as [Hin|Hout]; simpl.
  - split; [|done]. rewrite lookup_delete_ne; [done|].
    intros Heq. by rewrite Heq in Hin.
  - destruct (decide (is_Some (fields (sf b) !! name))) as [Hs|Hs]; [done|]. simpl.
    assert (Hne : name <> n).
    { intros Hx. apply Hs. by rewrite Hx, Hf. }
    split; [by rewrite lookup_insert_ne|set_solver].
Qed.

Lemma scanTypes_settled b scans n fi :
  fields (sf b) !! n = Some fi -> n ∉ fieldsFoundThisLevel b ->
  fields (sf (foldl (scanType env) b scans)) !! n = Some fi.
Proof.
  intros Hf Hn.
  enough (fields (sf (foldl (scanType env) b scans)) !! n = Some fi
          /\ n ∉ fieldsFoundThisLevel (foldl (scanType env) b scans)) by tauto.
  revert b Hf Hn. induction scans as [|sc scans IH]; intros b Hf Hn; [done|].
  simpl. apply IH.
  - unfold scanType. destruct (derefType (typ sc)); try done. case_decide; [done|].
    apply (scanFields_preserve
             (fun b => fields (sf b) !! n = Some fi /\ n ∉ fieldsFoundThisLevel b));
      [|done].
    intros b0 i f _ [H1 H2]. by apply scanField_settled.
  - unfold scanType. destruct (derefType (typ sc)); try done. case_decide; [done|].
    apply (scanFields_preserve
             (fun b => fields (sf b) !! n = Some fi /\ n ∉ fieldsFoundThisLevel b));
      [|done].
    intros b0 i f _ [H1 H2]. by apply scanField_settled.
Qed.

Lemma scanLevels_settled fuel (ro : RangeOrder) s visited cur r n fi :
  fields s !! n = Some fi ->
  scanLevels fuel ro env s visited cur = Some r -> fields r !! n = Some fi.
Proof.
  revert s visited cur.
  induction fuel as [|fuel IH]; intros s visited cur Hf Hrun.
  - destruct cur; [|done]. simpl in Hrun. by simplify_eq.
  - destruct cur as [|sc cur]; [simpl in Hrun; by simplify_eq|].
    rewrite scanLevels_step in Hrun by done. cbv zeta in Hrun.
    apply (IH _ _ _) in Hrun; [done|].
    rewrite recordNames_spec. cbn [fields].
    apply scanTypes_settled; [exact Hf|simpl; set_solver].
Qed.

End Builder.

Lemma imap_pair_NoDup (decl : list StructField) : NoDup (imap pair decl).
Proof.
  apply NoDup_alt. intros a b [j g] Ha Hb.
  rewrite list_lookup_imap in Ha, Hb.
  destruct (decl !! a); destruct (decl !! b); simpl in *; congruence.
Qed.

Lemma scanFields_others scan (l : list (nat * StructField)) b n :
  (forall j g, (j, g) ∈ l -> ~ declares g n) ->
  fields (sf (foldl (fun b '(i, f) => scanField scan b i f) b l)) !! n
  = fields (sf b) !! n.
Proof.
  revert b. induction l as [|[j g] l IH]; intros b Hl; [done|].
  simpl. rewrite IH.
  - apply scanField_other. apply (Hl j). by left.
  - intros j' g' Hin. apply (Hl j'). by right.
Qed.

Lemma scanFields_alone scan (l : list (nat * StructField)) b i f n :
  NoDup l -> (i, f) ∈ l -> declares f n ->
  (forall j g, (j, g) ∈ l -> declares g n -> (j, g) = (i, f)) ->
  fields (sf b) !! n = None -> n ∉ fieldsFoundThisLevel b ->
  fields (sf (foldl (fun b '(i, f) => scanField scan b i f) b l)) !! n
  = Some {| jsonName := n; fieldIndex := index scan ++ [i] |}.
Proof.
  intros Hnd Hin Hdecl. revert b Hnd Hin.
  induction l as [|[j g] l IH]; intros b Hnd Hin Honly Hnone Hfound.
  { by apply elem_of_nil in Hin. }
  apply NoDup_cons in Hnd as [Hnotin Hnd]. simpl.
  apply elem_of_cons in Hin as [Heq|Hin].
  - simplify_eq. rewrite scanFields_others.
    + destruct Hdecl as (Ha & He & Ht & Hn). unfold externalName in Hn.
      unfold scanField. rewrite Ha, He. simpl. rewrite decide_False by done.
      cbv zeta. rewrite Hn. rewrite decide_False by done.
      rewrite decide_False by (rewrite Hnone; by intros [? ?]).
      simpl. by rewrite lookup_insert_eq.
    + intros j' g' Hjg Hd. apply Hnotin.
      rewrite <- (Honly j' g'); [done| by right | done].
  - assert (Hne : (j, g) <> (i, f)) by (intros Heq; by rewrite Heq in Hnotin).
    apply IH; try done.
    + intros j' g' Hin' Hd. apply Honly; [by right|done].
    + rewrite scanField_other; [done|].
      intros Hd. apply Hne. apply Honly; [by left|done].
    + apply scanField_other_found; [|done].
      intros Hd. apply Hne. apply Honly; [by left|done].
Qed.

(** X8.  The loop of [buildStructFields] over the levels ends, also for a
    type that embeds itself: every turn that leaves a next level has
    scanned a struct type for the first time, so one turn more than there
    are declared struct types is always enough, and further turns change
    nothing. *)
Theorem buildStructFields_terminates (env : Decls) (ro : RangeOrder) (t : type)
    (fuel : nat) :
  (size env < fuel)%nat ->
  scanLevels fuel ro env emptyStructFields ∅ [{| typ := t; index := [] |}]
  = Some (buildStructFields ro env t).
Proof.
  intros Hf.
  destruct (scanLevels_total env fuel ro emptyStructFields ∅
              [{| typ := t; index := [] |}]) as [r Hr].
  { rewrite difference_empty_L, size_dom. lia. }
  rewrite Hr. f_equal.
  pose proof (buildStructFields_total env ro t) as Ht.
  unfold buildStructFields_opt, buildFuel in Ht.
  destruct (decide (fuel <= S (S (size env)))%nat).
  - apply (scanLevels_more_fuel env _ (S (S (size env)))) in Hr; [|lia]. congruence.
  - apply (scanLevels_more_fuel env _ fuel) in Ht; [|lia]. congruence.
Qed.

Lemma buildStructFields_terminates_witness :
  scanLevels 2 Samples.keepOrder loopDecls emptyStructFields ∅
    [{| typ := TStruct "Loop"; index := [] |}]
  = Some (buildStructFields Samples.keepOrder loopDecls (TStruct "Loop"))
  /\ fieldIndex <$> fields (buildStructFields Samples.keepOrder loopDecls (TStruct "Loop"))
                      !! "id"%string = Some [1%nat].
Proof.
  split.
  - apply (buildStructFields_terminates loopDecls Samples.keepOrder (TStruct "Loop") 2).
    unfold loopDecls. rewrite map_size_singleton. lia.
  - vm_compute. reflexivity.
Defined.

(** X9.  Every key of a descriptor leads to a field that declares it: the
    entry is filed under its own [jsonName], and its index path goes
    through embedded fields only and ends at an exported, named field that
    is not tagged ["-"] and whose external name (the tag up to its first
    comma, or the Go name when that is empty) is the key.  The index paths
    of two different keys part at some position, so they never name the same
    field nor a field inside the other. *)
Theorem descriptor_entries_declared (env : Decls) (ro : RangeOrder) (t : type)
    (name : string) (fi : fieldInfo) :
  fields (buildStructFields ro env t) !! name = Some fi ->
  jsonName fi = name
  /\ (exists f, field_path env t name (fieldIndex fi) f)
  /\ (forall name' fi', name' <> name ->
        fields (buildStructFields ro env t) !! name' = Some fi' ->
        WalkerSpec.diverge (fieldIndex fi) (fieldIndex fi')).
Proof.
  intros H. destruct (buildStructFields_paths env ro t name fi H) as [Hn Hp].
  repeat split; [done..|].
  intros name' fi' Hne H'.
  by apply (buildStructFields_diverge env ro t name name' fi fi').
Qed.

Lemma descriptor_entries_declared_witness :
  exists f, field_path Samples.testDecls (TStruct "Extended") "name" [0; 1]%nat f.
Proof.
  apply (descriptor_entries_declared Samples.testDecls Samples.keepOrder
           (TStruct "Extended") "name" {| jsonName := "name"; fieldIndex := [0; 1]%nat |}).
  vm_compute. reflexivity.
Defined.

(** X10.  The shallowest declaration wins: when the field Go names are
    not empty and no conflict was recorded, a name declared by a field
    that is reached through embedded fields is a key of the descriptor, and
    the path recorded for it is no longer than the path to that field. *)
Theorem shallowest_declaration_resolved (env : Decls) (ro : RangeOrder) (t : type)
    (n : string) (p : list nat) (f : StructField) :
  named env ->
  conflict (buildStructFields ro env t) = ""%string ->
  field_path env t n p f ->
  exists fi, fields (buildStructFields ro env t) !! n = Some fi
             /\ (length (fieldIndex fi) <= length p)%nat.
Proof.
  intros Hnamed Hconf Hpath.
  pose proof (buildStructFields_total env ro t) as Hrun.
  unfold buildStructFields_opt in Hrun.
  destruct (scanLevels_reach env t Hnamed (buildFuel env) ro 0 emptyStructFields ∅
              [{| typ := t; index := [] |}] (buildStructFields ro env t)
              desc_inv_empty) with (n := n) (p := p) (f := f) as [Hc|Hres].
  - by repeat constructor.
  - intros Y i g Z HY. by apply elem_of_empty in HY.
  - intros q ty X Hq HX Hlen. right.
    destruct q; [|simpl in Hlen; lia]. split; [done|].
    inversion Hq as [|p0 ty1 n0 i g]; subst.
    + eexists. split; [by apply list_elem_of_singleton|done].
    + by destruct p0.
  - intros X f0 n0 HX. by apply elem_of_empty in HX.
  - exact Hrun.
  - exact Hpath.
  - done.
  - done.
Qed.

Lemma shallowest_declaration_resolved_witness :
  exists fi, fields (buildStructFields Samples.keepOrder Samples.testDecls
                       (TStruct "Shadowed")) !! "name"%string = Some fi
             /\ (length (fieldIndex fi) <= length [1; 0]%nat)%nat.
Proof.
  apply (shallowest_declaration_resolved Samples.testDecls Samples.keepOrder
           (TStruct "Shadowed") "name" [1; 0]%nat (Samples.field "Name" TString "name")).
  - apply testDecls_named.
  - vm_compute. reflexivity.
  - exists [1%nat], (TStruct "A"), "A"%string, 0%nat.
    split; [reflexivity|]. split.
    + apply (anon_step Samples.testDecls (TStruct "Shadowed") [] (TStruct "Shadowed")
               "Shadowed" 1 (Samples.embedded "A" (TStruct "A")));
        [apply anon_here|reflexivity|vm_compute; reflexivity|reflexivity].
    + split; [reflexivity|]. split; [vm_compute; reflexivity|].
      repeat split; vm_compute; congruence.
Defined.

(** X11.  A directly declared field cannot be displaced: when exactly one
    field of the record itself declares a name, that name resolves to this
    field, whatever the embedded records declare and whatever conflicts
    they have among themselves. *)
Theorem direct_field_wins (env : Decls) (ro : RangeOrder) (t : type) (T : string)
    (i : nat) (f : StructField) (n : string) :
  derefType t = TStruct T ->
  structDecl env T !! i = Some f ->
  declares f n ->
  (forall j g, structDecl env T !! j = Some g -> declares g n -> j = i) ->
  fields (buildStructFields ro env t) !! n
  = Some {| jsonName := n; fieldIndex := [i] |}.
Proof.
  intros Ht Hf Hdecl Honly.
  pose proof (buildStructFields_total env ro t) as Hrun.
  unfold buildStructFields_opt, buildFuel in Hrun.
  rewrite scanLevels_step in Hrun by done. cbv zeta in Hrun.
  apply (scanLevels_settled env _ ro _ _ _ _ n {| jsonName := n; fieldIndex := [i] |})
    in Hrun; [done|].
  rewrite recordNames_spec. cbn [fields foldl].
  unfold scanType. cbn [typ visitedTypes]. rewrite Ht.
  rewrite decide_False by set_solver.
  apply (scanFields_alone {| typ := t; index := [] |} _ _ i f n).
  - apply imap_pair_NoDup.
  - apply elem_of_lookup_imap. by exists i, f.
  - done.
  - intros j g Hin Hd. apply elem_of_lookup_imap in Hin as (j' & g' & Heq & Hg).
    simplify_eq. assert (j' = i) by by apply (Honly j' g'). by simplify_eq.
  - done.
  - simpl. set_solver.
Qed.

Lemma direct_field_wins_witness :
  fields (buildStructFields Samples.reverseOrder Samples.testDecls (TStruct "Shadowed"))
    !! "name"%string
  = Some {| jsonName := "name"; fieldIndex := [0%nat] |}.
Proof.
  apply (direct_field_wins Samples.testDecls Samples.reverseOrder (TStruct "Shadowed")
           "Shadowed" 0 (Samples.field "Name" TString "name") "name").
  - reflexivity.
  - vm_compute. reflexivity.
  - repeat split; vm_compute; congruence.
  - intros j g Hg Hd.
    assert (Hdecl : structDecl Samples.testDecls "Shadowed"
                    = [Samples.field "Name" TString "name";
                       Samples.embedded "A" (TStruct "A");
                       Samples.embedded "B" (TStruct "B")])
      by (vm_compute; reflexivity).
    rewrite Hdecl in Hg. destruct Hd as (Ha & _).
    destruct j as [|[|[|j]]]; simpl in Hg; [done|simplify_eq; discriminate Ha..|done].
Defined.

End BuilderFacts.

(** * More on the strict walker *)

Module CacheFacts.
Import FieldMap FieldMapSpec Walker WalkerSpec WalkerFacts.

Section Order.
Variable env : Decls.

Lemma scanField_same scan b1 b2 i f :
  same_builder b1 b2 -> same_builder (scanField scan b1 i f) (scanField scan b2 i f).
Proof.
  intros ([Hf Hc] & Hn & Hv & Hfound). unfold scanField.
  rewrite Hf, Hfound.
  repeat (case_match || case_decide); repeat split; simpl; congruence.
Qed.

Lemma scanType_same b1 b2 scan :
  same_builder b1 b2 -> same_builder (scanType env b1 scan) (scanType env b2 scan).
Proof.
  intros Hb. pose proof Hb as ([Hf Hc] & Hn & Hv & Hfound). unfold scanType.
  destruct (derefType (typ scan)) as [| | | | | | | | |X]; try done.
  rewrite Hv. case_decide; [done|].
  generalize (imap pair (structDecl env X)). intros l.
  assert (Hstart : same_builder
            {| sf := sf b1; nextLevel := nextLevel b1;
               visitedTypes := {[ X ]} ∪ visitedTypes b2;
               fieldsFoundThisLevel := fieldsFoundThisLevel b1 |}
            {| sf := sf b2; nextLevel := nextLevel b2;
               visitedTypes := {[ X ]} ∪ visitedTypes b2;
               fieldsFoundThisLevel := fieldsFoundThisLevel b2 |}) by done.
  revert Hstart. generalize (Build_builder (sf b1) (nextLevel b1) ({[ X ]} ∪ visitedTypes b2)
                               (fieldsFoundThisLevel b1)).
  generalize (Build_builder (sf b2) (nextLevel b2) ({[ X ]} ∪ visitedTypes b2)
                (fieldsFoundThisLevel b2)).
  induction l as [|[i f] l IH]; intros b b' Hbb; [done|].
  simpl. apply IH. by apply scanField_same.
Qed.

Lemma scanTypes_same b1 b2 scans :
  same_builder b1 b2 ->
  same_builder (foldl (scanType env) b1 scans) (foldl (scanType env) b2 scans).
Proof.
  revert b1 b2. induction scans as [|sc scans IH]; intros b1 b2 Hb; [done|].
  simpl. apply IH. by apply scanType_same.
Qed.

Lemma scanLevels_same fuel (ro1 ro2 : RangeOrder) s1 s2 visited cur :
  same_map s1 s2 ->
  match scanLevels fuel ro1 env s1 visited cur, scanLevels fuel ro2 env s2 visited cur with
  | Some r1, Some r2 => same_map r1 r2
  | None, None => True
  | _, _ => False
  end.
Proof.
  revert s1 s2 visited cur.
  induction fuel as [|fuel IH]; intros s1 s2 visited cur Hs.
  - by destruct cur.
  - destruct cur as [|sc cur]; [done|].
    rewrite !FieldMapFacts.scanLevels_step by done. cbv zeta.
    pose proof (scanTypes_same (Build_builder s1 [] visited ∅)
                  (Build_builder s2 [] visited ∅) (sc :: cur)) as Hb.
    destruct Hb as (Hsf & Hn & Hv & Hfound); [done|].
    rewrite Hn, Hv. apply IH. rewrite !FieldMapFacts.recordNames_spec.
    destruct Hsf as [Hf Hc]. by split.
Qed.

(** The mapping and the conflict of a descriptor do not depend on the order
    in which the maps are ranged over; only the order of its name list
    does. *)
Lemma buildStructFields_same (ro1 ro2 : RangeOrder) t :
  same_map (buildStructFields ro1 env t) (buildStructFields ro2 env t).
Proof.
  pose proof (FieldMapFacts.buildStructFields_total env ro1 t) as H1.
  pose proof (FieldMapFacts.buildStructFields_total env ro2 t) as H2.
  unfold buildStructFields_opt in H1, H2.
  pose proof (scanLevels_same (buildFuel env) ro1 ro2 emptyStructFields emptyStructFields ∅
                [{| typ := t; index := [] |}]) as H.
  rewrite H1, H2 in H. by apply H.
Qed.

End Order.

Section Cache.
Variable ro : RangeOrder.
Variable env : Decls.
Variable implementsUnmarshaler : type -> bool.
Variable ToLower : string -> string.
Variable jsonUnmarshal : json -> type -> value -> option error * value.
Variable d : Decoder.

Local Abbreviation exact := (negb (SuggestClosest d)).

Lemma coherent_built c : coherent ro env c -> built env c.
Proof. intros H t. destruct (H t) as [Hn|Hs]; [by left|right; by exists ro]. Qed.

Lemma emptyCache_built : built env emptyCache.
Proof. intros t. by left. Qed.

(** What [getStructFields] answers on a cache of built descriptors. *)
Lemma getStructFields_built c t :
  built env c ->
  built env (getStructFields ro env c t).2
  /\ exists s', same_map s' (buildStructFields ro env t)
       /\ (getStructFields ro env c t).1
          = if decide (conflict s' <> ""%string)
            then inl (newFieldConflictError (conflict s')) else inr s'.
Proof.
  intros Hc. unfold getStructFields.
  destruct (Hc t) as [Hn|[ro' Hs]]; rewrite ?Hn, ?Hs.
  - split.
    + case_decide; simpl; intros t'; unfold Store; case_decide; try apply Hc;
        right; exists ro; by subst.
    + exists (buildStructFields ro env t). split; [done|]. by case_decide.
  - split; [by case_decide|].
    exists (buildStructFields ro' env t). split; [apply buildStructFields_same|].
    by case_decide.
Qed.

Lemma same_failure_refl e : same_failure exact e e.
Proof. by left. Qed.

Section Loops.
Variable rec : json -> type -> value -> Cache -> outcome.
Hypothesis Hrec : forall x t v c1 c2, built env c1 -> built env c2 ->
  alike env exact (rec x t v c1) (rec x t v c2).

Lemma rec_cases x t v c1 c2 :
  built env c1 -> built env c2 ->
  target (rec x t v c1) = target (rec x t v c2)
  /\ built env (cache (rec x t v c1)) /\ built env (cache (rec x t v c2))
  /\ ((err (rec x t v c1) = None /\ err (rec x t v c2) = None)
      \/ (exists e1 e2, err (rec x t v c1) = Some e1 /\ err (rec x t v c2) = Some e2
                        /\ same_failure exact (Some e1) (Some e2))).
Proof.
  intros H1 H2. destruct (Hrec x t v c1 c2 H1 H2) as (He & Ht & Hc1 & Hc2).
  repeat split; try done.
  destruct He as [He|(Hex & k & s1 & s2 & He1 & He2)].
  - destruct (err (rec x t v c1)) as [e1|] eqn:E1.
    + right. exists e1, e1. rewrite <- He. repeat split; by left.
    + left. by rewrite <- He.
  - right. exists (unknownFieldError k s1), (unknownFieldError k s2).
    repeat split; try done. right. split; [done|]. by exists k, s1, s2.
Qed.

Lemma decodeFields_alike s1 s2 raw t keys v c1 c2 :
  fields s1 = fields s2 -> built env c1 -> built env c2 ->
  alike env exact (decodeFields env rec s1 raw t keys v c1)
                  (decodeFields env rec s2 raw t keys v c2).
Proof.
  intros Hf. revert v c1 c2. induction keys as [|k keys IH]; intros v c1 c2 H1 H2.
  { repeat split; try done. by left. }
  simpl. rewrite Hf. destruct (fields s2 !! k) as [fi|]; [|by apply IH].
  destruct (raw !! k) as [x|]; [|by apply IH].
  destruct (getFieldByIndex env t v settable id (fieldIndex fi)) as [v' [sl|]];
    [|by apply IH].
  destruct (negb (CanSet (slotFlags sl))); [by apply IH|].
  destruct (rec_cases x (slotType sl) (slotValue sl) c1 c2 H1 H2)
    as (Ht & Hc1 & Hc2 & [[E1 E2]|(e1 & e2 & E1 & E2 & He)]).
  - cbv zeta. rewrite E1, E2, <- Ht. by apply IH.
  - cbv zeta. rewrite E1, E2, <- Ht. by repeat split.
Qed.

Lemma unmarshalStruct_alike data t v c1 c2 :
  built env c1 -> built env c2 ->
  alike env exact (unmarshalStruct ro env ToLower d rec data t v c1)
                  (unmarshalStruct ro env ToLower d rec data t v c2).
Proof.
  intros H1 H2. unfold unmarshalStruct.
  destruct (rawObject data) as [raw|]; [|repeat split; try done; by left].
  destruct (getStructFields_built c1 t H1) as (Hb1 & s1 & [Hf1 Hc1] & Hans1).
  destruct (getStructFields_built c2 t H2) as (Hb2 & s2 & [Hf2 Hc2] & Hans2).
  destruct (getStructFields ro env c1 t) as [r1 c1'].
  destruct (getStructFields ro env c2 t) as [r2 c2']. simpl in *. subst r1 r2.
  rewrite Hc1, Hc2.
  case_decide; [repeat split; try done; by left|].
  rewrite Hf1, Hf2.
  destruct (if DisallowUnknownFields d then _ else _) as [k|].
  - repeat split; try done. simpl.
    destruct (SuggestClosest d); [|by left].
    right. split; [done|]. by eexists _, _, _.
  - apply decodeFields_alike; [congruence|done|done].
Qed.

Lemma decodeElems_alike elemType rawSlice i newSlice c1 c2 :
  built env c1 -> built env c2 ->
  same_failure exact (decodeElems rec elemType rawSlice i newSlice c1).1.1
                     (decodeElems rec elemType rawSlice i newSlice c2).1.1
  /\ ((decodeElems rec elemType rawSlice i newSlice c1).1.1 = None ->
      (decodeElems rec elemType rawSlice i newSlice c1).1.2
      = (decodeElems rec elemType rawSlice i newSlice c2).1.2)
  /\ built env (decodeElems rec elemType rawSlice i newSlice c1).2
  /\ built env (decodeElems rec elemType rawSlice i newSlice c2).2.
Proof.
  revert i newSlice c1 c2.
  induction rawSlice as [|x rawSlice IH]; intros i newSlice c1 c2 H1 H2.
  { repeat split; try done. by left. }
  simpl.
  destruct (rec_cases x elemType (default VZero (newSlice !! i)) c1 c2 H1 H2)
    as (Ht & Hc1 & Hc2 & [[E1 E2]|(e1 & e2 & E1 & E2 & He)]).
  - rewrite E1, E2, <- Ht. by apply IH.
  - rewrite E1, E2. by repeat split.
Qed.

Lemma decodeEntries_alike valueType rawMap keys entries c1 c2 :
  built env c1 -> built env c2 ->
  same_failure exact (decodeEntries rec valueType rawMap keys entries c1).1.1
                     (decodeEntries rec valueType rawMap keys entries c2).1.1
  /\ (decodeEntries rec valueType rawMap keys entries c1).1.2
     = (decodeEntries rec valueType rawMap keys entries c2).1.2
  /\ built env (decodeEntries rec valueType rawMap keys entries c1).2
  /\ built env (decodeEntries rec valueType rawMap keys entries c2).2.
Proof.
  revert entries c1 c2.
  induction keys as [|k keys IH]; intros entries c1 c2 H1 H2.
  { repeat split; try done. by left. }
  simpl. destruct (rawMap !! k) as [x|]; [|by apply IH].
  destruct (rec_cases x valueType VZero c1 c2 H1 H2)
    as (Ht & Hc1 & Hc2 & [[E1 E2]|(e1 & e2 & E1 & E2 & He)]).
  - rewrite E1, E2, <- Ht. by apply IH.
  - rewrite E1, E2. by repeat split.
Qed.

Lemma jsonUnmarshal_into_alike data t v set c1 c2 :
  built env c1 -> built env c2 ->
  alike env exact (jsonUnmarshal_into jsonUnmarshal data t v set c1)
                  (jsonUnmarshal_into jsonUnmarshal data t v set c2).
Proof.
  intros H1 H2. unfold jsonUnmarshal_into.
  destruct (jsonUnmarshal data t v). repeat split; try done. by left.
Qed.

Lemma unmarshalSlice_alike data t v c1 c2 :
  built env c1 -> built env c2 ->
  alike env exact (unmarshalSlice implementsUnmarshaler jsonUnmarshal rec data t v c1)
                  (unmarshalSlice implementsUnmarshaler jsonUnmarshal rec data t v c2).
Proof.
  intros H1 H2. unfold unmarshalSlice.
  destruct (rawArray data) as [rawSlice|]; [|repeat split; try done; by left].
  destruct (negb (containsStruct _ _)); [by apply jsonUnmarshal_into_alike|].
  destruct (decodeElems_alike (match t with TSlice e => e | _ => t end) rawSlice 0
              (replicate (length rawSlice) VZero) c1 c2 H1 H2) as (He & Hl & Hc1 & Hc2).
  destruct (decodeElems _ _ _ _ _ c1) as [[e1 l1] c1'].
  destruct (decodeElems _ _ _ _ _ c2) as [[e2 l2] c2']. simpl in *.
  destruct He as [<-|(Hex & k & s1 & s2 & -> & ->)].
  - destruct e1; repeat split; try done; try by left.
    simpl. by rewrite Hl.
  - repeat split; try done. right. split; [done|]. by exists k, s1, s2.
Qed.

Lemma unmarshalMap_alike data t v c1 c2 :
  built env c1 -> built env c2 ->
  alike env exact (unmarshalMap ro implementsUnmarshaler jsonUnmarshal rec data t v c1)
                  (unmarshalMap ro implementsUnmarshaler jsonUnmarshal rec data t v c2).
Proof.
  intros H1 H2. unfold unmarshalMap.
  destruct (rawObject data) as [rawMap|]; [|repeat split; try done; by left].
  destruct (negb (containsStruct _ _)); [by apply jsonUnmarshal_into_alike|].
  destruct (decodeEntries_alike (match t with TMap e => e | _ => t end) rawMap
              (ro (elements (dom rawMap)))
              (match v with VMap entries => entries | _ => [] end) c1 c2 H1 H2)
    as (He & Hl & Hc1 & Hc2).
  destruct (decodeEntries _ _ _ _ _ c1) as [[e1 l1] c1'].
  destruct (decodeEntries _ _ _ _ _ c2) as [[e2 l2] c2']. simpl in *. subst l2.
  by repeat split.
Qed.

Lemma unmarshalValue_body_document data t v c :
  data <> JNull ->
  unmarshalValue_body ro env implementsUnmarshaler ToLower jsonUnmarshal d rec data t v c
  = if implementsUnmarshaler (TPtr t) then jsonUnmarshal_into jsonUnmarshal data t v id c
    else
      let '(t', v', set) := allocatePointers t v id in
      let r :=
        match kind t' with
        | Struct => unmarshalStruct ro env ToLower d rec data t' v' c
        | Slice => unmarshalSlice implementsUnmarshaler jsonUnmarshal rec data t' v' c
        | Map => unmarshalMap ro implementsUnmarshaler jsonUnmarshal rec data t' v' c
        | _ => jsonUnmarshal_into jsonUnmarshal data t' v' id c
        end in
      {| err := err r; target := set (target r); cache := cache r |}.
Proof. intros Hd. by destruct data. Qed.

Lemma unmarshalValue_body_alike data t v c1 c2 :
  built env c1 -> built env c2 ->
  alike env exact
    (unmarshalValue_body ro env implementsUnmarshaler ToLower jsonUnmarshal d rec
       data t v c1)
    (unmarshalValue_body ro env implementsUnmarshaler ToLower jsonUnmarshal d rec
       data t v c2).
Proof.
  intros H1 H2.
  assert (Hcases : data = JNull \/ data <> JNull) by (destruct data; auto).
  destruct Hcases as [->|Hd].
  { repeat split; try done. by left. }
  rewrite !(unmarshalValue_body_document data t v _ Hd).
  destruct (implementsUnmarshaler (TPtr t)); [by apply jsonUnmarshal_into_alike|].
  destruct (allocatePointers t v id) as [[t' v'] set]. cbv zeta.
  enough (Hr : alike env exact
            (match kind t' with
             | Struct => unmarshalStruct ro env ToLower d rec data t' v' c1
             | Slice => unmarshalSlice implementsUnmarshaler jsonUnmarshal rec data t' v' c1
             | Map => unmarshalMap ro implementsUnmarshaler jsonUnmarshal rec data t' v' c1
             | _ => jsonUnmarshal_into jsonUnmarshal data t' v' id c1
             end)
            (match kind t' with
             | Struct => unmarshalStruct ro env ToLower d rec data t' v' c2
             | Slice => unmarshalSlice implementsUnmarshaler jsonUnmarshal rec data t' v' c2
             | Map => unmarshalMap ro implementsUnmarshaler jsonUnmarshal rec data t' v' c2
             | _ => jsonUnmarshal_into jsonUnmarshal data t' v' id c2
             end)).
  { destruct Hr as (He & Ht & Hc1 & Hc2). repeat split; simpl; try done; congruence. }
  destruct (kind t'); try by apply jsonUnmarshal_into_alike.
  - by apply unmarshalSlice_alike.
  - by apply unmarshalMap_alike.
  - by apply unmarshalStruct_alike.
Qed.

End Loops.

Lemma unmarshalValue_fuel_alike fuel data t v c1 c2 :
  built env c1 -> built env c2 ->
  alike env exact
    (unmarshalValue_fuel ro env implementsUnmarshaler ToLower jsonUnmarshal d fuel
       data t v c1)
    (unmarshalValue_fuel ro env implementsUnmarshaler ToLower jsonUnmarshal d fuel
       data t v c2).
Proof.
  revert data t v c1 c2. induction fuel as [|fuel IH]; intros data t v c1 c2 H1 H2.
  - repeat split; try done. by left.
  - simpl. by apply unmarshalValue_body_alike.
Qed.

End Cache.

Lemma getStructFields_closed (ro : RangeOrder) (env : Decls) (c : Cache) (t : type) :
  coherent ro env c ->
  getStructFields ro env c t
  = (if decide (conflict (buildStructFields ro env t) <> ""%string)
     then inl (newFieldConflictError (conflict (buildStructFields ro env t)))
     else inr (buildStructFields ro env t),
     match c t with
     | Some _ => c
     | None => Store t (buildStructFields ro env t) c
     end).
Proof.
  intros Hc. unfold getStructFields. destruct (Hc t) as [-> | ->]; by case_decide.
Qed.

(** X12.  [getStructFields] is a read-through cache in front of
    [buildStructFields]: on a cache that holds nothing but built
    descriptors, its answer is the built descriptor, or the conflict error
    when that descriptor records a conflict, whether the type was cached or
    not; afterwards the cache holds the descriptor of the type (a
    conflicting one as well), nothing else in the cache has changed, and
    asking again gives the same answer and leaves the cache as it is. *)
Theorem getStructFields_read_through (ro : RangeOrder) (env : Decls) (c : Cache)
    (t : type) :
  coherent ro env c ->
  let r := getStructFields ro env c t in
  let s := buildStructFields ro env t in
  r.1 = (if decide (conflict s <> ""%string)
         then inl (newFieldConflictError (conflict s)) else inr s)
  /\ r.2 t = Some s
  /\ (forall t', t' <> t -> r.2 t' = c t')
  /\ coherent ro env r.2
  /\ getStructFields ro env r.2 t = r.
Proof.
  intros Hc. cbv zeta.
  destruct (getStructFields_coherent ro env c t Hc) as [Hcoh _].
  assert (Hhit : (getStructFields ro env c t).2 t = Some (buildStructFields ro env t)).
  { rewrite getStructFields_closed by done. cbn [snd].
    destruct (Hc t) as [Hn|Hs]; rewrite ?Hn, ?Hs; [|done].
    unfold Store. by rewrite decide_True. }
  split; [by rewrite getStructFields_closed|].
  split; [done|]. split; [|split; [done|]].
  - intros t' Hne. rewrite getStructFields_closed by done. cbn [snd].
    destruct (c t); [done|]. unfold Store. by rewrite decide_False.
  - rewrite (getStructFields_closed ro env (getStructFields ro env c t).2) by done.
    rewrite Hhit. rewrite (getStructFields_closed ro env c t) by done. done.
Qed.

Lemma getStructFields_read_through_witness :
  getStructFields Samples.keepOrder Samples.testDecls
    (getStructFields Samples.keepOrder Samples.testDecls emptyCache (TStruct "Conflict")).2
    (TStruct "Conflict")
  = getStructFields Samples.keepOrder Samples.testDecls emptyCache (TStruct "Conflict").
Proof.
  destruct (getStructFields_read_through Samples.keepOrder Samples.testDecls emptyCache
              (TStruct "Conflict")) as (_ & _ & _ & _ & H).
  - intros t. by left.
  - exact H.
Defined.

(** X13.  The cache of descriptors does not change what is decoded.  Let
    two caches hold nothing but descriptors that [buildStructFields] gave at
    some time, each under whatever order its map ranges took: the empty
    cache, or a cache left by earlier calls.  For the same document, type
    and slot, [unmarshalValue] leaves the same target with both, and returns
    the same error, except that the suggestion in an unknown-field error may
    differ (the order of the names it is picked from is that of the build
    that filled the cache); with suggestions off the errors are the same.
    The cache left behind holds built descriptors again. *)
Theorem cached_descriptors_transparent (ro : RangeOrder) (env : Decls)
    (implementsUnmarshaler : type -> bool) (ToLower : string -> string)
    (jsonUnmarshal : json -> type -> value -> option error * value) (d : Decoder)
    (data : json) (t : type) (v : value) (c1 c2 : Cache) :
  built env c1 -> built env c2 ->
  let walk := unmarshalValue ro env implementsUnmarshaler ToLower jsonUnmarshal d in
  target (walk data t v c1) = target (walk data t v c2)
  /\ (err (walk data t v c1) = err (walk data t v c2)
      \/ exists k s1 s2,
           SuggestClosest d = true
           /\ err (walk data t v c1) = Some (unknownFieldError k s1)
           /\ err (walk data t v c2) = Some (unknownFieldError k s2))
  /\ built env (cache (walk data t v c1)).
Proof.
  intros H1 H2. cbv zeta. unfold unmarshalValue.
  destruct (unmarshalValue_fuel_alike ro env implementsUnmarshaler ToLower jsonUnmarshal d
              (S (json_depth data)) data t v c1 c2 H1 H2) as (He & Ht & Hc & _).
  split; [done|]. split; [|done].
  destruct He as [He|(Hex & k & s1 & s2 & He1 & He2)]; [by left|].
  right. exists k, s1, s2. split; [|done]. by destruct (SuggestClosest d).
Qed.

Lemma cached_descriptors_transparent_witness :
  let walk := unmarshalValue Samples.keepOrder Samples.testDecls Samples.noUnmarshaler
                Samples.asciiToLower (Samples.stdUnmarshal Samples.noStructDecoder)
                (NewDecoder [WithSuggestClosest true]) in
  let data := JObject [("name"%string, JString "John"); ("age"%string, JNumber "30")] in
  let warm := Store (TStruct "Person")
                (buildStructFields Samples.reverseOrder Samples.testDecls
                   (TStruct "Person"))
                emptyCache in
  target (walk data (TStruct "Person") VZero emptyCache)
  = target (walk data (TStruct "Person") VZero warm).
Proof.
  cbv zeta.
  destruct (cached_descriptors_transparent Samples.keepOrder Samples.testDecls
              Samples.noUnmarshaler Samples.asciiToLower
              (Samples.stdUnmarshal Samples.noStructDecoder)
              (NewDecoder [WithSuggestClosest true])
              (JObject [("name"%string, JString "John"); ("age"%string, JNumber "30")])
              (TStruct "Person") VZero emptyCache
              (Store (TStruct "Person")
                 (buildStructFields Samples.reverseOrder Samples.testDecls
                    (TStruct "Person"))
                 emptyCache)) as (H & _).
  - intros t. by left.
  - intros t. unfold Store. case_decide; [right; exists Samples.reverseOrder; by subst|by left].
  - exact H.
Defined.

End CacheFacts.

(** * Field conflicts at any embedding depth *)

Module ConflictFacts.
Import FieldMap FieldMapSpec FieldMapFacts BuilderFacts Walker WalkerSpec.

Section Collisions.
Variable env : Decls.
Variable t0 : type.

Lemma found_origin_tail L V X l b i f :
  found_origin env t0 L V X ((i, f) :: l) b -> found_origin env t0 L V X l b.
Proof.
  intros H m Hm. destruct (H m Hm) as (X1 & i1 & f1 & Hd & Hcase).
  exists X1, i1, f1. split; [done|].
  destruct Hcase as [?|[-> Hnot]]; [by left|right]. split; [done|].
  intros Hin. apply Hnot. by right.
Qed.

(** One field of [X]: a conflict it records is a collision with the field
    that put the name among those found. *)
Lemma scanField_origin L V X scan (l : list (nat * StructField)) b i f :
  anon_path env t0 (index scan) (typ scan) -> length (index scan) = L ->
  derefType (typ scan) = TStruct X ->
  structDecl env X !! i = Some f ->
  (i, f) ∉ l ->
  conflict_real env t0 (sf b) -> found_origin env t0 L V X ((i, f) :: l) b ->
  conflict_real env t0 (sf (scanField scan b i f))
  /\ found_origin env t0 L V X l (scanField scan b i f).
Proof.
  intros Hpath Hlen Hderef Hf Hfresh Hconf Horigin.
  pose proof (found_origin_tail _ _ _ _ _ _ _ Horigin) as Htail.
  unfold scanField.
  destruct (Anonymous f) eqn:Ha; [done|].
  destruct (IsExported f) eqn:He; [|done]. simpl.
  destruct (decide (Tag f = "-"%string)) as [|Htag]; [done|]. cbv zeta.
  fold (externalName f).
  assert (Hdecl : declared_at env t0 L (externalName f) X i f).
  { exists (index scan), (typ scan). by repeat split. }
  destruct (decide (externalName f ∈ fieldsFoundThisLevel b)) as [Hin|Hout]; simpl.
  - split; [|done]. right.
    destruct (Horigin _ Hin) as (X1 & i1 & f1 & Hd1 & Hcase).
    exists L, X1, i1, f1, X, i, f. split; [|done].
    intros [= -> ->]. destruct Hcase as [[_ Hne]|[_ Hnot]]; [done|].
    apply Hnot.
    destruct Hd1 as (q1 & ty1 & _ & _ & _ & Hf1 & _).
    assert (f1 = f) as -> by congruence. by left.
  - destruct (decide (is_Some (fields (sf b) !! externalName f))); [done|]. simpl.
    split; [done|]. intros m Hm. apply elem_of_union in Hm as [Hm|Hm].
    + apply elem_of_singleton in Hm as ->. exists X, i, f. split; [done|]. by right.
    + by apply Htail.
Qed.

Lemma scanFields_origin L V X scan (l : list (nat * StructField)) b :
  anon_path env t0 (index scan) (typ scan) -> length (index scan) = L ->
  derefType (typ scan) = TStruct X ->
  NoDup l -> (forall i f, (i, f) ∈ l -> structDecl env X !! i = Some f) ->
  conflict_real env t0 (sf b) -> found_origin env t0 L V X l b ->
  let b' := foldl (fun b '(i, f) => scanField scan b i f) b l in
  conflict_real env t0 (sf b') /\ found_origin env t0 L V X [] b'.
Proof.
  intros Hpath Hlen Hderef. revert b.
  induction l as [|[i f] l IH]; intros b Hnd Hl Hconf Horigin; [done|].
  apply NoDup_cons in Hnd as [Hfresh Hnd]. simpl.
  destruct (scanField_origin L V X scan l b i f) as [Hc Ho]; try done.
  { apply Hl. by left. }
  apply IH; try done. intros i' f' Hin. apply Hl. by right.
Qed.

Lemma scanType_origin L b scan :
  anon_path env t0 (index scan) (typ scan) -> length (index scan) = L ->
  conflict_real env t0 (sf b) -> found_declared env t0 L b ->
  conflict_real env t0 (sf (scanType env b scan))
  /\ found_declared env t0 L (scanType env b scan).
Proof.
  intros Hpath Hlen Hconf Hfound. unfold scanType.
  destruct (derefType (typ scan)) as [| | | | | | | | |X] eqn:Hderef; try done.
  case_decide as Hv; [done|].
  set (b0 := Build_builder _ _ _ _).
  destruct (scanFields_origin L (visitedTypes b) X scan (imap pair (structDecl env X)) b0)
    as [Hc Ho]; try done.
  - apply imap_pair_NoDup.
  - intros i f Hin. apply elem_of_lookup_imap in Hin as (i' & f' & Heq & Hf).
    by simplify_eq.
  - intros m Hm. destruct (Hfound m Hm) as (X1 & i1 & f1 & Hd & HX1).
    exists X1, i1, f1. split; [done|]. left. split; [done|]. by intros ->.
  - split; [done|]. intros m Hm.
    destruct (Ho m Hm) as (X1 & i1 & f1 & Hd & Hcase).
    exists X1, i1, f1. split; [done|]. rewrite scanFields_visited. simpl.
    destruct Hcase as [[HX1 _]|[-> _]]; set_solver.
Qed.

Lemma scanTypes_origin L b scans :
  (forall sc, sc ∈ scans -> anon_path env t0 (index sc) (typ sc)) ->
  Forall (fun sc => length (index sc) = L) scans ->
  conflict_real env t0 (sf b) -> found_declared env t0 L b ->
  conflict_real env t0 (sf (foldl (scanType env) b scans)).
Proof.
  revert b. induction scans as [|sc scans IH]; intros b Hpaths Hlens Hconf Hfound; [done|].
  apply Forall_cons in Hlens as [Hlen Hlens]. simpl.
  destruct (scanType_origin L b sc) as [Hc Ho]; try done.
  { apply Hpaths. by left. }
  apply IH; try done. intros sc' Hin. apply Hpaths. by right.
Qed.

Lemma scanTypes_visited_from b scans X :
  X ∈ visitedTypes (foldl (scanType env) b scans) ->
  X ∈ visitedTypes b \/ exists sc, sc ∈ scans /\ derefType (typ sc) = TStruct X.
Proof.
  revert b. induction scans as [|sc scans IH]; intros b HX; [by left|].
  simpl in HX. apply IH in HX as [HX|(sc' & Hin & Hsc')].
  - destruct (scanType_visited_cases env b sc) as [Heq|(Y & HY & Hnew & Hvis)].
    + rewrite Heq in HX. by left.
    + rewrite Hvis in HX. apply elem_of_union in HX as [HX|HX]; [|by left].
      apply elem_of_singleton in HX as ->. right. exists sc. split; [by left|done].
  - right. exists sc'. split; [by right|done].
Qed.

Section Levels.
Hypothesis Hnamed : named env.

(** One turn of the outer loop keeps what holds between the levels. *)
Lemma scanLevel_scan_inv (ro : RangeOrder) L s visited cur :
  scan_inv env t0 L s visited cur ->
  let r := scanLevel ro env s visited cur in
  scan_inv env t0 (S L) r.1.1 r.1.2 r.2.
Proof.
  intros (Hdesc & Hlen & Hpaths & Hclosed & Hreach & Hsound & Hres). cbv zeta.
  destruct (scanLevel_desc_inv env ro L s visited cur Hdesc Hlen) as [Hd' Hl'].
  destruct (scanLevel_reach env t0 Hnamed ro L s visited cur Hdesc Hlen Hclosed Hreach Hres)
    as (Hc' & Hr' & Hs').
  split; [done|]. split; [done|]. split; [|split; [done|split; [done|split; [|done]]]].
  - unfold scanLevel. cbv zeta. simpl. rewrite recordNames_spec. simpl.
    apply (scanTypes_paths env t0 (Build_builder s [] visited ∅) cur).
    + apply Hpaths.
    + split; [intros sc Hsc; by apply elem_of_nil in Hsc|apply Hpaths].
  - intros X HX. unfold scanLevel in HX. cbv zeta in HX. simpl in HX.
    apply scanTypes_visited_from in HX as [HX|(sc & Hin & Hsc)].
    + destruct (Hsound X HX) as (q & ty & Hq & Hty & Hlt).
      exists q, ty. repeat split; try done. lia.
    + exists (index sc), (typ sc). split; [by apply Hpaths|]. split; [done|].
      rewrite Forall_forall in Hlen. rewrite (Hlen sc Hin). lia.
Qed.

Lemma scan_inv_start :
  scan_inv env t0 0 emptyStructFields ∅ [{| typ := t0; index := [] |}].
Proof.
  split; [apply desc_inv_empty|]. split; [by repeat constructor|].
  split; [|split; [|split; [|split]]].
  - split.
    + intros sc Hsc. apply list_elem_of_singleton in Hsc as ->. apply anon_here.
    + intros name fi Hfi. cbn in Hfi. by rewrite lookup_empty in Hfi.
  - intros Y i g Z HY. by apply elem_of_empty in HY.
  - intros q ty X Hq HX Hlen. right.
    destruct q; [|simpl in Hlen; lia]. split; [done|].
    inversion Hq as [|p0 ty1 n0 i g]; subst.
    + eexists. split; [by apply list_elem_of_singleton|done].
    + by destruct p0.
  - intros X HX. by apply elem_of_empty in HX.
  - intros X f0 n0 HX. by apply elem_of_empty in HX.
Qed.

(** The conflict that the loop ends with is a colliding name. *)
Lemma scanLevels_conflict_real fuel (ro : RangeOrder) L s visited cur r :
  scan_inv env t0 L s visited cur -> conflict_real env t0 s ->
  scanLevels fuel ro env s visited cur = Some r -> conflict_real env t0 r.
Proof.
  revert L s visited cur.
  induction fuel as [|fuel IH]; intros L s visited cur Hinv Hconf Hrun.
  - destruct cur; [|done]. simpl in Hrun. by simplify_eq.
  - destruct cur as [|sc cur]; [simpl in Hrun; by simplify_eq|].
    pose proof (scanLevel_scan_inv ro L s visited (sc :: cur) Hinv) as Hinv'.
    rewrite scanLevels_step in Hrun by done. cbv zeta in Hrun.
    refine (IH (S L) _ _ _ Hinv' _ Hrun).
    unfold conflict_real, scanLevel. cbn [fst snd]. rewrite recordNames_spec.
    cbn [conflict].
    destruct Hinv as (_ & Hlen & Hpaths & _).
    apply (scanTypes_origin L (Build_builder s [] visited ∅) (sc :: cur)); try done.
    apply Hpaths.
Qed.

(** When nothing is left to scan, every embedded record has been seen. *)
Lemma all_embedded_visited L visited q ty X :
  embeds_closed env visited [] -> level_reached env t0 L visited [] ->
  anon_path env t0 q ty -> derefType ty = TStruct X -> X ∈ visited.
Proof.
  intros Hclosed Hreach Hp. revert X.
  induction Hp as [|p ty1 n i g Hp1 IHp Hn Hg Ha]; intros X HX.
  - destruct (Hreach [] t0 X (anon_here env t0) HX) as [H|[_ (sc & Hsc & _)]];
      [simpl; lia|done|].
    by apply elem_of_nil in Hsc.
  - destruct (Hclosed n i g X (IHp n Hn) Hg Ha HX) as [H|(sc & Hsc & _)]; [done|].
    by apply elem_of_nil in Hsc.
Qed.

Section TwoRecords.
Variables A B n : string.
Variables (qA qB : list nat) (tyA tyB : type).
Variables (jA jB : nat) (gA gB : StructField).
Hypothesis HqA : anon_path env t0 qA tyA.
Hypothesis HqB : anon_path env t0 qB tyB.
Hypothesis HtyA : derefType tyA = TStruct A.
Hypothesis HtyB : derefType tyB = TStruct B.
Hypothesis Hlevel : length qA = length qB.
Hypothesis HAB : A <> B.
Hypothesis HgA : structDecl env A !! jA = Some gA.
Hypothesis HgB : structDecl env B !! jB = Some gB.
Hypothesis HdeclA : declares gA n.
Hypothesis HdeclB : declares gB n.
Hypothesis Hshallow : forall q ty X f,
  anon_path env t0 q ty -> derefType ty = TStruct X -> (length q < length qA)%nat ->
  f ∈ structDecl env X -> ~ declares f n.

Lemma structDecl_lookup X j g :
  structDecl env X !! j = Some g -> exists decl, env !! X = Some decl /\ decl !! j = Some g.
Proof.
  unfold structDecl. destruct (env !! X) as [decl|]; simpl; [by exists decl|done].
Qed.

Lemma scanType_both L s0 b sc :
  fields s0 !! n = None -> length (index sc) = L ->
  level_inv L s0 b -> both_scanned A B n b -> both_scanned A B n (scanType env b sc).
Proof.
  intros Hs0 Hlen Hinv [Hfound Hconf].
  destruct (structDecl_lookup _ _ _ HgA) as (declA & HA & HjA).
  destruct (structDecl_lookup _ _ _ HgB) as (declB & HB & HjB).
  destruct (scanType_sticky env b sc Hnamed) as [Hmono Hsticky].
  destruct (scanType_visited_cases env b sc) as [->|(X & HX & Hnew & Hvis)]; [done|].
  unfold both_scanned. rewrite Hvis.
  destruct (decide (X = A)) as [->|HXA]; [|destruct (decide (X = B)) as [->|HXB]].
  - destruct (scanType_declaring env L s0 b sc A declA jA gA n) as [Hin Hc]; try done.
    split; [done|]. intros _ HBv. apply Hc, Hfound. right. set_solver.
  - destruct (scanType_declaring env L s0 b sc B declB jB gB n) as [Hin Hc]; try done.
    split; [done|]. intros HAv _. apply Hc, Hfound. left. set_solver.
  - split.
    + intros Hv. apply Hmono, Hfound. set_solver.
    + intros HAv HBv. apply Hsticky, Hconf; set_solver.
Qed.

Lemma scanTypes_both L s0 b scans :
  fields s0 !! n = None -> Forall (fun sc => length (index sc) = L) scans ->
  level_inv L s0 b -> both_scanned A B n b ->
  both_scanned A B n (foldl (scanType env) b scans).
Proof.
  intros Hs0 Hscans. revert b.
  induction Hscans as [|sc scans Hsc _ IH]; intros b Hinv Hb; [done|].
  simpl. apply IH; [by apply scanType_inv|by apply (scanType_both L s0)].
Qed.

(** Neither record has been seen before the level at which both are
    embedded, and the name is not resolved before that level. *)
Lemma not_seen_before L visited X q ty j g :
  (L <= length qA)%nat -> visited_sound env t0 L visited ->
  anon_path env t0 q ty -> derefType ty = TStruct X ->
  structDecl env X !! j = Some g -> declares g n -> X ∉ visited.
Proof.
  intros HL Hsound Hq Hty Hg Hdecl HX.
  destruct (Hsound X HX) as (q' & ty' & Hq' & Hty' & Hlt).
  apply (Hshallow q' ty' X g Hq' Hty'); [lia| |done].
  by eapply list_elem_of_lookup_2.
Qed.

Lemma not_resolved_before L s cur :
  (L <= length qA)%nat -> desc_inv L s -> paths_inv env t0 (fields s) cur ->
  fields s !! n = None.
Proof.
  intros HL Hdesc [_ Hpaths].
  destruct (fields s !! n) as [fi|] eqn:Hfi; [exfalso|done].
  destruct (Hpaths n fi Hfi) as [_ [f (q & ty & X & i & Hp & Hq & Hty & Hf & Hdecl)]].
  pose proof (desc_depth _ _ Hdesc n fi Hfi) as Hdepth.
  rewrite Hp, length_app in Hdepth. simpl in Hdepth.
  apply (Hshallow q ty X f Hq Hty); [lia| |done].
  by eapply list_elem_of_lookup_2.
Qed.

Lemma scanLevels_conflict_found fuel (ro : RangeOrder) L s visited cur r :
  (L <= length qA)%nat -> scan_inv env t0 L s visited cur ->
  scanLevels fuel ro env s visited cur = Some r -> conflict r <> ""%string.
Proof.
  revert L s visited cur.
  induction fuel as [|fuel IH]; intros L s visited cur HL Hinv Hrun.
  - destruct cur; [|done]. exfalso.
    destruct Hinv as (_ & _ & _ & Hclosed & Hreach & Hsound & _).
    apply (not_seen_before L visited A qA tyA jA gA); try done.
    by apply (all_embedded_visited L visited qA tyA A).
  - destruct cur as [|sc cur].
    { exfalso. destruct Hinv as (_ & _ & _ & Hclosed & Hreach & Hsound & _).
      apply (not_seen_before L visited A qA tyA jA gA); try done.
      by apply (all_embedded_visited L visited qA tyA A). }
    pose proof (scanLevel_scan_inv ro L s visited (sc :: cur) Hinv) as Hinv'.
    rewrite scanLevels_step in Hrun by done. cbv zeta in Hrun.
    destruct (decide (L = length qA)) as [HLA|HLA].
    + eapply scanLevels_conflict_sticky; [done| |exact Hrun].
      rewrite recordNames_spec. cbn [conflict].
      destruct Hinv as (Hdesc & Hlen & Hpaths & Hclosed & Hreach & Hsound & _).
      assert (Hs0 : fields s !! n = None) by by eapply not_resolved_before.
      assert (HnA : A ∉ visited) by by apply (not_seen_before L visited A qA tyA jA gA).
      assert (HnB : B ∉ visited)
        by (apply (not_seen_before L visited B qB tyB jB gB); try done).
      assert (Hboth : both_scanned A B n
                (foldl (scanType env) (Build_builder s [] visited ∅) (sc :: cur))).
      { apply (scanTypes_both L s); [done|done|apply level_inv_start|].
        split; simpl; [intros [?|?]; done|done]. }
      destruct Hboth as [_ Hboth]. apply Hboth.
      * destruct (Hreach qA tyA A HqA HtyA) as [H|[_ (scA & HscA & HtA)]]; [lia|done|].
        by apply (scanTypes_mark env _ _ scA).
      * destruct (Hreach qB tyB B HqB HtyB) as [H|[_ (scB & HscB & HtB)]]; [lia|done|].
        by apply (scanTypes_mark env _ _ scB).
    + refine (IH (S L) _ _ _ _ Hinv' Hrun). lia.
Qed.

End TwoRecords.
End Levels.
End Collisions.

(** The conflict recorded in a descriptor is a colliding name. *)
Lemma buildStructFields_conflict_real env (ro : RangeOrder) t :
  named env -> conflict_real env t (buildStructFields ro env t).
Proof.
  intros Hnamed.
  pose proof (buildStructFields_total env ro t) as Hrun.
  unfold buildStructFields_opt in Hrun.
  apply (scanLevels_conflict_real env t Hnamed _ ro 0 _ _ _ _
           (scan_inv_start env t)) in Hrun; [done|by left].
Qed.

Section Refused.
Variable ro : RangeOrder.
Variable env : Decls.
Variable ToLower : string -> string.
Variable d : Decoder.

(** A descriptor with a conflict is refused, from whatever build the cache
    has it. *)
Lemma conflict_refused_built rec data raw t v c :
  rawObject data = Some raw -> built env c ->
  conflict (buildStructFields ro env t) <> ""%string ->
  let r := unmarshalStruct ro env ToLower d rec data t v c in
  err r = Some (fieldConflictError (conflict (buildStructFields ro env t)))
  /\ target r = v.
Proof.
  intros Hraw Hc Hconf. cbv zeta. unfold unmarshalStruct. rewrite Hraw.
  destruct (CacheFacts.getStructFields_built ro env c t Hc) as (_ & s' & [_ Hs'] & Hans).
  destruct (getStructFields ro env c t) as [r1 c']. simpl in Hans. subst r1.
  rewrite Hs'. by rewrite decide_True.
Qed.

(** C7, as the code has it.  Let the record [T] reach, through embedded
    fields (by value or by pointer), two different records [A] and [B] at
    the same embedding depth, each declaring the external name [n], and let
    no record embedded at a lesser depth, [T] included, declare [n], so
    that nothing shadows it (field names being non-empty, as Go
    identifiers are).  Then the descriptor of [T] records a conflict.  The
    key it records is a colliding one: two different fields of records
    embedded at one depth declare it; when [n] is the only such name it is
    [n] (with several collisions it is the last one the traversal met).
    Every decode of a JSON object into a [T] without custom decoder fails
    with the field-conflict error naming that key, whatever keys the object
    has, also none, and whatever built descriptors the cache holds; the
    target is returned as it was and no member is decoded ([rec] is
    arbitrary). *)
Theorem embedded_conflict_fails_every_object
    (T A B n : string) (qA qB : list nat) (tyA tyB : type)
    (jA jB : nat) (gA gB : StructField) :
  named env ->
  anon_path env (TStruct T) qA tyA -> anon_path env (TStruct T) qB tyB ->
  derefType tyA = TStruct A -> derefType tyB = TStruct B ->
  length qA = length qB -> A <> B ->
  structDecl env A !! jA = Some gA -> structDecl env B !! jB = Some gB ->
  declares gA n -> declares gB n ->
  (forall q ty X f,
      anon_path env (TStruct T) q ty -> derefType ty = TStruct X ->
      (length q < length qA)%nat -> f ∈ structDecl env X -> ~ declares f n) ->
  let s := buildStructFields ro env (TStruct T) in
  conflict s <> ""%string
  /\ collision env (TStruct T) (conflict s)
  /\ ((forall m, collision env (TStruct T) m -> m = n) -> conflict s = n)
  /\ (forall rec data raw v c,
        rawObject data = Some raw -> built env c ->
        let r := unmarshalStruct ro env ToLower d rec data (TStruct T) v c in
        err r = Some (fieldConflictError (conflict s)) /\ target r = v)
  /\ (forall implementsUnmarshaler jsonUnmarshal members v c,
        implementsUnmarshaler (TPtr (TStruct T)) = false -> built env c ->
        let r := unmarshalValue ro env implementsUnmarshaler ToLower jsonUnmarshal d
                   (JObject members) (TStruct T) v c in
        err r = Some (fieldConflictError (conflict s)) /\ target r = v).
Proof.
  intros Hnamed HqA HqB HtyA HtyB Hlevel HAB HgA HgB HdeclA HdeclB Hshallow s.
  assert (Hconf : conflict s <> ""%string).
  { pose proof (buildStructFields_total env ro (TStruct T)) as Hrun.
    unfold buildStructFields_opt in Hrun.
    refine (scanLevels_conflict_found env (TStruct T) Hnamed A B n qA qB tyA tyB jA jB gA gB
              HqA HqB HtyA HtyB Hlevel HAB HgA HgB HdeclA HdeclB Hshallow
              _ ro 0 _ _ _ _ _ (scan_inv_start env (TStruct T)) Hrun).
    lia. }
  assert (Hreal : collision env (TStruct T) (conflict s)).
  { destruct (buildStructFields_conflict_real env ro (TStruct T) Hnamed) as [H|H];
      [by destruct Hconf|done]. }
  split; [done|]. split; [done|]. split; [|split].
  - intros Honly. by apply Honly.
  - intros rec data raw v c Hraw Hc. by apply (conflict_refused_built rec data raw).
  - intros impl ju members v c Himpl Hc. rewrite WalkerFacts.unmarshalValue_unfold.
    unfold unmarshalValue_body. rewrite Himpl. simpl.
    by apply (conflict_refused_built _ (JObject members) _ (TStruct T) v c eq_refl).
Qed.

End Refused.

Lemma deepConflictDecls_named : named deepConflictDecls.
Proof.
  apply named_list_to_map. repeat (constructor; [repeat constructor; done|]). constructor.
Qed.

(** [Top] embeds [MidL] and [*MidR], which embed [A] and [*B]: "name" is
    declared twice, two levels down, and by nothing above. *)
Lemma embedded_conflict_fails_every_object_witness :
  let r := unmarshalValue Samples.keepOrder deepConflictDecls Samples.noUnmarshaler
             Samples.asciiToLower (Samples.stdUnmarshal Samples.noStructDecoder)
             (NewDecoder []) (JObject [("id"%string, JNumber "1")])
             (TStruct "Top") VZero emptyCache in
  err r = Some (fieldConflictError
                  (conflict (buildStructFields Samples.keepOrder deepConflictDecls
                               (TStruct "Top"))))
  /\ target r = VZero.
Proof.
  assert (Htop : structDecl deepConflictDecls "Top"
                 = [Samples.embedded "MidL" (TStruct "MidL");
                    Samples.embedded "MidR" (TPtr (TStruct "MidR"));
                    Samples.field "ID" TInt "id"]) by (vm_compute; reflexivity).
  assert (HmidL : structDecl deepConflictDecls "MidL" = [Samples.embedded "A" (TStruct "A")])
    by (vm_compute; reflexivity).
  assert (HmidR : structDecl deepConflictDecls "MidR"
                  = [Samples.embedded "B" (TPtr (TStruct "B"))])
    by (vm_compute; reflexivity).
  assert (Hroot : forall ty, anon_path deepConflictDecls (TStruct "Top") [] ty ->
                             ty = TStruct "Top").
  { intros ty Hp. inversion Hp as [|p ? ? ? ? ? ? ? ? Heq]; [done|by destruct p]. }
  refine (proj2 (proj2 (proj2 (proj2
    (embedded_conflict_fails_every_object Samples.keepOrder deepConflictDecls
       Samples.asciiToLower (NewDecoder [])
       "Top" "A" "B" "name" [0; 0]%nat [1; 0]%nat (TStruct "A") (TPtr (TStruct "B"))
       0%nat 0%nat (Samples.field "Name" TString "name")
       (Samples.field "Name" TString "name")
       deepConflictDecls_named _ _ eq_refl eq_refl eq_refl _ _ _ _ _ _))))
    Samples.noUnmarshaler (Samples.stdUnmarshal Samples.noStructDecoder)
    [("id"%string, JNumber "1")] VZero emptyCache eq_refl _).
  - apply (anon_step deepConflictDecls (TStruct "Top") [0%nat] (TStruct "MidL") "MidL" 0
             (Samples.embedded "A" (TStruct "A"))); [|done|by rewrite HmidL|done].
    apply (anon_step deepConflictDecls (TStruct "Top") [] (TStruct "Top") "Top" 0
             (Samples.embedded "MidL" (TStruct "MidL")));
      [apply anon_here|done|by rewrite Htop|done].
  - apply (anon_step deepConflictDecls (TStruct "Top") [1%nat] (TPtr (TStruct "MidR")) "MidR"
             0 (Samples.embedded "B" (TPtr (TStruct "B")))); [|done|by rewrite HmidR|done].
    apply (anon_step deepConflictDecls (TStruct "Top") [] (TStruct "Top") "Top" 1
             (Samples.embedded "MidR" (TPtr (TStruct "MidR"))));
      [apply anon_here|done|by rewrite Htop|done].
  - discriminate.
  - vm_compute. reflexivity.
  - vm_compute. reflexivity.
  - repeat split; discriminate.
  - repeat split; discriminate.
  - intros q ty X f Hq Hty Hlen Hf (Ha & He & Ht & Hn).
    destruct q as [|i [|i' q]]; [| |simpl in Hlen; lia].
    + apply Hroot in Hq as ->. injection Hty as <-.
      rewrite Htop in Hf. apply list_elem_of_In in Hf.
      destruct Hf as [<-|[<-|[<-|[]]]]; discriminate.
    + apply (anon_path_snoc deepConflictDecls (TStruct "Top") [] i) in Hq
        as (ty0 & n0 & g & Hp & Hn0 & Hg & Hanon & ->).
      apply Hroot in Hp as ->. injection Hn0 as <-. rewrite Htop in Hg.
      destruct i as [|[|[|i]]]; simpl in Hg; simplify_eq.
      { injection Hty as <-. rewrite HmidL in Hf. apply list_elem_of_In in Hf.
        destruct Hf as [<-|[]]; discriminate. }
      { injection Hty as <-. rewrite HmidR in Hf. apply list_elem_of_In in Hf.
        destruct Hf as [<-|[]]; discriminate. }
  - intros t. by left.
Defined.

End ConflictFacts.

(** * More on field access *)

Module AccessFacts.
Import FieldMap FieldMapSpec Walker WalkerSpec SlotFacts.

(** X14.  The slot that [getFieldByIndex] returns is a lens into the
    target: it has the static type of the field at the index path; reading
    the path in the target the walk left gives the content of the slot;
    writing through the slot and reading the path gives what was written;
    writing back what the slot holds gives the target the walk left; and a
    write through the slot changes nothing at an index path that parts
    from this one. *)
Theorem getFieldByIndex_slot_lens (env : Decls) (t : type) (v : value) (fl : flagRO)
    (index : list nat) (root : value) (sl : slot) :
  getFieldByIndex env t v fl id index = (root, Some sl) ->
  typeByIndex env t index = Some (slotType sl)
  /\ fieldByIndex env t root index = Some (slotValue sl)
  /\ (forall y, fieldByIndex env t (slotSet sl y) index = Some y)
  /\ slotSet sl (slotValue sl) = root
  /\ (forall q y, diverge index q ->
        fieldByIndex env t (slotSet sl y) q = fieldByIndex env t root q).
Proof.
  intros H. split; [by eapply getFieldByIndex_type|].
  split; [by eapply slot_read|].
  split; [intros y; by eapply slot_set_read|].
  split; [by eapply slot_set_same|].
  intros q y Hd. by eapply slot_set_frame.
Qed.

Lemma getFieldByIndex_slot_lens_witness :
  fieldByIndex Samples.testDecls (TStruct "Extended")
    (VStruct [VStruct [VInt 7; VZero]; VZero]) [0; 0]%nat = Some (VInt 7).
Proof.
  destruct (getFieldByIndex_slot_lens Samples.testDecls (TStruct "Extended") VZero
              settable [0; 0]%nat
              (getFieldByIndex Samples.testDecls (TStruct "Extended") VZero settable id
                 [0; 0]%nat).1
              {| slotType := TInt; slotValue := VZero; slotFlags := settable;
                 slotSet := fun x => VStruct [VStruct [x; VZero]; VZero] |})
    as (_ & _ & H & _).
  - vm_compute. reflexivity.
  - exact (H (VInt 7)).
Defined.

(** X15.  Walking to a field only allocates: what could be read at an
    index path that parts from the walked one is read there afterwards,
    and where nothing had been written (a nil pointer on the way, or a zero
    value) nothing has been written afterwards. *)
Theorem getFieldByIndex_only_allocates (env : Decls) (t : type) (v : value)
    (fl : flagRO) (p q : list nat) :
  diverge p q ->
  (forall z, fieldByIndex env t v q = Some z ->
             fieldByIndex env t (getFieldByIndex env t v fl id p).1 q = Some z)
  /\ (unwritten env t v q -> unwritten env t (getFieldByIndex env t v fl id p).1 q).
Proof.
  intros Hd. split.
  - intros z. by apply walk_keeps_read.
  - by apply walk_keeps_unwritten.
Qed.

Lemma getFieldByIndex_only_allocates_witness :
  fieldByIndex Samples.testDecls (TStruct "Extended")
    (getFieldByIndex Samples.testDecls (TStruct "Extended")
       (VStruct [VZero; VString "x"]) settable id [0; 1]%nat).1 [1%nat]
  = Some (VString "x").
Proof.
  destruct (getFieldByIndex_only_allocates Samples.testDecls (TStruct "Extended")
              (VStruct [VZero; VString "x"]) settable [0; 1]%nat [1%nat]) as [H _].
  - exists [], 0%nat, 1%nat, [1%nat], []. repeat split. lia.
  - apply H. vm_compute. reflexivity.
Defined.

(** X16.  When the embedded fields of the declared records are exported
    structs or pointers to structs, no key of a descriptor is skipped: on
    any target, the walk along the index path of the key reaches a slot
    that can be set, of the type of the field that declares the key. *)
Theorem descriptor_paths_settable (env : Decls) (ro : RangeOrder) (R : string)
    (name : string) (fi : fieldInfo) (v : value) :
  embeds_ok env ->
  fields (buildStructFields ro env (TStruct R)) !! name = Some fi ->
  exists root sl f,
    getFieldByIndex env (TStruct R) v settable id (fieldIndex fi) = (root, Some sl)
    /\ CanSet (slotFlags sl) = true
    /\ slotType sl = Typ f
    /\ field_path env (TStruct R) name (fieldIndex fi) f.
Proof.
  intros Hemb Hfi.
  destruct (FieldMapFacts.buildStructFields_paths env ro (TStruct R) name fi Hfi)
    as [_ [f Hpath]].
  destruct (field_path_reaches env (TStruct R) name (fieldIndex fi) f v Hemb)
    as (root & sl & Hget & Hty & Hset); [by exists R; left|done|].
  by exists root, sl, f.
Qed.

Lemma descriptor_paths_settable_witness :
  exists root sl f,
    getFieldByIndex Samples.testDecls (TStruct "Extended") VZero settable id [0; 1]%nat
      = (root, Some sl)
    /\ CanSet (slotFlags sl) = true
    /\ slotType sl = Typ f
    /\ field_path Samples.testDecls (TStruct "Extended") "name" [0; 1]%nat f.
Proof.
  apply (descriptor_paths_settable Samples.testDecls Samples.keepOrder "Extended" "name"
           {| jsonName := "name"; fieldIndex := [0; 1]%nat |} VZero).
  - apply DecodeFacts.testDecls_embeds_ok.
  - vm_compute. reflexivity.
Defined.

Lemma fieldValues_of_normal n v :
  fieldValues_of n (VStruct (fieldValues_of n v)) = fieldValues_of n v.
Proof.
  unfold fieldValues_of at 1. apply resize_all_alt. by rewrite length_fieldValues_of.
Qed.

(** X17.  A key promoted from an embedded pointer to an unexported record
    is skipped while that pointer is nil: the pointer cannot be set, so the
    walk to the field stops there, the member is not decoded at all, no
    error is raised, the loop goes on with the next key, and every field
    of the target reads as before. *)
Theorem unexported_embedded_nil_pointer_skipped (env : Decls)
    (rec : json -> type -> value -> Cache -> outcome) (s : structFields)
    (raw : gmap string json) (T : string) (k : string) (fi : fieldInfo) (x : json)
    (i j : nat) (rest : list nat) (g : StructField) (e : type)
    (keys : list string) (v : value) (c : Cache) :
  fields s !! k = Some fi -> raw !! k = Some x ->
  fieldIndex fi = i :: j :: rest ->
  structDecl env T !! i = Some g ->
  Anonymous g = true -> IsExported g = false -> Typ g = TPtr e ->
  pointee_of (default VZero (fieldValues_of (length (structDecl env T)) v !! i)) = None ->
  let v' := VStruct (fieldValues_of (length (structDecl env T)) v) in
  decodeFields env rec s raw (TStruct T) (k :: keys) v c
  = decodeFields env rec s raw (TStruct T) keys v' c
  /\ (forall i' q, fieldByIndex env (TStruct T) v' (i' :: q)
                   = fieldByIndex env (TStruct T) v (i' :: q)).
Proof.
  intros Hfi Hraw Hidx Hg Ha He Hty Hnil. cbv zeta. split.
  - cbn [decodeFields]. rewrite Hfi, Hraw, Hidx.
    cbn [getFieldByIndex]. rewrite Hg, Hty, Hnil, Ha, He. cbn.
    rewrite list_insert_id; [done|].
    destruct (lookup_lt_is_Some_2 (fieldValues_of (length (structDecl env T)) v) i)
      as [y Hy].
    { rewrite length_fieldValues_of. by eapply lookup_lt_Some. }
    by rewrite Hy.
  - intros i' q. cbn [fieldByIndex]. by rewrite fieldValues_of_normal.
Qed.

Lemma unexported_embedded_nil_pointer_skipped_witness :
  let rec := unmarshalValue Samples.keepOrder hiddenDecls Samples.noUnmarshaler
               Samples.asciiToLower (Samples.stdUnmarshal Samples.noStructDecoder)
               (NewDecoder []) in
  let s := buildStructFields Samples.keepOrder hiddenDecls (TStruct "Holder") in
  let raw : gmap string json := {[ "id"%string := JNumber "7" ]} in
  fieldIndex <$> fields s !! "id"%string = Some [0; 0]%nat
  /\ decodeFields hiddenDecls rec s raw (TStruct "Holder") ["id"%string] VZero emptyCache
     = decodeFields hiddenDecls rec s raw (TStruct "Holder") [] (VStruct [VZero; VZero])
         emptyCache.
Proof.
  cbv zeta. split; [vm_compute; reflexivity|].
  apply (unexported_embedded_nil_pointer_skipped hiddenDecls _ _ _ "Holder" "id"
           {| jsonName := "id"; fieldIndex := [0; 0]%nat |} (JNumber "7") 0 0 []
           {| Name := "inner"; Typ := TPtr (TStruct "inner"); Tag := "";
              Anonymous := true; IsExported := false |} (TStruct "inner")).
  - vm_compute. reflexivity.
  - vm_compute. reflexivity.
  - reflexivity.
  - vm_compute. reflexivity.
  - reflexivity.
  - reflexivity.
  - reflexivity.
  - vm_compute. reflexivity.
Defined.

End AccessFacts.

(** * More on pointers, slices and maps *)

Module ContainerFacts.
Import FieldMap FieldMapSpec Walker WalkerSpec WalkerFacts.

Lemma allocatePointers_set t v (set : value -> value) :
  allocatePointers t v set
  = ((allocatePointers t v id).1, fun x => set ((allocatePointers t v id).2 x)).
Proof.
  revert v set. induction t; intros v set; try done.
  cbn [allocatePointers].
  rewrite (IHt _ (fun x => set (VPtr x))), (IHt _ (fun x => id (VPtr x))). done.
Qed.

Lemma outcome_eta (r : outcome) :
  {| err := err r; target := id (target r); cache := cache r |} = r.
Proof. by destruct r. Qed.

Section Containers.
Variable ro : RangeOrder.
Variable env : Decls.
Variable implementsUnmarshaler : type -> bool.
Variable ToLower : string -> string.
Variable jsonUnmarshal : json -> type -> value -> option error * value.
Variable d : Decoder.

Local Abbreviation walk :=
  (unmarshalValue ro env implementsUnmarshaler ToLower jsonUnmarshal d).
Local Abbreviation body :=
  (unmarshalValue_body ro env implementsUnmarshaler ToLower jsonUnmarshal d).

Lemma body_not_null rec data t v c :
  data <> JNull ->
  body rec data t v c
  = if implementsUnmarshaler (TPtr t) then jsonUnmarshal_into jsonUnmarshal data t v id c
    else
      let '(t', v', set) := allocatePointers t v id in
      let r :=
        match kind t' with
        | Struct => unmarshalStruct ro env ToLower d rec data t' v' c
        | Slice => unmarshalSlice implementsUnmarshaler jsonUnmarshal rec data t' v' c
        | Map => unmarshalMap ro implementsUnmarshaler jsonUnmarshal rec data t' v' c
        | _ => jsonUnmarshal_into jsonUnmarshal data t' v' id c
        end in
      {| err := err r; target := set (target r); cache := cache r |}.
Proof. intros Hd. by destruct data. Qed.

(** X18.  Decoding into a pointer slot allocates the pointer and decodes
    into what it points to: for a document other than [null] the slot
    holds a pointer afterwards, also when decoding fails; and unless the
    pointed-to type has a decoder of its own on its pointer, error, pointee
    and cache are those of decoding into the pointee, a nil pointer
    standing for the zero value. *)
Theorem pointer_slot_allocated (data : json) (e : type) (v : value) (c : Cache) :
  data <> JNull ->
  implementsUnmarshaler (TPtr (TPtr e)) = false ->
  let r := walk data (TPtr e) v c in
  (exists x, target r = VPtr x)
  /\ (implementsUnmarshaler (TPtr e) = false ->
      let r' := walk data e (default VZero (pointee_of v)) c in
      err r = err r' /\ target r = VPtr (target r') /\ cache r = cache r').
Proof.
  intros Hd Hpp. cbv zeta.
  rewrite !unmarshalValue_unfold. rewrite !body_not_null by done. rewrite Hpp.
  cbn [allocatePointers]. rewrite allocatePointers_set.
  destruct (allocatePointers e (default VZero (pointee_of v)) id) as [[t' v'] set].
  cbn [fst snd]. split; [by eexists|].
  intros Hp. by rewrite Hp.
Qed.

(** X19.  Slices and maps whose element type holds no record to validate
    go to the standard decoder in one piece, whatever the options are; a
    fixed-size array always does, also an array of records. *)
Theorem plain_containers_delegated (e : type) (v : value) (c : Cache) :
  (forall elems,
     implementsUnmarshaler (TPtr (TSlice e)) = false ->
     containsStruct implementsUnmarshaler e = false ->
     walk (JArray elems) (TSlice e) v c
     = jsonUnmarshal_into jsonUnmarshal (JArray elems) (TSlice e) v id c)
  /\ (forall members,
     implementsUnmarshaler (TPtr (TMap e)) = false ->
     containsStruct implementsUnmarshaler e = false ->
     walk (JObject members) (TMap e) v c
     = jsonUnmarshal_into jsonUnmarshal (JObject members) (TMap e) v id c)
  /\ (forall data n,
     data <> JNull ->
     implementsUnmarshaler (TPtr (TArray n e)) = false ->
     walk data (TArray n e) v c
     = jsonUnmarshal_into jsonUnmarshal data (TArray n e) v id c).
Proof.
  repeat split.
  - intros elems Hi Hc. rewrite unmarshalValue_unfold, body_not_null by done.
    rewrite Hi. cbn. unfold unmarshalSlice. cbn. rewrite Hc. cbn.
    apply outcome_eta.
  - intros members Hi Hc. rewrite unmarshalValue_unfold, body_not_null by done.
    rewrite Hi. cbn. unfold unmarshalMap. cbn. rewrite Hc. cbn.
    apply outcome_eta.
  - intros data n Hd Hi. rewrite unmarshalValue_unfold, body_not_null by done.
    rewrite Hi. cbn. apply outcome_eta.
Qed.

(** Validation is needed for a type exactly when the type at the bottom of
    its pointers, slices, arrays and maps is a record whose pointer has no
    decoder of its own; how the containers are nested makes no difference. *)
Lemma containsStruct_bottom_type (t : type) :
  containsStruct implementsUnmarshaler t
  = match elemCore t with
    | TStruct n => negb (implementsUnmarshaler (TPtr (TStruct n)))
    | _ => false
    end
  /\ containsStruct implementsUnmarshaler (TPtr t) = containsStruct implementsUnmarshaler t
  /\ containsStruct implementsUnmarshaler (TSlice t) = containsStruct implementsUnmarshaler t
  /\ containsStruct implementsUnmarshaler (TMap t) = containsStruct implementsUnmarshaler t.
Proof.
  repeat split. induction t; try done.
Qed.

(** X20.  The recursion of the walker is bounded by the nesting depth of
    the document: every recursive call is on a member or an element of the
    raw input, so any number of unfoldings above that depth gives the
    result of [unmarshalValue], which satisfies the recursive equation of
    the source. *)
Theorem unmarshalValue_depth_bounded (fuel : nat) (data : json) (t : type) (v : value)
    (c : Cache) :
  (json_depth data < fuel)%nat ->
  unmarshalValue_fuel ro env implementsUnmarshaler ToLower jsonUnmarshal d fuel data t v c
  = walk data t v c
  /\ walk data t v c = body walk data t v c.
Proof.
  intros Hf. split.
  - unfold unmarshalValue. apply unmarshalValue_fuel_enough; lia.
  - apply unmarshalValue_unfold.
Qed.

End Containers.

Lemma pointer_slot_allocated_witness :
  exists x,
    target (unmarshalValue Samples.keepOrder Samples.testDecls Samples.noUnmarshaler
              Samples.asciiToLower (Samples.stdUnmarshal Samples.noStructDecoder)
              (NewDecoder []) (JObject [("Name"%string, JString "x")])
              (TPtr (TStruct "Person")) VZero emptyCache) = VPtr x.
Proof.
  apply (pointer_slot_allocated Samples.keepOrder Samples.testDecls Samples.noUnmarshaler
           Samples.asciiToLower (Samples.stdUnmarshal Samples.noStructDecoder)
           (NewDecoder []) (JObject [("Name"%string, JString "x")]) (TStruct "Person")
           VZero emptyCache).
  - discriminate.
  - reflexivity.
Defined.

Lemma plain_containers_delegated_witness :
  unmarshalValue Samples.keepOrder Samples.testDecls Samples.noUnmarshaler
    Samples.asciiToLower (Samples.stdUnmarshal Samples.noStructDecoder) (NewDecoder [])
    (JArray [JString "a"; JString "b"]) (TSlice TString) VZero emptyCache
  = jsonUnmarshal_into (Samples.stdUnmarshal Samples.noStructDecoder)
      (JArray [JString "a"; JString "b"]) (TSlice TString) VZero id emptyCache.
Proof.
  apply (plain_containers_delegated Samples.keepOrder Samples.testDecls
           Samples.noUnmarshaler Samples.asciiToLower
           (Samples.stdUnmarshal Samples.noStructDecoder) (NewDecoder []) TString VZero
           emptyCache); reflexivity.
Defined.

Lemma unmarshalValue_depth_bounded_witness :
  unmarshalValue_fuel Samples.keepOrder Samples.testDecls Samples.noUnmarshaler
    Samples.asciiToLower (Samples.stdUnmarshal Samples.noStructDecoder) (NewDecoder [])
    5 (JObject [("person"%string, JObject [("name"%string, JString "x")])])
    (TStruct "Wrapper") VZero emptyCache
  = unmarshalValue Samples.keepOrder Samples.testDecls Samples.noUnmarshaler
      Samples.asciiToLower (Samples.stdUnmarshal Samples.noStructDecoder) (NewDecoder [])
      (JObject [("person"%string, JObject [("name"%string, JString "x")])])
      (TStruct "Wrapper") VZero emptyCache.
Proof.
  apply (unmarshalValue_depth_bounded Samples.keepOrder Samples.testDecls
           Samples.noUnmarshaler Samples.asciiToLower
           (Samples.stdUnmarshal Samples.noStructDecoder) (NewDecoder []) 5).
  simpl. lia.
Defined.

End ContainerFacts.

(** * More on the loops over elements, entries and members *)

Module LoopFacts.
Import FieldMap FieldMapSpec Walker WalkerSpec WalkerFacts.

Lemma MapIndex_SetMapIndex entries k x k' :
  MapIndex (SetMapIndex entries k x) k'
  = if decide (k' = k) then Some x else MapIndex entries k'.
Proof.
  induction entries as [|[k0 x0] entries IH]; simpl.
  - repeat case_decide; congruence.
  - destruct (decide (k0 = k)) as [->|Hne]; simpl.
    + repeat case_decide; congruence.
    + rewrite IH. repeat case_decide; congruence.
Qed.

Section Loops.
Variable rec : json -> type -> value -> Cache -> outcome.

Lemma decodeElems_spec e rest i (ns : list value) c :
  (i + length rest <= length ns)%nat ->
  (forall j, (i <= j)%nat -> (j < length ns)%nat -> ns !! j = Some VZero) ->
  match decodeElems rec e rest i ns c with
  | (None, ns', _) =>
    length ns' = length ns
    /\ (forall j, (j < i)%nat -> ns' !! j = ns !! j)
    /\ (forall j x, rest !! j = Some x ->
          exists cj, err (rec x e VZero cj) = None
                     /\ ns' !! (i + j)%nat = Some (target (rec x e VZero cj)))
  | (Some e0, _, _) => exists x cj, x ∈ rest /\ err (rec x e VZero cj) = Some e0
  end.
Proof.
  revert i ns c. induction rest as [|x rest IH]; intros i ns c Hlen Hzero.
  { simpl. repeat split; try done. }
  simpl in Hlen. cbn [decodeElems]. cbv zeta.
  rewrite (Hzero i) by lia. cbn [default from_option id].
  destruct (err (rec x e VZero c)) as [e0|] eqn:He.
  { cbv beta iota. exists x, c. split; [by left|done]. }
  specialize (IH (S i) (<[ i := target (rec x e VZero c) ]> ns) (cache (rec x e VZero c))).
  rewrite length_insert in IH.
  destruct (decodeElems rec e rest (S i) _ _) as [[[e1|] ns'] c'].
  - destruct IH as (y & cj & Hy & Hey); [lia| |].
    { intros j Hj Hj'. rewrite list_lookup_insert_ne by lia. apply Hzero; lia. }
    exists y, cj. split; [by right|done].
  - destruct IH as (Hl & Hbefore & Hrest); [lia| |].
    { intros j Hj Hj'. rewrite list_lookup_insert_ne by lia. apply Hzero; lia. }
    split; [done|]. split.
    + intros j Hj. rewrite Hbefore by lia. by rewrite list_lookup_insert_ne by lia.
    + intros [|j] y Hy; simpl in Hy.
      * simplify_eq. exists c. split; [done|].
        rewrite Nat.add_0_r, Hbefore by lia. apply list_lookup_insert_eq. lia.
      * destruct (Hrest j y Hy) as (cj & Hcj & Hlook). exists cj. split; [done|].
        by replace (i + S j)%nat with (S i + j)%nat by lia.
Qed.

Lemma decodeEntries_spec e (rawMap : gmap string json) keys entries c :
  NoDup keys ->
  match decodeEntries rec e rawMap keys entries c with
  | (er, entries', _) =>
    (forall k, k ∉ keys -> MapIndex entries' k = MapIndex entries k)
    /\ (forall k, rawMap !! k = None -> MapIndex entries' k = MapIndex entries k)
    /\ (er = None -> forall k x, k ∈ keys -> rawMap !! k = Some x ->
          exists ck, err (rec x e VZero ck) = None
                     /\ MapIndex entries' k = Some (target (rec x e VZero ck)))
    /\ (forall e0, er = Some e0 ->
          exists k x ck, k ∈ keys /\ rawMap !! k = Some x
                         /\ err (rec x e VZero ck) = Some e0)
  end.
Proof.
  revert entries c. induction keys as [|k keys IH]; intros entries c Hnd.
  { simpl. repeat split; try done. intros _ k x Hk. by apply elem_of_nil in Hk. }
  apply NoDup_cons in Hnd as [Hk Hnd]. cbn [decodeEntries].
  destruct (rawMap !! k) as [x|] eqn:Hx.
  - cbv zeta. destruct (err (rec x e VZero c)) as [e0|] eqn:He.
    + cbv beta iota. repeat split; try done.
      intros e1 [= <-]. exists k, x, c. split; [by left|done].
    + specialize (IH (SetMapIndex entries k (target (rec x e VZero c)))
                     (cache (rec x e VZero c)) Hnd).
      destruct (decodeEntries rec e rawMap keys _ _) as [[er entries'] c'].
      destruct IH as (Hout & Hnone & Hin & Herr). repeat split.
      * intros k' Hk'. rewrite Hout by set_solver.
        rewrite MapIndex_SetMapIndex. rewrite decide_False; [done|set_solver].
      * intros k' Hk'. rewrite Hnone by done.
        rewrite MapIndex_SetMapIndex. rewrite decide_False; [done|congruence].
      * intros Her k' x' Hk' Hx'. apply elem_of_cons in Hk' as [->|Hk'].
        -- exists c. simplify_eq. split; [done|].
           rewrite Hout by done. rewrite MapIndex_SetMapIndex. by rewrite decide_True.
        -- by apply Hin.
      * intros e0 Her. destruct (Herr e0 Her) as (k' & x' & ck & Hk' & Hx' & He').
        exists k', x', ck. split; [by right|done].
  - specialize (IH entries c Hnd).
    destruct (decodeEntries rec e rawMap keys entries c) as [[er entries'] c'].
    destruct IH as (Hout & Hnone & Hin & Herr). repeat split.
    + intros k' Hk'. apply Hout. set_solver.
    + done.
    + intros Her k' x' Hk' Hx'. apply elem_of_cons in Hk' as [->|Hk'].
      * congruence.
      * by apply Hin.
    + intros e0 Her. destruct (Herr e0 Her) as (k' & x' & ck & Hk' & Hx' & He').
      exists k', x', ck. split; [by right|done].
Qed.

End Loops.

Lemma range_keys (ro : RangeOrder) (m : gmap string json) :
  NoDup (ro (elements (dom m))) /\ (forall k, k ∈ ro (elements (dom m)) <-> k ∈ dom m).
Proof.
  split.
  - rewrite (order_perm ro). apply NoDup_elements.
  - intros k. rewrite (order_perm ro). apply elem_of_elements.
Qed.

(** X21.  A slice of records is rebuilt, not extended: on an array, a
    successful call leaves a slice with one element per element of the
    array, in their order, each decoded into a fresh zero value, whatever
    the slice held before; a failing call leaves the target as it was, and
    its error is that of one of the elements. *)
Theorem unmarshalSlice_rebuilds (implementsUnmarshaler : type -> bool)
    (jsonUnmarshal : json -> type -> value -> option error * value)
    (rec : json -> type -> value -> Cache -> outcome)
    (elems : list json) (e : type) (v : value) (c : Cache) :
  containsStruct implementsUnmarshaler e = true ->
  let r := unmarshalSlice implementsUnmarshaler jsonUnmarshal rec (JArray elems)
             (TSlice e) v c in
  (err r = None ->
     exists vs, target r = VSlice vs /\ length vs = length elems
       /\ forall i x, elems !! i = Some x ->
            exists ci, err (rec x e VZero ci) = None
                       /\ vs !! i = Some (target (rec x e VZero ci)))
  /\ (forall e0, err r = Some e0 ->
        target r = v /\ exists x ci, x ∈ elems /\ err (rec x e VZero ci) = Some e0).
Proof.
  intros Hc. cbv zeta. unfold unmarshalSlice. cbn [rawArray]. rewrite Hc. cbn [negb].
  pose proof (decodeElems_spec rec e elems 0 (replicate (length elems) VZero) c) as H.
  rewrite length_replicate in H.
  destruct (decodeElems rec e elems 0 _ c) as [[[e1|] ns'] c'].
  - destruct H as (x & ci & Hx & He); [lia| |].
    { intros j _ Hj. by apply lookup_replicate_2. }
    split; [done|]. intros e0 [= <-]. split; [done|]. by exists x, ci.
  - destruct H as (Hl & _ & Hrest); [lia| |].
    { intros j _ Hj. by apply lookup_replicate_2. }
    split; [|done]. intros _. exists ns'. split; [done|]. split; [done|].
    intros i x Hx. by apply (Hrest i x).
Qed.

Lemma unmarshalSlice_rebuilds_witness :
  let walk := unmarshalValue Samples.keepOrder Samples.testDecls Samples.noUnmarshaler
                Samples.asciiToLower (Samples.stdUnmarshal Samples.noStructDecoder)
                (NewDecoder []) in
  let r := unmarshalSlice Samples.noUnmarshaler
             (Samples.stdUnmarshal Samples.noStructDecoder) walk
             (JArray [JObject [("name"%string, JString "a")];
                      JObject [("Name"%string, JString "b")]])
             (TSlice (TStruct "Person")) (VSlice [VStruct [VString "old"; VInt 1]])
             emptyCache in
  err r = Some (unknownFieldError "Name" "")
  /\ target r = VSlice [VStruct [VString "old"; VInt 1]].
Proof.
  cbv zeta. split; [vm_compute; reflexivity|].
  destruct (unmarshalSlice_rebuilds Samples.noUnmarshaler
              (Samples.stdUnmarshal Samples.noStructDecoder)
              (unmarshalValue Samples.keepOrder Samples.testDecls Samples.noUnmarshaler
                 Samples.asciiToLower (Samples.stdUnmarshal Samples.noStructDecoder)
                 (NewDecoder []))
              [JObject [("name"%string, JString "a")];
               JObject [("Name"%string, JString "b")]]
              (TStruct "Person") (VSlice [VStruct [VString "old"; VInt 1]])
              emptyCache eq_refl) as [_ H].
  destruct (H (unknownFieldError "Name" "")) as [Ht _].
  - vm_compute. reflexivity.
  - exact Ht.
Defined.

(** X22.  A map of records is merged into, not replaced: the target holds
    a map afterwards (a nil map has been allocated), also when decoding
    fails; the entries under keys that the document does not have are those
    the map had; after a successful call every key of the document holds
    its member decoded into a fresh zero value; and the error of a failing
    call is that of one of the members. *)
Theorem unmarshalMap_merges (ro : RangeOrder) (implementsUnmarshaler : type -> bool)
    (jsonUnmarshal : json -> type -> value -> option error * value)
    (rec : json -> type -> value -> Cache -> outcome)
    (data : json) (rawMap : gmap string json) (e : type) (v : value) (c : Cache) :
  containsStruct implementsUnmarshaler e = true ->
  rawObject data = Some rawMap ->
  let r := unmarshalMap ro implementsUnmarshaler jsonUnmarshal rec data (TMap e) v c in
  exists entries,
    target r = VMap entries
    /\ (forall k, rawMap !! k = None -> MapIndex entries k = MapIndex (entries_of v) k)
    /\ (err r = None -> forall k x, rawMap !! k = Some x ->
          exists ck, err (rec x e VZero ck) = None
                     /\ MapIndex entries k = Some (target (rec x e VZero ck)))
    /\ (forall e0, err r = Some e0 ->
          exists k x ck, rawMap !! k = Some x /\ err (rec x e VZero ck) = Some e0).
Proof.
  intros Hc Hraw. cbv zeta. unfold unmarshalMap. rewrite Hraw, Hc. cbn [negb].
  destruct (range_keys ro rawMap) as [Hnd Hkeys].
  pose proof (decodeEntries_spec rec e rawMap (ro (elements (dom rawMap)))
                (match v with VMap entries => entries | _ => [] end) c Hnd) as H.
  destruct (decodeEntries rec e rawMap _ _ c) as [[er entries'] c'].
  destruct H as (_ & Hnone & Hin & Herr).
  exists entries'. cbn [err target]. split; [done|]. split; [done|]. split.
  - intros Her k x Hx. apply Hin; [done| |done].
    apply Hkeys. apply elem_of_dom. by rewrite Hx.
  - intros e0 He0. destruct (Herr e0 He0) as (k & x & ck & _ & Hx & He).
    by exists k, x, ck.
Qed.

Lemma unmarshalMap_merges_witness :
  let walk := unmarshalValue Samples.keepOrder Samples.testDecls Samples.noUnmarshaler
                Samples.asciiToLower (Samples.stdUnmarshal Samples.noStructDecoder)
                (NewDecoder []) in
  let r := unmarshalMap Samples.keepOrder Samples.noUnmarshaler
             (Samples.stdUnmarshal Samples.noStructDecoder) walk
             (JObject [("b"%string, JObject [("name"%string, JString "new")])])
             (TMap (TStruct "Person")) (VMap [("a"%string, VStruct [VString "old"; VInt 1])])
             emptyCache in
  exists entries,
    target r = VMap entries
    /\ MapIndex entries "a" = Some (VStruct [VString "old"; VInt 1]).
Proof.
  cbv zeta.
  destruct (unmarshalMap_merges Samples.keepOrder Samples.noUnmarshaler
              (Samples.stdUnmarshal Samples.noStructDecoder)
              (unmarshalValue Samples.keepOrder Samples.testDecls Samples.noUnmarshaler
                 Samples.asciiToLower (Samples.stdUnmarshal Samples.noStructDecoder)
                 (NewDecoder []))
              (JObject [("b"%string, JObject [("name"%string, JString "new")])])
              {[ "b"%string := JObject [("name"%string, JString "new")] ]}
              (TStruct "Person") (VMap [("a"%string, VStruct [VString "old"; VInt 1])])
              emptyCache eq_refl) as (entries & Ht & Hkeep & _).
  - vm_compute. reflexivity.
  - exists entries. split; [exact Ht|].
    rewrite (Hkeep "a"%string); [reflexivity|]. vm_compute. reflexivity.
Defined.

End LoopFacts.

(** * More on decoding into a record *)

Module StructFacts.
Import FieldMap FieldMapSpec Walker WalkerSpec WalkerFacts.

Section Struct.
Variable ro : RangeOrder.
Variable env : Decls.
Variable ToLower : string -> string.
Variable d : Decoder.
Variable rec : json -> type -> value -> Cache -> outcome.

(** [unmarshalStruct] on an object, the descriptor being the built one. *)
Lemma unmarshalStruct_closed data raw t v c :
  coherent ro env c -> rawObject data = Some raw ->
  let s := buildStructFields ro env t in
  let c' := (getStructFields ro env c t).2 in
  let keys := ro (elements (dom raw)) in
  unmarshalStruct ro env ToLower d rec data t v c
  = if decide (conflict s <> ""%string) then
      {| err := Some (newFieldConflictError (conflict s)); target := v; cache := c' |}
    else
      match (if DisallowUnknownFields d then
               find (fun jsonKey => bool_decide (fields s !! jsonKey = None)) keys
             else None) with
      | Some jsonKey =>
        {| err := Some (newUnknownFieldError jsonKey
                          (if SuggestClosest d then
                             Diagnostics.findSuggestion ToLower jsonKey (allNames s)
                           else ""%string));
           target := v; cache := c' |}
      | None => decodeFields env rec s raw t keys v c'
      end.
Proof.
  intros Hc Hraw. cbv zeta. unfold unmarshalStruct. rewrite Hraw.
  rewrite (CacheFacts.getStructFields_closed ro env c t Hc). cbn [snd].
  by case_decide.
Qed.

Lemma decodeFields_filter s raw t keys v c :
  decodeFields env rec s raw t keys v c
  = decodeFields env rec s raw t (filter (fun k => is_Some (fields s !! k)) keys) v c.
Proof.
  revert v c. induction keys as [|k keys IH]; intros v c; [done|].
  destruct (fields s !! k) as [fi|] eqn:Hk.
  - rewrite filter_cons_True by (by rewrite Hk).
    cbn [decodeFields]. rewrite Hk.
    destruct (raw !! k) as [x|]; [|apply IH].
    destruct (getFieldByIndex env t v settable id (fieldIndex fi)) as [v' [sl|]];
      [|apply IH].
    destruct (negb (CanSet (slotFlags sl))); [apply IH|].
    cbv zeta. destruct (err (rec x (slotType sl) (slotValue sl) c)); [done|apply IH].
  - rewrite filter_cons_False by (rewrite Hk; by intros [? ?]).
    cbn [decodeFields]. rewrite Hk. apply IH.
Qed.

Lemma decodeFields_error_known t raw keys v c e :
  err (decodeFields env rec (buildStructFields ro env t) raw t keys v c) = Some e ->
  exists k x ty v' c',
    k ∈ keys /\ is_Some (fields (buildStructFields ro env t) !! k)
    /\ raw !! k = Some x /\ err (rec x ty v' c') = Some e.
Proof.
  rewrite decodeFields_filter. intros H.
  apply DecodeFacts.decodeFields_error in H as (k & x & ty & v' & c' & Hk & Hx & He).
  apply list_elem_of_filter in Hk as [Hknown Hk].
  by exists k, x, ty, v', c'.
Qed.

End Struct.

Lemma find_unknown_cases (P : string -> bool) (keys : list string) :
  match find P keys with
  | Some k => k ∈ keys /\ P k = true
  | None => forall k, k ∈ keys -> P k = false
  end.
Proof.
  destruct (find P keys) as [k|] eqn:H.
  - apply find_some in H as [Hin HP]. split; [by apply list_elem_of_In|done].
  - intros k Hk. apply (find_none _ _ H). by apply list_elem_of_In.
Qed.

(** X23.  With unknown fields allowed, the keys of the object that the
    record does not declare are passed over: the result is that of the
    member loop on the declared keys alone, in the order of the range, the
    suggestion switch makes no difference, and an error can only come from
    decoding a member under a declared key. *)
Theorem unknown_keys_ignored_when_allowed (ro : RangeOrder) (env : Decls)
    (ToLower : string -> string) (d : Decoder)
    (rec : json -> type -> value -> Cache -> outcome)
    (data : json) (raw : gmap string json) (t : type) (v : value) (c : Cache) :
  DisallowUnknownFields d = false ->
  coherent ro env c ->
  conflict (buildStructFields ro env t) = ""%string ->
  rawObject data = Some raw ->
  let s := buildStructFields ro env t in
  let r := unmarshalStruct ro env ToLower d rec data t v c in
  r = decodeFields env rec s raw t
        (filter (fun k => is_Some (fields s !! k)) (ro (elements (dom raw)))) v
        (getStructFields ro env c t).2
  /\ (forall e, err r = Some e ->
        exists k x ty v' c',
          is_Some (fields s !! k) /\ raw !! k = Some x /\ err (rec x ty v' c') = Some e).
Proof.
  intros Hd Hc Hconf Hraw. cbv zeta.
  rewrite (unmarshalStruct_closed ro env ToLower d rec data raw t v c Hc Hraw).
  cbv zeta. rewrite Hconf, Hd.
  rewrite decide_False by (intros H; by apply H).
  split; [apply decodeFields_filter|].
  intros e He. apply decodeFields_error_known in He
    as (k & x & ty & v' & c' & _ & Hk & Hx & He).
  by exists k, x, ty, v', c'.
Qed.

Lemma unknown_keys_ignored_when_allowed_witness :
  let walk := unmarshalValue Samples.keepOrder Samples.testDecls Samples.noUnmarshaler
                Samples.asciiToLower (Samples.stdUnmarshal Samples.noStructDecoder)
                (NewDecoder [WithDisallowUnknownFields false]) in
  let raw : gmap string json :=
    {[ "name"%string := JString "John"; "Age"%string := JNumber "30" ]} in
  unmarshalStruct Samples.keepOrder Samples.testDecls Samples.asciiToLower
    (NewDecoder [WithDisallowUnknownFields false]) walk
    (JObject [("name"%string, JString "John"); ("Age"%string, JNumber "30")])
    (TStruct "Person") VZero emptyCache
  = decodeFields Samples.testDecls walk
      (buildStructFields Samples.keepOrder Samples.testDecls (TStruct "Person")) raw
      (TStruct "Person")
      (filter (fun k => is_Some (fields (buildStructFields Samples.keepOrder
                                           Samples.testDecls (TStruct "Person")) !! k))
              (Samples.keepOrder (elements (dom raw)))) VZero
      (getStructFields Samples.keepOrder Samples.testDecls emptyCache (TStruct "Person")).2.
Proof.
  cbv zeta.
  apply (unknown_keys_ignored_when_allowed Samples.keepOrder Samples.testDecls
           Samples.asciiToLower (NewDecoder [WithDisallowUnknownFields false])).
  - reflexivity.
  - intros t. by left.
  - vm_compute. reflexivity.
  - vm_compute. reflexivity.
Defined.

(** X24.  With unknown fields refused, an object with a key that the
    record does not declare is rejected before anything is decoded: the
    error names a key of the object that the record does not declare (the
    first one in the order of the range), with the suggestion computed for
    it when suggestions are on and none otherwise, and the target is as it
    was, whatever the other members are. *)
Theorem unknown_key_rejected_before_any_write (ro : RangeOrder) (env : Decls)
    (ToLower : string -> string) (d : Decoder)
    (rec : json -> type -> value -> Cache -> outcome)
    (data : json) (raw : gmap string json) (t : type) (v : value) (c : Cache)
    (k0 : string) :
  DisallowUnknownFields d = true ->
  coherent ro env c ->
  conflict (buildStructFields ro env t) = ""%string ->
  rawObject data = Some raw ->
  is_Some (raw !! k0) ->
  fields (buildStructFields ro env t) !! k0 = None ->
  let s := buildStructFields ro env t in
  let r := unmarshalStruct ro env ToLower d rec data t v c in
  exists k,
    err r = Some (unknownFieldError k
                    (if SuggestClosest d then
                       Diagnostics.findSuggestion ToLower k (allNames s)
                     else ""%string))
    /\ is_Some (raw !! k) /\ fields s !! k = None /\ target r = v.
Proof.
  intros Hd Hc Hconf Hraw Hk0 Hunknown. cbv zeta.
  rewrite (unmarshalStruct_closed ro env ToLower d rec data raw t v c Hc Hraw).
  cbv zeta. rewrite Hconf, Hd.
  rewrite decide_False by (intros H; by apply H).
  destruct (LoopFacts.range_keys ro raw) as [_ Hkeys].
  pose proof (find_unknown_cases
                (fun jsonKey => bool_decide (fields (buildStructFields ro env t) !! jsonKey
                                             = None))
                (ro (elements (dom raw)))) as Hfind.
  destruct (find _ (ro (elements (dom raw)))) as [k|].
  - destruct Hfind as [Hin HP]. exists k. cbn [err target].
    split; [done|]. split; [|split; [|done]].
    + apply elem_of_dom. by apply Hkeys.
    + by apply bool_decide_eq_true in HP.
  - exfalso. specialize (Hfind k0). rewrite bool_decide_eq_false in Hfind.
    apply Hfind; [|done]. apply Hkeys. by apply elem_of_dom.
Qed.

Lemma unknown_key_rejected_before_any_write_witness :
  let walk := unmarshalValue Samples.keepOrder Samples.testDecls Samples.noUnmarshaler
                Samples.asciiToLower (Samples.stdUnmarshal Samples.noStructDecoder)
                (NewDecoder [WithSuggestClosest true]) in
  let r := unmarshalStruct Samples.keepOrder Samples.testDecls Samples.asciiToLower
             (NewDecoder [WithSuggestClosest true]) walk
             (JObject [("age"%string, JNumber "30"); ("Name"%string, JString "John")])
             (TStruct "Person") VZero emptyCache in
  exists k,
    err r = Some (unknownFieldError k
                    (Diagnostics.findSuggestion Samples.asciiToLower k
                       (allNames (buildStructFields Samples.keepOrder Samples.testDecls
                                    (TStruct "Person")))))
    /\ is_Some (({[ "age"%string := JNumber "30"; "Name"%string := JString "John" ]}
                 : gmap string json) !! k)
    /\ fields (buildStructFields Samples.keepOrder Samples.testDecls (TStruct "Person"))
         !! k = None
    /\ target r = VZero.
Proof.
  cbv zeta.
  apply (unknown_key_rejected_before_any_write Samples.keepOrder Samples.testDecls
           Samples.asciiToLower (NewDecoder [WithSuggestClosest true]) _
           (JObject [("age"%string, JNumber "30"); ("Name"%string, JString "John")])
           {[ "age"%string := JNumber "30"; "Name"%string := JString "John" ]}
           (TStruct "Person") VZero emptyCache "Name").
  - reflexivity.
  - intros t. by left.
  - vm_compute. reflexivity.
  - vm_compute. reflexivity.
  - vm_compute. eauto.
  - vm_compute. reflexivity.
Defined.

(** X25.  The ways in which decoding an object into a record can fail:
    the document is not an object; the record has a field conflict; unknown
    fields are refused and the object has a key that the record does not
    declare; or decoding the member under a declared key failed, and then
    the error is that member's. *)
Theorem unmarshalStruct_failure_modes (ro : RangeOrder) (env : Decls)
    (ToLower : string -> string) (d : Decoder)
    (rec : json -> type -> value -> Cache -> outcome)
    (data : json) (t : type) (v : value) (c : Cache) (e : error) :
  coherent ro env c ->
  err (unmarshalStruct ro env ToLower d rec data t v c) = Some e ->
  let s := buildStructFields ro env t in
  (rawObject data = None /\ exists msg, e = jsonError msg)
  \/ (conflict s <> ""%string /\ e = fieldConflictError (conflict s))
  \/ (DisallowUnknownFields d = true
      /\ exists raw k, rawObject data = Some raw /\ is_Some (raw !! k)
           /\ fields s !! k = None
           /\ e = unknownFieldError k
                    (if SuggestClosest d then
                       Diagnostics.findSuggestion ToLower k (allNames s)
                     else ""%string))
  \/ (exists raw k x ty v' c',
        rawObject data = Some raw /\ is_Some (fields s !! k) /\ raw !! k = Some x
        /\ err (rec x ty v' c') = Some e).
Proof.
  intros Hc He. cbv zeta.
  destruct (rawObject data) as [raw|] eqn:Hraw.
  2:{ left. split; [done|]. unfold unmarshalStruct in He. rewrite Hraw in He.
      simpl in He. simplify_eq. by eexists. }
  right.
  rewrite (unmarshalStruct_closed ro env ToLower d rec data raw t v c Hc Hraw) in He.
  cbv zeta in He.
  case_decide as Hconf.
  { left. simpl in He. by simplify_eq. }
  right.
  destruct (LoopFacts.range_keys ro raw) as [_ Hkeys].
  destruct (DisallowUnknownFields d) eqn:Hd.
  - pose proof (find_unknown_cases
                  (fun jsonKey => bool_decide (fields (buildStructFields ro env t)
                                                 !! jsonKey = None))
                  (ro (elements (dom raw)))) as Hfind.
    destruct (find _ (ro (elements (dom raw)))) as [k|].
    + left. split; [done|]. destruct Hfind as [Hin HP].
      exists raw, k. simpl in He. simplify_eq.
      split; [done|]. split; [apply elem_of_dom; by apply Hkeys|].
      split; [by apply bool_decide_eq_true in HP|done].
    + right. apply decodeFields_error_known in He
        as (k & x & ty & v' & c' & _ & Hk & Hx & He).
      by exists raw, k, x, ty, v', c'.
  - right. apply decodeFields_error_known in He
      as (k & x & ty & v' & c' & _ & Hk & Hx & He).
    by exists raw, k, x, ty, v', c'.
Qed.

Lemma unmarshalStruct_failure_modes_witness :
  let walk := unmarshalValue Samples.keepOrder Samples.testDecls Samples.noUnmarshaler
                Samples.asciiToLower (Samples.stdUnmarshal Samples.noStructDecoder)
                (NewDecoder []) in
  let s := buildStructFields Samples.keepOrder Samples.testDecls (TStruct "Person") in
  let e := jsonError "json: cannot unmarshal value into Go value" in
  let data := JObject [("name"%string, JNumber "5")] in
  (rawObject data = None /\ exists msg, e = jsonError msg)
  \/ (conflict s <> ""%string /\ e = fieldConflictError (conflict s))
  \/ (DisallowUnknownFields (NewDecoder []) = true
      /\ exists raw k, rawObject data = Some raw /\ is_Some (raw !! k)
           /\ fields s !! k = None
           /\ e = unknownFieldError k
                    (if SuggestClosest (NewDecoder []) then
                       Diagnostics.findSuggestion Samples.asciiToLower k (allNames s)
                     else ""%string))
  \/ (exists raw k x ty v' c',
        rawObject data = Some raw /\ is_Some (fields s !! k) /\ raw !! k = Some x
        /\ err (walk x ty v' c') = Some e).
Proof.
  cbv zeta.
  apply (unmarshalStruct_failure_modes Samples.keepOrder Samples.testDecls
           Samples.asciiToLower (NewDecoder []) _
           (JObject [("name"%string, JNumber "5")]) (TStruct "Person") VZero emptyCache).
  - intros t. by left.
  - vm_compute. reflexivity.
Defined.

(** X26.  Strictness is sound: with unknown fields refused, when an object
    is decoded without error into a record, or into pointers to one, the
    record has no field conflict and every key of the object, a repeated
    one as well, is exactly the external name of one of its fields. *)
Theorem accepted_object_has_only_declared_keys (ro : RangeOrder) (env : Decls)
    (implementsUnmarshaler : type -> bool) (ToLower : string -> string)
    (jsonUnmarshal : json -> type -> value -> option error * value) (d : Decoder)
    (members : list (string * json)) (t : type) (R : string) (v : value) (c : Cache) :
  DisallowUnknownFields d = true ->
  coherent ro env c ->
  implementsUnmarshaler (TPtr t) = false ->
  derefType t = TStruct R ->
  err (unmarshalValue ro env implementsUnmarshaler ToLower jsonUnmarshal d
         (JObject members) t v c) = None ->
  let s := buildStructFields ro env (TStruct R) in
  conflict s = ""%string
  /\ (forall k x, (k, x) ∈ members ->
        exists fi f, fields s !! k = Some fi
                     /\ field_path env (TStruct R) k (fieldIndex fi) f).
Proof.
  intros Hd Hc Hi Ht He. cbv zeta.
  rewrite NestingFacts.walk_object in He by done. rewrite Ht in He. cbn [kind] in He.
  rewrite (unmarshalStruct_closed ro env ToLower d _ (JObject members) _ (TStruct R) _ c
             Hc eq_refl) in He.
  cbv zeta in He. rewrite Hd in He.
  case_decide as Hconf; [done|].
  split. { destruct (decide (conflict (buildStructFields ro env (TStruct R)) = ""%string));
           [done|by destruct Hconf]. }
  set (raw := foldl (fun (m : gmap string json) kv => <[ kv.1 := kv.2 ]> m) ∅ members)
    in *.
  destruct (LoopFacts.range_keys ro raw) as [_ Hkeys].
  pose proof (find_unknown_cases
                (fun jsonKey => bool_decide (fields (buildStructFields ro env (TStruct R))
                                               !! jsonKey = None))
                (ro (elements (dom raw)))) as Hfind.
  destruct (find _ (ro (elements (dom raw)))) as [k|]; [done|].
  intros k x Hkx.
  assert (Hin : k ∈ dom raw).
  { unfold raw. rewrite NestingFacts.dom_collect.
    apply elem_of_union_r, elem_of_list_to_set, list_elem_of_fmap. by exists (k, x). }
  apply Hkeys in Hin. specialize (Hfind k Hin). apply bool_decide_eq_false in Hfind.
  destruct (fields (buildStructFields ro env (TStruct R)) !! k) as [fi|] eqn:Hfi;
    [|done].
  destruct (FieldMapFacts.buildStructFields_paths env ro (TStruct R) k fi Hfi)
    as [_ [f Hf]].
  by exists fi, f.
Qed.

Lemma accepted_object_has_only_declared_keys_witness :
  conflict (buildStructFields Samples.keepOrder Samples.testDecls (TStruct "Person"))
  = ""%string
  /\ (forall k x, (k, x) ∈ [("name"%string, JString "John"); ("age"%string, JNumber "30")] ->
        exists fi f,
          fields (buildStructFields Samples.keepOrder Samples.testDecls (TStruct "Person"))
            !! k = Some fi
          /\ field_path Samples.testDecls (TStruct "Person") k (fieldIndex fi) f).
Proof.
  apply (accepted_object_has_only_declared_keys Samples.keepOrder Samples.testDecls
           Samples.noUnmarshaler Samples.asciiToLower
           (Samples.stdUnmarshal Samples.noStructDecoder) (NewDecoder [])
           [("name"%string, JString "John"); ("age"%string, JNumber "30")]
           (TPtr (TStruct "Person")) "Person" VZero emptyCache).
  - reflexivity.
  - intros t. by left.
  - reflexivity.
  - reflexivity.
  - vm_compute. reflexivity.
Defined.

End StructFacts.

(** * The literal null *)

Module NullFacts.
Import FieldMap FieldMapSpec Walker WalkerSpec WalkerFacts SlotFacts.

Section OwnPath.
Variable env : Decls.

(** What could be read at the walked path itself is read there after the
    walk. *)
Lemma walk_keeps_own_read t v fl p z :
  fieldByIndex env t v p = Some z ->
  fieldByIndex env t (getFieldByIndex env t v fl id p).1 p = Some z.
Proof.
  induction p as [|i p IH] in t, v, fl |- *; [done|].
  rewrite getFieldByIndex_step, !fieldByIndex_cons.
  destruct (readField env t v i) as [[ti xi]|] eqn:Hread; [|done]. intros Hz.
  destruct (readField_open _ _ _ fl _ _ _ Hread) as (v' & fl' & wrap & Hopen).
  rewrite Hopen. simpl.
  rewrite (proj1 (openField_read _ _ _ _ _ _ _ _ _ _ Hopen)). by apply IH.
Qed.

Lemma walk_keeps_own_unwritten t v fl p :
  unwritten env t v p -> unwritten env t (getFieldByIndex env t v fl id p).1 p.
Proof.
  induction p as [|i p IH] in t, v, fl |- *; [done|].
  unfold unwritten. rewrite getFieldByIndex_step, !fieldByIndex_cons.
  destruct (openField env t v fl i) as [v' [[[[t' x] fl'] wrap]|]] eqn:Hopen; simpl.
  - rewrite (proj1 (openField_read _ _ _ _ _ _ _ _ _ _ Hopen)).
    destruct (readField env t v i) as [[ti xi]|] eqn:Hread.
    + destruct (readField_open _ _ _ fl _ _ _ Hread) as (? & ? & ? & Hopen').
      rewrite Hopen in Hopen'. injection Hopen' as _ <- <- _ _. apply IH.
    + intros _. rewrite (openField_unread _ _ _ _ _ _ _ _ _ _ Hopen Hread).
      apply IH, unwritten_zero.
  - destruct (readField env t v i) as [[ti xi]|] eqn:Hread.
    + by rewrite (openField_none_read _ _ _ _ _ _ Hopen _ _ Hread).
    + intros _. destruct (readField env t v' i) as [[ti xi]|] eqn:Hread'; [|by left].
      rewrite (openField_fresh_read _ _ _ _ _ _ _ _ _ _ Hopen Hread Hread').
      apply unwritten_zero.
Qed.

End OwnPath.

Section Null.
Variable ro : RangeOrder.
Variable env : Decls.
Variable implementsUnmarshaler : type -> bool.
Variable ToLower : string -> string.
Variable jsonUnmarshal : json -> type -> value -> option error * value.
Variable d : Decoder.

Local Abbreviation walk :=
  (unmarshalValue ro env implementsUnmarshaler ToLower jsonUnmarshal d).

(** A null member, when the walk to its field stops short of a slot. *)
Lemma decodeFields_null_any s raw t k fi keys v c :
  fields s !! k = Some fi -> raw !! k = Some JNull ->
  decodeFields env walk s raw t (k :: keys) v c
  = decodeFields env walk s raw t keys
      (getFieldByIndex env t v settable id (fieldIndex fi)).1 c.
Proof.
  intros Hfi Hraw.
  destruct (getFieldByIndex env t v settable id (fieldIndex fi)) as [root [sl|]] eqn:Hwalk.
  - by apply (DecodeFacts.decodeFields_null_member ro env implementsUnmarshaler ToLower
                jsonUnmarshal d s raw t k fi keys v c root sl).
  - cbn [decodeFields]. by rewrite Hfi, Hraw, Hwalk.
Qed.

(** C8, as the code has it.  On the literal [null], [unmarshalValue]
    returns no error and gives back the slot it was handed as it is,
    whatever the type of the slot, what it holds, the cache and the depth
    of the call: it allocates no pointer in that slot and writes nothing to
    it.  What the caller does around the call stays.  For a null member of
    an object, [unmarshalStruct] has walked to the field before the call,
    and the loop goes on with the target as that walk left it: nil
    embedded pointers on the way are allocated; the field itself and every
    field on a path that parts from it read as before, and a field where
    nothing was written still has nothing written.  For a null element of
    a slice of records the element of the new slice keeps its zero value.
    For a null entry of a map of records the zero value is stored under
    the key, in place of what the map held there. *)
Theorem null_leaves_slot_untouched :
  (forall t v c, walk JNull t v c = {| err := None; target := v; cache := c |})
  /\ (forall s raw t k fi keys v c,
        fields s !! k = Some fi -> raw !! k = Some JNull ->
        let root := (getFieldByIndex env t v settable id (fieldIndex fi)).1 in
        decodeFields env walk s raw t (k :: keys) v c
        = decodeFields env walk s raw t keys root c
        /\ (forall z, fieldByIndex env t v (fieldIndex fi) = Some z ->
                      fieldByIndex env t root (fieldIndex fi) = Some z)
        /\ (unwritten env t v (fieldIndex fi) -> unwritten env t root (fieldIndex fi))
        /\ (forall q z, diverge (fieldIndex fi) q ->
                        fieldByIndex env t v q = Some z ->
                        fieldByIndex env t root q = Some z))
  /\ (forall e rest i (ns : list value) c,
        (i < length ns)%nat ->
        decodeElems walk e (JNull :: rest) i ns c = decodeElems walk e rest (S i) ns c)
  /\ (forall e (rawMap : gmap string json) k keys entries c,
        rawMap !! k = Some JNull ->
        decodeEntries walk e rawMap (k :: keys) entries c
        = decodeEntries walk e rawMap keys (SetMapIndex entries k VZero) c
        /\ MapIndex (SetMapIndex entries k VZero) k = Some VZero).
Proof.
  split; [apply unmarshalValue_null|]. split; [|split].
  - intros s raw t k fi keys v c Hfi Hraw. cbv zeta.
    split; [by apply decodeFields_null_any|].
    split; [intros z; apply walk_keeps_own_read|].
    split; [apply walk_keeps_own_unwritten|].
    intros q z Hdiv. by apply walk_keeps_read.
  - intros e rest i ns c Hi. cbn [decodeElems]. rewrite unmarshalValue_null. cbn.
    destruct (lookup_lt_is_Some_2 ns i Hi) as [x Hx]. rewrite Hx. cbn.
    by rewrite list_insert_id.
  - intros e rawMap k keys entries c Hk. split.
    + cbn [decodeEntries]. rewrite Hk, unmarshalValue_null. done.
    + rewrite LoopFacts.MapIndex_SetMapIndex. by rewrite decide_True.
Qed.

End Null.

(** [{"id": null}] into a [PtrHolder] whose embedded [*Base] is nil: the
    decode succeeds and the pointer has been allocated.  [{"a": null}] into
    a map of records that holds an entry under "a": the entry is replaced by
    the zero record. *)
Lemma null_member_allocates_embedded_pointer :
  let walk env := unmarshalValue Samples.keepOrder env Samples.noUnmarshaler
                    Samples.asciiToLower (Samples.stdUnmarshal Samples.noStructDecoder)
                    (NewDecoder []) in
  let r := walk pointerEmbedDecls (JObject [("id"%string, JNull)]) (TStruct "PtrHolder")
             (VStruct [VZero; VString "keep"]) emptyCache in
  let m := walk Samples.testDecls (JObject [("a"%string, JNull)]) (TMap (TStruct "Person"))
             (VMap [("a"%string, VStruct [VString "old"; VInt 1])]) emptyCache in
  (err r = None
   /\ target r = VStruct [VPtr (VStruct [VZero; VZero]); VString "keep"]
   /\ target r <> VStruct [VZero; VString "keep"])
  /\ (err m = None /\ target m = VMap [("a"%string, VZero)]).
Proof.
  cbv zeta. repeat split; try (vm_compute; reflexivity). vm_compute. discriminate.
Qed.

End NullFacts.

(** * Documents with exact keys *)

Module ExactFacts.
Import FieldMap FieldMapSpec Walker WalkerSpec WalkerFacts SlotFacts.

Section Reach.
Variable env : Decls.

Lemma embeds_ok_from_all t0 : embeds_ok env -> embeds_ok_from env t0.
Proof.
  intros H q ty X f _ _ Hf Ha. unfold structDecl in Hf.
  destruct (env !! X) as [decl|] eqn:HX; simpl in Hf; [by eapply H|].
  by apply elem_of_nil in Hf.
Qed.

Lemma anon_path_reaches_from t0 q ty v :
  embeds_ok_from env t0 -> struct_like t0 ->
  anon_path env t0 q ty ->
  struct_like ty
  /\ exists root sl, getFieldByIndex env t0 v settable id q = (root, Some sl)
                     /\ slotType sl = ty /\ slotFlags sl = settable.
Proof.
  intros Hemb Ht0. induction 1 as [|p ty0 n i g Hp IH Hn Hg Hanon].
  - split; [done|]. by eexists _, _.
  - destruct IH as (Hlike & root & sl & Hwalk & Hty0 & Hfl).
    destruct (Hemb p ty0 n g Hp Hn) as [Hexp Hty];
      [by eapply list_elem_of_lookup_2|done|].
    split; [done|]. subst ty0.
    destruct (enter_field env _ n i g (slotValue sl) Hlike Hn Hg Hexp)
      as (v' & y & wrap & Hopen).
    rewrite getFieldByIndex_app, Hwalk, Hfl, getFieldByIndex_step, Hopen. simpl.
    by eexists _, _.
Qed.

Lemma field_path_reaches_from t0 name p f v :
  embeds_ok_from env t0 -> struct_like t0 ->
  field_path env t0 name p f ->
  exists root sl, getFieldByIndex env t0 v settable id p = (root, Some sl)
                  /\ slotType sl = Typ f /\ CanSet (slotFlags sl) = true.
Proof.
  intros Hemb Ht0 (q & ty & n & i & -> & Hq & Hn & Hf & (_ & Hexp & _)).
  destruct (anon_path_reaches_from t0 q ty v Hemb Ht0 Hq)
    as (Hlike & root & sl & Hwalk & <- & Hfl).
  destruct (enter_field env _ n i f (slotValue sl) Hlike Hn Hf Hexp)
    as (v' & y & wrap & Hopen).
  rewrite getFieldByIndex_app, Hwalk, Hfl, getFieldByIndex_step, Hopen. simpl.
  by eexists _, _.
Qed.

End Reach.

Section Loop.
Variable ro : RangeOrder.
Variable env : Decls.
Variable rec : json -> type -> value -> Cache -> outcome.
Variable raw : gmap string json.
Variable t : type.
Variable P : Cache -> Prop.
Hypothesis Hrec : forall x ty v c, P c -> P (cache (rec x ty v c)).
Hypothesis Hemb : embeds_ok_from env t.
Hypothesis Hlike : struct_like t.

Local Abbreviation s := (buildStructFields ro env t).
Local Abbreviation loop := (decodeFields env rec s raw t).

(** The loop over keys that all resolve, on a target where nothing has
    been written at their paths: it decodes each member into the zero slot
    of its field; it fails with the error of the first member that fails;
    when none fails, every field holds the result of its member. *)
Lemma decodeFields_members keys v c :
  NoDup keys -> P c ->
  (forall k, k ∈ keys -> is_Some (fields s !! k) /\ is_Some (raw !! k)) ->
  (forall k fi, k ∈ keys -> fields s !! k = Some fi -> unwritten env t v (fieldIndex fi)) ->
  match err (loop keys v c) with
  | None =>
    forall k fi x, k ∈ keys -> fields s !! k = Some fi -> raw !! k = Some x ->
      exists ty c_k,
        typeByIndex env t (fieldIndex fi) = Some ty /\ P c_k
        /\ err (rec x ty VZero c_k) = None
        /\ fieldByIndex env t (target (loop keys v c)) (fieldIndex fi)
           = Some (target (rec x ty VZero c_k))
  | Some e =>
    exists k fi x ty c_k,
      k ∈ keys /\ fields s !! k = Some fi /\ raw !! k = Some x
      /\ typeByIndex env t (fieldIndex fi) = Some ty /\ P c_k
      /\ err (rec x ty VZero c_k) = Some e
  end.
Proof.
  revert v c. induction keys as [|k0 keys IH]; intros v c Hnodup HP Hkeys Hun.
  { simpl. intros k fi x Hin. by apply elem_of_nil in Hin. }
  apply NoDup_cons in Hnodup as [Hk0 Hnodup].
  destruct (Hkeys k0) as [[fi0 Hfi0] [x0 Hx0]]; [by left|].
  destruct (FieldMapFacts.buildStructFields_paths env ro t k0 fi0 Hfi0) as [_ [f0 Hpath0]].
  destruct (field_path_reaches_from env t k0 _ f0 v Hemb Hlike Hpath0)
    as (root & sl & Hwalk & Hty & Hcan).
  assert (slotValue sl = VZero) as Hzero.
  { eapply unwritten_slot_zero; [|exact Hwalk]. apply (Hun k0 fi0); [by left|done]. }
  pose proof (getFieldByIndex_type env _ _ _ _ _ _ Hwalk) as Htype.
  cbn [decodeFields]. rewrite Hfi0, Hx0, Hwalk, Hcan, Hzero. cbn [negb]. cbv zeta.
  destruct (err (rec x0 (slotType sl) VZero c)) as [e0|] eqn:Hr0.
  { cbn [err]. exists k0, fi0, x0, (slotType sl), c. split; [by left|done]. }
  set (v1 := slotSet sl (target (rec x0 (slotType sl) VZero c))).
  set (c1 := cache (rec x0 (slotType sl) VZero c)).
  assert (Hun1 : forall k fi, k ∈ keys -> fields s !! k = Some fi ->
                              unwritten env t v1 (fieldIndex fi)).
  { intros k' fi' Hk' Hfi'.
    assert (diverge (fieldIndex fi0) (fieldIndex fi')) as Hdiv.
    { eapply (FieldMapFacts.buildStructFields_diverge env ro t k0 k'); [|done|done].
      intros ->. done. }
    assert (unwritten env t root (fieldIndex fi')) as Hroot.
    { replace root with (getFieldByIndex env t v settable id (fieldIndex fi0)).1
        by by rewrite Hwalk.
      apply walk_keeps_unwritten; [done|]. apply (Hun k' fi'); [by right|done]. }
    unfold unwritten, v1.
    by rewrite (slot_set_frame env t v settable _ _ root sl _ Hdiv Hwalk). }
  assert (Hkeys1 : forall k, k ∈ keys -> is_Some (fields s !! k) /\ is_Some (raw !! k)).
  { intros k' Hk'. apply Hkeys. by right. }
  specialize (IH v1 c1 Hnodup (Hrec _ _ _ _ HP) Hkeys1 Hun1).
  destruct (err (loop keys v1 c1)) as [e|] eqn:Herr.
  - destruct IH as (k & fi & x & ty & c_k & Hin & Hrest).
    exists k, fi, x, ty, c_k. split; [by right|done].
  - intros k fi x Hin Hfi Hx. apply elem_of_cons in Hin as [->|Hin].
    + assert (fi = fi0) as -> by congruence. assert (x = x0) as -> by congruence.
      exists (slotType sl), c. split; [done|]. split; [done|]. split; [done|].
      apply (DecodeFacts.decodeFields_keeps_read ro env rec raw t keys k0); [done|done|].
      by eapply slot_set_read.
    + exact (IH k fi x Hin Hfi Hx).
Qed.

End Loop.

(** The loop reads nothing of the descriptor but its mapping. *)
Lemma decodeFields_same_fields env rec (s1 s2 : structFields) raw t keys v c :
  fields s1 = fields s2 ->
  decodeFields env rec s1 raw t keys v c = decodeFields env rec s2 raw t keys v c.
Proof.
  intros Hf. revert v c. induction keys as [|k keys IH]; intros v c; [done|].
  cbn [decodeFields]. rewrite Hf. destruct (fields s2 !! k) as [fi|]; [|by apply IH].
  destruct (raw !! k) as [x|]; [|by apply IH].
  destruct (getFieldByIndex env t v settable id (fieldIndex fi)) as [v' [sl|]];
    [|by apply IH].
  destruct (negb (CanSet (slotFlags sl))); [by apply IH|].
  cbv zeta. by destruct (err (rec x (slotType sl) (slotValue sl) c)).
Qed.

Section Success.
Variable rec : json -> type -> value -> Cache -> outcome.
Variable P : Cache -> Prop.
Hypothesis Hrec : forall x ty v c, P c -> P (cache (rec x ty v c)).

Lemma decodeElems_success e elems i (ns : list value) c :
  P c -> (i + length elems <= length ns)%nat ->
  (forall j, (i <= j)%nat -> (j < length ns)%nat -> ns !! j = Some VZero) ->
  (forall x, x ∈ elems -> forall c', P c' -> err (rec x e VZero c') = None) ->
  (decodeElems rec e elems i ns c).1.1 = None.
Proof.
  revert i ns c. induction elems as [|x elems IH]; intros i ns c HP Hlen Hzero Hall; [done|].
  simpl in Hlen. cbn [decodeElems]. cbv zeta.
  rewrite (Hzero i) by lia. cbn [default from_option id].
  rewrite (Hall x) by (by left || done).
  apply IH.
  - by apply Hrec.
  - rewrite length_insert. lia.
  - intros j Hj Hj'. rewrite length_insert in Hj'.
    rewrite list_lookup_insert_ne by lia. apply Hzero; lia.
  - intros y Hy. apply Hall. by right.
Qed.

Lemma decodeEntries_success e (rawMap : gmap string json) keys entries c :
  P c ->
  (forall k x, rawMap !! k = Some x -> forall c', P c' -> err (rec x e VZero c') = None) ->
  (decodeEntries rec e rawMap keys entries c).1.1 = None.
Proof.
  revert entries c. induction keys as [|k keys IH]; intros entries c HP Hall; [done|].
  cbn [decodeEntries]. destruct (rawMap !! k) as [x|] eqn:Hx; [|by apply IH].
  cbv zeta. rewrite (Hall k x Hx c HP). apply IH; [by apply Hrec|done].
Qed.

End Success.

Section Exact.
Variable ro : RangeOrder.
Variable env : Decls.
Variable implementsUnmarshaler : type -> bool.
Variable ToLower : string -> string.
Variable jsonUnmarshal : json -> type -> value -> option error * value.
Variable d : Decoder.

Local Abbreviation walk :=
  (unmarshalValue ro env implementsUnmarshaler ToLower jsonUnmarshal d).
Local Abbreviation body_eq :=
  (ContainerFacts.body_not_null ro env implementsUnmarshaler ToLower jsonUnmarshal d).

Lemma handed_over_walk x ty v c :
  handed_over implementsUnmarshaler ty x ->
  walk x ty v c = jsonUnmarshal_into jsonUnmarshal x ty v id c.
Proof.
  intros [Hx [Hi|[Hi [Hp|[(e & elems & -> & Hc & ->)|(e & members & -> & Hc & ->)]]]]].
  - by apply custom_decoder_delegated.
  - by apply DecodeFacts.unmarshalValue_plain.
  - rewrite unmarshalValue_unfold, body_eq by done.
    rewrite Hi. cbn. unfold unmarshalSlice. cbn. rewrite Hc. cbn.
    apply ContainerFacts.outcome_eta.
  - rewrite unmarshalValue_unfold, body_eq by done.
    rewrite Hi. cbn. unfold unmarshalMap. cbn. rewrite Hc. cbn.
    apply ContainerFacts.outcome_eta.
Qed.

Lemma walk_pointer x e v c :
  x <> JNull ->
  implementsUnmarshaler (TPtr (TPtr e)) = false -> implementsUnmarshaler (TPtr e) = false ->
  err (walk x (TPtr e) v c) = err (walk x e (default VZero (pointee_of v)) c).
Proof.
  intros Hd Hpp Hp. rewrite !unmarshalValue_unfold. rewrite !body_eq by done.
  rewrite Hpp, Hp. cbn [allocatePointers]. rewrite ContainerFacts.allocatePointers_set.
  by destruct (allocatePointers e (default VZero (pointee_of v)) id) as [[t' v'] set].
Qed.

Lemma walk_slice_records elems e v c :
  implementsUnmarshaler (TPtr (TSlice e)) = false ->
  containsStruct implementsUnmarshaler e = true ->
  err (walk (JArray elems) (TSlice e) v c)
  = (decodeElems walk e elems 0 (replicate (length elems) VZero) c).1.1.
Proof.
  intros Hi Hc. rewrite unmarshalValue_unfold at 1. rewrite body_eq by done.
  rewrite Hi. cbn [allocatePointers kind]. cbv beta iota zeta.
  unfold unmarshalSlice. cbn [rawArray]. rewrite Hc. cbn [negb].
  by destruct (decodeElems _ _ _ _ _ _) as [[[e0|] ns] c'].
Qed.

Lemma walk_map_records members e v c :
  implementsUnmarshaler (TPtr (TMap e)) = false ->
  containsStruct implementsUnmarshaler e = true ->
  err (walk (JObject members) (TMap e) v c)
  = (decodeEntries walk e (default ∅ (rawObject (JObject members)))
       (ro (elements (dom (default ∅ (rawObject (JObject members))))))
       (entries_of v) c).1.1.
Proof.
  intros Hi Hc. rewrite unmarshalValue_unfold at 1. rewrite body_eq by done.
  rewrite Hi. cbn [allocatePointers kind]. cbv beta iota zeta.
  unfold unmarshalMap. cbn [rawObject default from_option id]. rewrite Hc. cbn [negb].
  unfold entries_of.
  by destruct (decodeEntries _ _ _ _ _ _) as [[e0 ns] c'].
Qed.

Lemma walk_alike x ty v c1 c2 :
  built env c1 -> built env c2 ->
  alike env (negb (SuggestClosest d)) (walk x ty v c1) (walk x ty v c2).
Proof.
  intros H1 H2.
  exact (CacheFacts.unmarshalValue_fuel_alike ro env implementsUnmarshaler ToLower
           jsonUnmarshal d (S (json_depth x)) x ty v c1 c2 H1 H2).
Qed.

Lemma walk_built x ty v c : built env c -> built env (cache (walk x ty v c)).
Proof. intros Hc. by destruct (walk_alike x ty v c c Hc Hc) as (_ & _ & Hb & _). Qed.

(** The descriptor cache plays no part in whether a member decodes, nor in
    what it decodes to. *)
Lemma walk_cache_free x ty v c1 c2 :
  built env c1 -> built env c2 ->
  target (walk x ty v c1) = target (walk x ty v c2)
  /\ (err (walk x ty v c1) = None <-> err (walk x ty v c2) = None).
Proof.
  intros H1 H2. destruct (walk_alike x ty v c1 c2 H1 H2) as (He & Ht & _).
  split; [done|].
  destruct He as [->|(_ & k & s1 & s2 & -> & ->)]; [done|]. split; discriminate.
Qed.

(** The record case of the walker, when every key resolves. *)
Lemma walk_record members R c :
  implementsUnmarshaler (TPtr (TStruct R)) = false ->
  conflict (buildStructFields ro env (TStruct R)) = ""%string ->
  built env c ->
  dom (default ∅ (rawObject (JObject members)))
    ⊆ dom (fields (buildStructFields ro env (TStruct R))) ->
  walk (JObject members) (TStruct R) VZero c
  = decodeFields env walk (buildStructFields ro env (TStruct R))
      (default ∅ (rawObject (JObject members))) (TStruct R)
      (ro (elements (dom (default ∅ (rawObject (JObject members)))))) VZero
      (getStructFields ro env c (TStruct R)).2.
Proof.
  intros Hi Hconf Hc Hdom.
  rewrite (DecodeFacts.unmarshalValue_struct ro env implementsUnmarshaler ToLower
             jsonUnmarshal d members R VZero c Hi).
  unfold unmarshalStruct. cbn [rawObject default from_option id] in Hdom |- *.
  destruct (CacheFacts.getStructFields_built ro env c (TStruct R) Hc)
    as [_ (s' & [Hf Hcf] & Hsf)].
  rewrite decide_False in Hsf by (rewrite Hcf, Hconf; intros Hne; by apply Hne).
  destruct (getStructFields ro env c (TStruct R)) as [[e|s''] c']; simpl in Hsf;
    [done|]. injection Hsf as ->. cbn [snd].
  rewrite DiagnosticsFacts.find_none.
  - replace (if DisallowUnknownFields d then None else None)
      with (@None string) by by destruct (DisallowUnknownFields d).
    by apply decodeFields_same_fields.
  - intros k Hk. apply bool_decide_eq_false.
    rewrite (order_perm ro), elem_of_elements in Hk. apply Hdom, elem_of_dom in Hk.
    rewrite Hf. by destruct Hk as [? ->].
Qed.

(** What [decodeFields_members] gives for a record without conflict whose
    keys all resolve. *)
Lemma walk_record_members members R c :
  embeds_ok_from env (TStruct R) ->
  implementsUnmarshaler (TPtr (TStruct R)) = false ->
  conflict (buildStructFields ro env (TStruct R)) = ""%string ->
  built env c ->
  dom (default ∅ (rawObject (JObject members)))
    ⊆ dom (fields (buildStructFields ro env (TStruct R))) ->
  let s := buildStructFields ro env (TStruct R) in
  let raw := default ∅ (rawObject (JObject members)) in
  let o := walk (JObject members) (TStruct R) VZero c in
  match err o with
  | None =>
    forall k fi x, fields s !! k = Some fi -> raw !! k = Some x ->
      exists ty c_k,
        typeByIndex env (TStruct R) (fieldIndex fi) = Some ty /\ built env c_k
        /\ err (walk x ty VZero c_k) = None
        /\ fieldByIndex env (TStruct R) (target o) (fieldIndex fi)
           = Some (target (walk x ty VZero c_k))
  | Some e =>
    exists k fi x ty c_k,
      fields s !! k = Some fi /\ raw !! k = Some x
      /\ typeByIndex env (TStruct R) (fieldIndex fi) = Some ty /\ built env c_k
      /\ err (walk x ty VZero c_k) = Some e
  end.
Proof.
  intros Hemb Hi Hconf Hc Hdom s raw o.
  unfold o. rewrite walk_record by done. fold s raw.
  destruct (LoopFacts.range_keys ro raw) as [Hnd Hkeys].
  assert (Hc' : built env (getStructFields ro env c (TStruct R)).2)
    by by apply (CacheFacts.getStructFields_built ro env c (TStruct R) Hc).
  assert (Hres : forall k, k ∈ ro (elements (dom raw)) ->
                           is_Some (fields s !! k) /\ is_Some (raw !! k)).
  { intros k Hk. apply Hkeys in Hk. split; [|by apply elem_of_dom].
    apply elem_of_dom. by apply Hdom. }
  assert (Hun : forall k fi, k ∈ ro (elements (dom raw)) -> fields s !! k = Some fi ->
                             unwritten env (TStruct R) VZero (fieldIndex fi)).
  { intros. apply unwritten_zero. }
  pose proof (decodeFields_members ro env walk raw (TStruct R) (built env)
                walk_built Hemb (ex_intro _ R (or_introl eq_refl))
                (ro (elements (dom raw))) VZero (getStructFields ro env c (TStruct R)).2
                Hnd Hc' Hres Hun) as M.
  fold s in M.
  destruct (err (decodeFields env walk s raw (TStruct R) (ro (elements (dom raw))) VZero
                   (getStructFields ro env c (TStruct R)).2)) as [e|].
  - destruct M as (k & fi & x & ty & c_k & _ & Hrest).
    by exists k, fi, x, ty, c_k.
  - intros k fi x Hfi Hx. apply (M k fi x); [|done|done].
    apply Hkeys. apply elem_of_dom. by exists x.
Qed.

(** A document that is exact at every level, with decodable values, is
    decoded without error. *)
Lemma accepted_succeeds n t x c :
  (json_depth x < n)%nat ->
  accepted ro env implementsUnmarshaler jsonUnmarshal t x ->
  built env c ->
  err (walk x t VZero c) = None.
Proof.
  revert t x c. induction n as [|n IHn]; intros t x c Hdepth Hacc; [lia|].
  revert c Hdepth.
  induction Hacc as [t|t x Hh Hju|e x Hx Hpp Hp Hacc IH|R members Hi Hemb Hconf Hmem
                    |e elems Hi Hc Helems|e members Hi Hc Hentries];
    intros c Hdepth Hcoh.
  - by rewrite unmarshalValue_null.
  - rewrite handed_over_walk by done. unfold jsonUnmarshal_into.
    by destruct (jsonUnmarshal x t VZero).
  - rewrite walk_pointer by done. by apply IH.
  - assert (Hdom : dom (default ∅ (rawObject (JObject members)))
                   ⊆ dom (fields (buildStructFields ro env (TStruct R)))).
    { intros k Hk. apply elem_of_dom in Hk as [x Hx].
      destruct (Hmem k x Hx) as (fi & ty & Hfi & _). apply elem_of_dom. by exists fi. }
    pose proof (walk_record_members members R c Hemb Hi Hconf Hcoh Hdom) as M.
    cbv zeta in M.
    destruct (err (walk (JObject members) (TStruct R) VZero c)) as [e|]; [exfalso|done].
    destruct M as (k & fi & x & ty & c_k & Hfi & Hx & Hty & Hck & He).
    destruct (Hmem k x Hx) as (fi' & ty' & Hfi' & Hty' & Hacc).
    assert (fi' = fi) as -> by congruence. assert (ty' = ty) as -> by congruence.
    rewrite (IHn ty x c_k) in He; [done| |done|done].
    pose proof (rawObject_depth (JObject members) _ k x eq_refl Hx). lia.
  - rewrite walk_slice_records by done.
    apply (decodeElems_success walk (built env) walk_built); try done.
    + rewrite length_replicate. lia.
    + intros j _ Hj. rewrite length_replicate in Hj. by apply lookup_replicate_2.
    + intros x Hx c' Hc'. apply IHn; [|by apply Helems|done].
      pose proof (json_depth_elem elems x Hx). lia.
  - rewrite walk_map_records by done.
    apply (decodeEntries_success walk (built env) walk_built); try done.
    intros k x Hx c' Hc'. apply IHn; [|by apply (Hentries k)|done].
    pose proof (rawObject_depth (JObject members) _ k x eq_refl Hx). lia.
Qed.

(** C1, as the code has it.  Let [R] be a record type without name conflict
    and without custom decoder, the embedded fields of the records reached
    from [R] being exported records or pointers to records, and let the keys
    of the raw object be exactly the resolved external names of [R].
    [Decoder.Unmarshal] into a pointer to a zero [R] is the walker on that
    zero [R], and, whatever built descriptors the cache holds:
    - it succeeds exactly when every member decodes, under the walker, into
      the zero slot of the field of its key;
    - so it succeeds when every member is a document that is again exact at
      every level of nesting and whose values the standard decoder takes
      ([accepted]);
    - when it fails, its error is the one the walker returns for the member
      of some key, decoded into the zero slot of the field of that key;
    - when it succeeds, every field holds what the walker makes of its
      member, and, for every member that the walker hands over to the fast
      standard path (a type with a custom decoder, a plain type, a slice or
      a map that holds no record), that is what the standard decoder makes
      of the raw sub-value;
    - the walker hands such a member over as it is. *)
Theorem exact_keys_decode (R : string) (members : list (string * json))
    (raw : gmap string json) (c : Cache) :
  embeds_ok_from env (TStruct R) ->
  implementsUnmarshaler (TPtr (TStruct R)) = false ->
  conflict (buildStructFields ro env (TStruct R)) = ""%string ->
  built env c ->
  rawObject (JObject members) = Some raw ->
  dom raw = dom (fields (buildStructFields ro env (TStruct R))) ->
  let s := buildStructFields ro env (TStruct R) in
  let o := walk (JObject members) (TStruct R) VZero c in
  Unmarshal ro env implementsUnmarshaler ToLower jsonUnmarshal d
    (JObject members) (Pointer (TStruct R) VZero) c
  = (err o, Pointer (TStruct R) (target o), cache o)
  /\ (err o = None <->
      forall k fi x, fields s !! k = Some fi -> raw !! k = Some x ->
        exists ty, typeByIndex env (TStruct R) (fieldIndex fi) = Some ty
                   /\ err (walk x ty VZero emptyCache) = None)
  /\ ((forall k fi x, fields s !! k = Some fi -> raw !! k = Some x ->
        exists ty, typeByIndex env (TStruct R) (fieldIndex fi) = Some ty
                   /\ accepted ro env implementsUnmarshaler jsonUnmarshal ty x) ->
      err o = None)
  /\ (forall e, err o = Some e ->
      exists k fi x ty c_k,
        fields s !! k = Some fi /\ raw !! k = Some x
        /\ typeByIndex env (TStruct R) (fieldIndex fi) = Some ty
        /\ built env c_k
        /\ err (walk x ty VZero c_k) = Some e)
  /\ (err o = None ->
      forall k fi x, fields s !! k = Some fi -> raw !! k = Some x ->
        exists ty,
          typeByIndex env (TStruct R) (fieldIndex fi) = Some ty
          /\ fieldByIndex env (TStruct R) (target o) (fieldIndex fi)
             = Some (target (walk x ty VZero emptyCache))
          /\ (handed_over implementsUnmarshaler ty x ->
              fieldByIndex env (TStruct R) (target o) (fieldIndex fi)
              = Some (jsonUnmarshal x ty VZero).2))
  /\ (forall x ty v' c',
      handed_over implementsUnmarshaler ty x ->
      walk x ty v' c' = jsonUnmarshal_into jsonUnmarshal x ty v' id c').
Proof.
  intros Hemb Himpl Hconf Hc Hraw Hdom s o.
  assert (raw = default ∅ (rawObject (JObject members))) as Hraw' by by rewrite Hraw.
  assert (Hsub : dom (default ∅ (rawObject (JObject members))) ⊆ dom (fields s)).
  { rewrite <- Hraw', Hdom. done. }
  pose proof (walk_record_members members R c Hemb Himpl Hconf Hc Hsub) as M.
  cbv zeta in M. rewrite <- Hraw' in M. fold s o in M.
  pose proof (CacheFacts.emptyCache_built env) as Hempty.
  assert (Hall : (forall k fi x, fields s !! k = Some fi -> raw !! k = Some x ->
                    exists ty, typeByIndex env (TStruct R) (fieldIndex fi) = Some ty
                               /\ err (walk x ty VZero emptyCache) = None) ->
                 err o = None).
  { intros Hok. destruct (err o) as [e|]; [exfalso|done].
    destruct M as (k & fi & x & ty & c_k & Hfi & Hx & Hty & Hck & He).
    destruct (Hok k fi x Hfi Hx) as (ty' & Hty' & Hnone).
    assert (ty' = ty) as -> by congruence.
    apply (walk_cache_free x ty VZero emptyCache c_k Hempty Hck) in Hnone.
    congruence. }
  split; [done|]. split; [|split; [|split; [|split]]].
  - split; [|exact Hall].
    intros Herr k fi x Hfi Hx. rewrite Herr in M.
    destruct (M k fi x Hfi Hx) as (ty & c_k & Hty & Hck & Hnone & _).
    exists ty. split; [done|].
    by apply (walk_cache_free x ty VZero c_k emptyCache Hck Hempty).
  - intros Hacc. apply Hall. intros k fi x Hfi Hx.
    destruct (Hacc k fi x Hfi Hx) as (ty & Hty & Ha). exists ty. split; [done|].
    by apply (accepted_succeeds (S (json_depth x)) ty x emptyCache); [lia| |].
  - intros e He. rewrite He in M.
    destruct M as (k & fi & x & ty & c_k & Hrest). by exists k, fi, x, ty, c_k.
  - intros Herr k fi x Hfi Hx. rewrite Herr in M.
    destruct (M k fi x Hfi Hx) as (ty & c_k & Hty & Hck & Hnone & Hread).
    destruct (walk_cache_free x ty VZero c_k emptyCache Hck Hempty) as [Htarget _].
    exists ty. split; [done|]. split; [by rewrite <- Htarget|].
    intros Hh. rewrite Hread, (handed_over_walk x ty VZero c_k Hh).
    unfold jsonUnmarshal_into. by destruct (jsonUnmarshal x ty VZero).
  - intros. by apply handed_over_walk.
Qed.

End Exact.

Section ExactSample.
Import Samples.

Lemma testDecls_embeds_ok_from t : embeds_ok_from testDecls t.
Proof. apply embeds_ok_from_all, DecodeFacts.testDecls_embeds_ok. Qed.

(** [{"person": {"name": "John"}}] into a [Wrapper]: the nested object is
    exact too, and the decode succeeds. *)
Lemma exact_keys_decode_witness :
  err (unmarshalValue keepOrder testDecls noUnmarshaler asciiToLower
         (stdUnmarshal noStructDecoder) (NewDecoder [])
         (JObject [("person"%string, JObject [("name"%string, JString "John")])])
         (TStruct "Wrapper") VZero emptyCache) = None.
Proof.
  refine (proj1 (proj2 (proj2 (exact_keys_decode keepOrder testDecls noUnmarshaler
            asciiToLower (stdUnmarshal noStructDecoder) (NewDecoder []) "Wrapper"
            [("person"%string, JObject [("name"%string, JString "John")])]
            {[ "person"%string := JObject [("name"%string, JString "John")] ]}
            emptyCache (testDecls_embeds_ok_from _) eq_refl eq_refl
            (CacheFacts.emptyCache_built testDecls) _ _))) _).
  - vm_compute. reflexivity.
  - vm_compute. reflexivity.
  - intros k fi x Hfi Hx. apply lookup_singleton_Some in Hx as [<- <-].
    assert (fi = {| jsonName := "person"; fieldIndex := [0%nat] |}) as ->.
    { vm_compute in Hfi. congruence. }
    exists (TStruct "Person"). split; [reflexivity|].
    apply accepted_record; [reflexivity|apply testDecls_embeds_ok_from|reflexivity|].
    intros k x Hx. change (default ∅ (rawObject (JObject [("name"%string, JString "John")])))
      with ({[ "name"%string := JString "John" ]} : gmap string json) in Hx.
    apply lookup_singleton_Some in Hx as [<- <-].
    exists {| jsonName := "name"; fieldIndex := [0%nat] |}, TString.
    split; [reflexivity|]. split; [reflexivity|].
    apply accepted_handed_over; [|reflexivity].
    split; [done|]. right. split; [reflexivity|]. left. vm_compute. tauto.
Defined.
End ExactSample.

End ExactFacts.
